(** * Env-Dashboard: the global escalation engine of ai.js

    A shallow embedding of [createAI().evaluateGlobal] (the threshold-based
    version of ai.js) together with the event store it owns, and the
    properties of the engine stated in the specification.

    Conventions of the embedding.
    - Epoch milliseconds are integers ([Z]).  A nullable number is an
      [option Z]; JavaScript truthiness ([!x], [x || y], [x ? a : b]) is
      written out with [truthy] and [orElse]: [null] and [0] are both falsy.
    - Sensor values are the numbers of JavaScript: IEEE 754 binary64, the
      kernel's [float] with its operations.  A difference [b.v - a.v], a
      mean and a square root round as they do in the engine, and a
      comparison with a NaN is false.
    - The process-wide [EVENTS] map is a [gmap string EventState] threaded
      through the evaluation; the objects it holds are reachable only through
      the map and one local variable, so a field assignment [st.f = x] is a
      write-back of the updated record under the same key.
    - The message catalog [TEXT] is kept symbolic: a catalog call is a
      constructor of [Text] applied to the arguments of the call. *)

From Stdlib Require Import ZArith Ascii String List Lia PrimFloat.
From stdpp Require Import base tactics option list strings gmap.

Set Warnings "-inexact-float".

Local Open Scope Z_scope.

(** ** JavaScript values used by the engine *)

Definition truthy (x : option Z) : bool :=
  match x with
  | Some z => negb (z =? 0)
  | None => false
  end.

(** [x || y] on a nullable number. *)
Definition orElse (x : option Z) (y : Z) : Z :=
  match x with
  | Some z => if z =? 0 then y else z
  | None => y
  end.

(** A field of a reading as it arrives: a number (NaN and the infinities
    are numbers), or anything that is not one (a missing field, a string). *)
Inductive JsVal :=
| JNum (x : float)
| JNotNumber.

(** The representations of a timestamp that [tsToMs] tells apart. *)
Inductive Timestamp :=
| TsAbsent                      (* undefined, null, empty string *)
| TsFirestore (ms : Z)          (* an object with toDate() *)
| TsNumber (n : Z)              (* typeof ts === "number" *)
| TsDateLike (ms : option Z).   (* new Date(ts).getTime(), NaN as None *)

Inductive Metric := Temperature | Humidity | Pressure | Light.

Record Row := {
  rowTemperature : JsVal;
  rowHumidity : JsVal;
  rowPressure : JsVal;
  rowLight : JsVal;
  timestamp : Timestamp
}.

Record Point := { ms : Z; v : float }.

Record Delta := {
  d : float;
  fromMs : Z;
  toMs : Z;
  first : float;
  last : float
}.
(* The fields [first] and [last] shadow the list functions of the same
   name from here on; those are written [List.last] where needed. *)

Inductive Lang := en | jp.

(** ** Helpers (time + math) *)

Definition tsToMs (ts : Timestamp) : option Z :=
  match ts with
  | TsAbsent => None
  | TsFirestore t => Some t
  | TsNumber n =>
      if n =? 0 then None
      else Some (if n <? 1000000000000 then n * 1000 else n)
  | TsDateLike t => t
  end.

(** [typeof x === "number" && isFinite(x) ? x : null]. *)
Definition clampNum (x : JsVal) : option float :=
  match x with
  | JNum x => if is_finite x then Some x else None
  | JNotNumber => None
  end.

Definition field (r : Row) (key : Metric) : JsVal :=
  match key with
  | Temperature => rowTemperature r
  | Humidity => rowHumidity r
  | Pressure => rowPressure r
  | Light => rowLight r
  end.

Fixpoint series (rows : list Row) (key : Metric) : list Point :=
  match rows with
  | [] => []
  | r :: rest =>
      match clampNum (field r key), tsToMs (timestamp r) with
      | Some q, Some t =>
          if truthy (Some t) then {| ms := t; v := q |} :: series rest key
          else series rest key
      | _, _ => series rest key
      end
  end.

Definition lastN {A} (arr : list A) (n : nat) : list A :=
  if (length arr <=? n)%nat then arr else skipn (length arr - n) arr.

Definition mkDelta (a b : Point) : Delta :=
  {| d := (v b - v a)%float; fromMs := ms a; toMs := ms b;
     first := v a; last := v b |}.

Definition deltaOverWindow (points : list Point) (from to : Z) : option Delta :=
  let within := List.filter (fun p => (from <=? ms p) && (ms p <=? to)) points in
  match within with
  | a :: _ :: _ => Some (mkDelta a (List.last within a))
  | _ => None
  end.

Definition deltaFromWindow (points : list Point) (windowMs : Z) : option Delta :=
  match List.rev points with
  | b :: _ :: _ => deltaOverWindow points (ms b - windowMs) (ms b)
  | _ => None                   (* points.length < 2 *)
  end.

Definition lastStepDelta (points : list Point) : option Delta :=
  match List.rev points with
  | b :: a :: _ => Some (mkDelta a b)
  | _ => None
  end.

(** [arr.length] as a number: counting up by 1 is exact on an array. *)
Definition lengthOf (arr : list float) : float :=
  fold_left (fun n _ => (n + 1)%float) arr 0%float.

(** [arr.reduce((a, b) => a + b, 0) / arr.length], null on the empty
    array. *)
Definition mean (arr : list float) : option float :=
  match arr with
  | [] => None
  | _ => Some (fold_left PrimFloat.add arr 0 / lengthOf arr)%float
  end.

(** [std]: 0 below two elements; above, neither [mean] is null. *)
Definition std (arr : list float) : float :=
  if (length arr <? 2)%nat then 0%float
  else
    match mean arr with
    | Some m =>
        match mean (List.map (fun x => ((x - m) * (x - m))%float) arr) with
        | Some var => sqrt var
        | None => 0%float
        end
    | None => 0%float
    end.

(** [zAnomaly]: used only by the selected-device feed.  [!sd] holds of 0
    and of NaN; [z > zTh] is false when [z] is NaN. *)
Definition zAnomaly (points : list Point) (zTh : float) : bool :=
  let vals := List.map v points in
  if (length vals <? 12)%nat then false
  else
    match mean vals, List.rev vals with
    | Some m, x :: _ =>
        let sd := std vals in
        if is_zero sd || is_nan sd || (sd <=? 1e-9)%float then false
        else (zTh <? abs ((x - m) / sd))%float
    | _, _ => false
    end.

(** ** Language and message catalog *)

Definition lowerAscii (c : ascii) : ascii :=
  let n := nat_of_ascii c in
  if ((65 <=? n) && (n <=? 90))%nat then ascii_of_nat (n + 32) else c.

Fixpoint toLowerCase (s : string) : string :=
  match s with
  | EmptyString => EmptyString
  | String c rest => String (lowerAscii c) (toLowerCase rest)
  end.

(** [navigatorLanguage] is the value of [navigator.language || ""]. *)
Definition detectLang (langMode navigatorLanguage : string) : Lang :=
  if String.eqb langMode "en" then en
  else if String.eqb langMode "jp" then jp
  else if String.prefix "ja" (toLowerCase navigatorLanguage) then jp else en.

(** One constructor per catalog entry the global engine calls; the
    arguments are those of the call.  [TOAST_SPIKE] stands for the four
    per-metric entries [TOAST_TEMP_SPIKE] .. [TOAST_LIGHT_SPIKE], whose
    [deltaStr] and [win] arguments are both computed from the delta. *)
Inductive Text :=
| OFFLINE_WARN (L : Lang) (name : string) (sec : Z)
| OFFLINE_ALERT (L : Lang) (name : string) (m s : Z)
| TOAST_SPIKE (L : Lang) (metric : Metric) (name : string) (delta : option Delta)
| MODAL_REPEAT (L : Lang) (name : string) (what : Metric)
| MODAL_PERSIST (L : Lang) (name : string) (what : Metric) (mins : Z).

(** ** Event store *)

Record EventState := {
  firstSeenMs : option Z;
  lastSeenMs : option Z;
  lastFiredStage : Z;
  lastToastMs : option Z;
  lastModalMs : option Z;
  lastCriticalMs : option Z;
  lastAckMs : option Z
}.

Abbreviation EventStore := (gmap string EventState).

Definition initEvent : EventState :=
  {| firstSeenMs := None; lastSeenMs := None; lastFiredStage := 0;
     lastToastMs := None; lastModalMs := None; lastCriticalMs := None;
     lastAckMs := None |}.

Definition set_firstSeenMs (x : option Z) (st : EventState) : EventState :=
  {| firstSeenMs := x; lastSeenMs := lastSeenMs st;
     lastFiredStage := lastFiredStage st; lastToastMs := lastToastMs st;
     lastModalMs := lastModalMs st; lastCriticalMs := lastCriticalMs st;
     lastAckMs := lastAckMs st |}.

Definition set_lastSeenMs (x : option Z) (st : EventState) : EventState :=
  {| firstSeenMs := firstSeenMs st; lastSeenMs := x;
     lastFiredStage := lastFiredStage st; lastToastMs := lastToastMs st;
     lastModalMs := lastModalMs st; lastCriticalMs := lastCriticalMs st;
     lastAckMs := lastAckMs st |}.

Definition set_lastFiredStage (x : Z) (st : EventState) : EventState :=
  {| firstSeenMs := firstSeenMs st; lastSeenMs := lastSeenMs st;
     lastFiredStage := x; lastToastMs := lastToastMs st;
     lastModalMs := lastModalMs st; lastCriticalMs := lastCriticalMs st;
     lastAckMs := lastAckMs st |}.

Definition set_lastAckMs (x : option Z) (st : EventState) : EventState :=
  {| firstSeenMs := firstSeenMs st; lastSeenMs := lastSeenMs st;
     lastFiredStage := lastFiredStage st; lastToastMs := lastToastMs st;
     lastModalMs := lastModalMs st; lastCriticalMs := lastCriticalMs st;
     lastAckMs := x |}.

(** Returns the store (extended when the key was absent) and the entry. *)
Definition getOrInitEvent (eventKey : string) (EVENTS : EventStore)
  : EventStore * EventState :=
  match EVENTS !! eventKey with
  | Some st => (EVENTS, st)
  | None => (<[eventKey := initEvent]> EVENTS, initEvent)
  end.

Definition acknowledgeEvent (eventKey : string) (nowMs : Z) (EVENTS : EventStore)
  : EventStore :=
  if String.eqb eventKey "" then EVENTS
  else
    let '(EVENTS, st) := getOrInitEvent eventKey EVENTS in
    <[eventKey := set_lastAckMs (Some nowMs) st]> EVENTS.

Definition isSnoozed (st : EventState) (nowMs snoozeMs : Z) : bool :=
  if negb (truthy (lastAckMs st)) then false
  else nowMs - orElse (lastAckMs st) 0 <? snoozeMs.

(** The three assignments of a clear:
    [st.firstSeenMs = null; st.lastSeenMs = null; st.lastFiredStage = 0]. *)
Definition clearEvent (st : EventState) : EventState :=
  set_lastFiredStage 0 (set_lastSeenMs None (set_firstSeenMs None st)).

(** The two assignments of an active observation:
    [st.lastSeenMs = nowMs; if (!st.firstSeenMs) st.firstSeenMs = nowMs]. *)
Definition markSeen (nowMs : Z) (st : EventState) : EventState :=
  let st := set_lastSeenMs (Some nowMs) st in
  if negb (truthy (firstSeenMs st)) then set_firstSeenMs (Some nowMs) st else st.

(** ** Inputs and outputs of the global engine *)

(** A device snapshot after the defaulting of the loop head:
    [deviceId] is [dev?.deviceId || ""], [rows] is the array or [[]], and
    [lastDataMs] is the number or [None] when it is not a number. *)
Record Device := {
  deviceId : string;
  deviceName : string;
  rows : list Row;
  lastDataMs : option Z
}.

(** [dev?.deviceName || deviceId || "Device"]. *)
Definition displayName (dev : Device) : string :=
  if negb (String.eqb (deviceName dev) "") then deviceName dev
  else if negb (String.eqb (deviceId dev) "") then deviceId dev
  else "Device"%string.

(** The destructured [input], every default already applied;
    [navigatorLanguage] is the one ambient value the call reads. *)
Record Input := {
  devices : list Device;
  nowMs : Z;
  langMode : string;
  navigatorLanguage : string;
  warnMs : Z;
  alertMs : Z;
  repeatWindowMs : Z;
  persistWindowMs : Z;
  modalSnoozeMs : Z;
  ackEventKey : option string
}.

Module Candidate.
Record t := {
  stage : Z;
  level : string;
  eventKey : string;
  text : Text;
  deviceName : string;
  metric : string;
  seenSinceMs : option Z
}.
End Candidate.

Module Notification.
Record t := {
  level : string;
  text : Text;
  eventKey : string
}.
End Notification.

Record Result := {
  toast : option Notification.t;
  modal : option Notification.t;
  lang : Lang
}.

(** ** Global monitoring *)

Record Thresholds := { spike : float; slow5m : float; slow10m : float }.

Definition TH (m : Metric) : Thresholds :=
  match m with
  | Temperature => {| spike := 3; slow5m := 3; slow10m := 4 |}
  | Humidity => {| spike := 12; slow5m := 10; slow10m := 15 |}
  | Pressure => {| spike := 2; slow5m := 2; slow10m := 3 |}
  | Light => {| spike := 1500; slow5m := 1200; slow10m := 2000 |}
  end.

Definition WIN_5M : Z := 5 * 60 * 1000.
Definition WIN_10M : Z := 10 * 60 * 1000.

Definition metricKey (m : Metric) : string :=
  match m with
  | Temperature => "Temperature"
  | Humidity => "Humidity"
  | Pressure => "Pressure"
  | Light => "Light"
  end.

Definition offlineKey (deviceId : string) : string :=
  deviceId +:+ ":offline".

Definition anomalyKey (deviceId : string) (m : Metric) : string :=
  deviceId +:+ ":" +:+ metricKey m +:+ ":anomaly".

(** [buildOfflineEvent]: the [level] and [text] of the returned object
    (its [what] field is the constant ["offline"]). *)
Definition buildOfflineEvent (deviceName : string) (ageMs alertMs : Z) (L : Lang)
  : string * Text :=
  let sec := ageMs / 1000 in
  let m := sec / 60 in
  let s := Z.rem sec 60 in
  if alertMs <=? ageMs then ("alert"%string, OFFLINE_ALERT L deviceName m s)
  else ("warn"%string, OFFLINE_WARN L deviceName sec).

Definition makeSpikeText (L : Lang) (deviceName : string) (metric : Metric)
    (dUse : option Delta) : Text :=
  TOAST_SPIKE L metric deviceName dUse.

(** [!!(x && Math.abs(x.d) >= th)]. *)
Definition hit (x : option Delta) (th : float) : bool :=
  match x with
  | Some dl => (th <=? abs (d dl))%float
  | None => false
  end.

(** The constants computed at the head of the metric loop body, for the
    series [pts] of metric [m]. *)
Definition step (pts : list Point) : option Delta := lastStepDelta pts.

Definition d5 (pts : list Point) : option Delta :=
  if (10 <=? length pts)%nat then deltaFromWindow pts WIN_5M else None.

Definition d10 (pts : list Point) : option Delta :=
  if (10 <=? length pts)%nat then deltaFromWindow pts WIN_10M else None.

Definition spikeHit (m : Metric) (pts : list Point) : bool :=
  hit (step pts) (spike (TH m)).

Definition slow5Hit (m : Metric) (pts : list Point) : bool :=
  hit (d5 pts) (slow5m (TH m)).

Definition slow10Hit (m : Metric) (pts : list Point) : bool :=
  hit (d10 pts) (slow10m (TH m)).

Definition active (m : Metric) (pts : list Point) : bool :=
  spikeHit m pts || slow5Hit m pts || slow10Hit m pts.

(** Priority: spike > slow5 > slow10; the last case is [d10 || step]. *)
Definition dUse (m : Metric) (pts : list Point) : option Delta :=
  if spikeHit m pts then step pts
  else if slow5Hit m pts then d5 pts
  else match d10 pts with Some x => Some x | None => step pts end.

(** The running state of one evaluation: the store and the array of
    candidates, in push order. *)
Record Loop := {
  EVENTS : EventStore;
  candidates : list Candidate.t
}.

Definition push (c : Candidate.t) (lp : Loop) : Loop :=
  {| EVENTS := EVENTS lp; candidates := candidates lp ++ [c] |}.

Definition withEvents (E : EventStore) (lp : Loop) : Loop :=
  {| EVENTS := E; candidates := candidates lp |}.

Section Evaluation.

Variable input : Input.

Definition resolvedLang : Lang :=
  detectLang (langMode input) (navigatorLanguage input).

(** The object pushed by the offline branches; [st] is the entry after
    the observation was recorded. *)
Definition offlineCandidate (dev : Device) (age : Z) (stage : Z) (level : string)
    (st : EventState) : Candidate.t :=
  let ev := buildOfflineEvent (displayName dev) age (alertMs input) resolvedLang in
  {| Candidate.stage := stage;
     Candidate.level := level;
     Candidate.eventKey := offlineKey (deviceId dev);
     Candidate.text := snd ev;
     Candidate.deviceName := displayName dev;
     Candidate.metric := "offline";
     Candidate.seenSinceMs := firstSeenMs st |}.

(** The branch shared by "no data at all" and [age >= warnMs]: the entry
    is created or fetched, marked seen, and a candidate is pushed unless
    the entry is snoozed. *)
Definition offlineActive (dev : Device) (age : Z) (stage : Z) (level : string)
    (lp : Loop) : Loop :=
  let eventKey := offlineKey (deviceId dev) in
  let '(E, st) := getOrInitEvent eventKey (EVENTS lp) in
  let st := markSeen (nowMs input) st in
  let lp := withEvents (<[eventKey := st]> E) lp in
  if negb (isSnoozed st (nowMs input) (modalSnoozeMs input))
  then push (offlineCandidate dev age stage level st) lp
  else lp.

(** Whether the loop body reaches anomaly detection: the no-data branch
    ends in [continue]. *)
Definition reachesAnomaly (dev : Device) : bool := truthy (lastDataMs dev).

(** Offline detection for one device. *)
Definition offlineDetection (dev : Device) (lp : Loop) : Loop :=
  if negb (truthy (lastDataMs dev)) then
    offlineActive dev (alertMs input + 1) 2 "modal" lp
  else
    let age := nowMs input - orElse (lastDataMs dev) 0 in
    if warnMs input <=? age then
      if alertMs input <=? age
      then offlineActive dev age 2 "modal" lp
      else offlineActive dev age 1 "warn" lp
    else
      let eventKey := offlineKey (deviceId dev) in
      match EVENTS lp !! eventKey with
      | Some st => withEvents (<[eventKey := clearEvent st]> (EVENTS lp)) lp
      | None => lp
      end.

Definition seenFor (st : EventState) : Z :=
  nowMs input - orElse (firstSeenMs st) (nowMs input).

(** [let stage = 2; if (seenFor >= persistWindowMs) stage = 3]. *)
Definition stageOf (st : EventState) : Z :=
  if persistWindowMs input <=? seenFor st then 3 else 2.

Definition levelOf (st : EventState) : string :=
  if persistWindowMs input <=? seenFor st then "critical" else "modal".

(** [if (stage > st.lastFiredStage) st.lastFiredStage = stage]. *)
Definition recordStage (stage : Z) (st : EventState) : EventState :=
  if lastFiredStage st <? stage then set_lastFiredStage stage st else st.

(** The object pushed by the anomaly branch: the "persisted" text at
    stage 3, the delta text otherwise. *)
Definition anomalyCandidate (dev : Device) (m : Metric) (pts : list Point)
    (st : EventState) : Candidate.t :=
  let stage := stageOf st in
  {| Candidate.stage := stage;
     Candidate.level := levelOf st;
     Candidate.eventKey := anomalyKey (deviceId dev) m;
     Candidate.text :=
       if stage =? 3
       then MODAL_PERSIST resolvedLang (displayName dev) m
              (Z.max 30 (seenFor st / 60000))
       else makeSpikeText resolvedLang (displayName dev) m (dUse m pts);
     Candidate.deviceName := displayName dev;
     Candidate.metric := metricKey m;
     Candidate.seenSinceMs := firstSeenMs st |}.

(** [st.lastSeenMs ? nowMs - st.lastSeenMs : 0]. *)
Definition quietFor (st : EventState) : Z :=
  if truthy (lastSeenMs st) then nowMs input - orElse (lastSeenMs st) 0 else 0.

(** The body of [for (const m of metrics)]. *)
Definition anomalyDetection (dev : Device) (lp : Loop) (m : Metric) : Loop :=
  let pts := series (rows dev) m in
  if (length pts <? 3)%nat then lp
  else
    let eventKey := anomalyKey (deviceId dev) m in
    if negb (active m pts) then
      match EVENTS lp !! eventKey with
      | Some st =>
          if repeatWindowMs input <? quietFor st
          then withEvents (<[eventKey := clearEvent st]> (EVENTS lp)) lp
          else lp
      | None => lp
      end
    else
      let '(E, st) := getOrInitEvent eventKey (EVENTS lp) in
      let st := markSeen (nowMs input) st in
      if isSnoozed st (nowMs input) (modalSnoozeMs input)
      then withEvents (<[eventKey := st]> E) lp
      else
        let st' := recordStage (stageOf st) st in
        push (anomalyCandidate dev m pts st') (withEvents (<[eventKey := st']> E) lp).

Definition metrics : list Metric := [Temperature; Humidity; Pressure; Light].

(** The body of [for (const dev of devices)]. *)
Definition evaluateDevice (lp : Loop) (dev : Device) : Loop :=
  let lp := offlineDetection dev lp in
  if reachesAnomaly dev then fold_left (anomalyDetection dev) metrics lp
  else lp.

(** Everything up to the end of the device loop: the acknowledgement,
    applied first, then the devices in order. *)
Definition applyAck (E : EventStore) : EventStore :=
  match ackEventKey input with
  | Some k => acknowledgeEvent k (nowMs input) E
  | None => E
  end.

Definition collect (E : EventStore) : Loop :=
  fold_left evaluateDevice (devices input)
    {| EVENTS := applyAck E; candidates := [] |}.

End Evaluation.

(** ** Arbitration *)

(** The comparator handed to [candidates.sort]:
    [b.stage - a.stage], then [(b.seenSinceMs || 0) - (a.seenSinceMs || 0)]. *)
Definition compareCandidates (a b : Candidate.t) : Z :=
  if negb (Candidate.stage b =? Candidate.stage a)
  then Candidate.stage b - Candidate.stage a
  else orElse (Candidate.seenSinceMs b) 0 - orElse (Candidate.seenSinceMs a) 0.

(** [Array.prototype.sort] is a stable sort.  The comparator above is a
    consistent total preorder, for which the result of a stable sort is
    unique; it is computed here by stable insertion ([a] stays in front of
    [b] when [cmp a b <= 0]). *)
Fixpoint insertSorted {A} (cmp : A -> A -> Z) (a : A) (l : list A) : list A :=
  match l with
  | [] => [a]
  | b :: rest => if cmp a b <=? 0 then a :: b :: rest
                 else b :: insertSorted cmp a rest
  end.

Fixpoint sort {A} (cmp : A -> A -> Z) (l : list A) : list A :=
  match l with
  | [] => []
  | a :: rest => insertSorted cmp a (sort cmp rest)
  end.

Definition notify (level : string) (top : Candidate.t) : Notification.t :=
  {| Notification.level := level;
     Notification.text := Candidate.text top;
     Notification.eventKey := Candidate.eventKey top |}.

(** [candidates[0]] after the sort, [None] for the empty array. *)
Definition topCandidate (candidates : list Candidate.t) : option Candidate.t :=
  head (sort compareCandidates candidates).

(** From [if (!candidates.length)] to the end of [evaluateGlobal]. *)
Definition arbitrate (L : Lang) (candidates : list Candidate.t) : Result :=
  match topCandidate candidates with
  | None => {| toast := None; modal := None; lang := L |}
  | Some top =>
      if Candidate.stage top =? 3
      then {| toast := None; modal := Some (notify "critical" top); lang := L |}
      else {| toast := None; modal := Some (notify "modal" top); lang := L |}
  end.

(** [evaluateGlobal]: the result returned to the caller and the store the
    call leaves behind. *)
Definition evaluateGlobal (input : Input) (E : EventStore) : Result * EventStore :=
  let lp := collect input E in
  (arbitrate (resolvedLang input) (candidates lp), EVENTS lp).

(** ** The earlier version of the module

    The repository also holds the version of ai.js that precedes the
    threshold-based anomaly detection.  Its acknowledgement, offline
    detection and sort are the same; the parts that differ and matter
    below are the activity test of the anomaly detector and the tail of
    the arbitration. *)
Module Previous.

(** [spikeCheck(points, minutesWindow, absThreshold)]. *)
Definition spikeCheck (points : list Point) (minutesWindow : Z) (absThreshold : float)
  : option Delta :=
  match List.rev points with
  | [] => None
  | b :: _ =>
      match deltaOverWindow points (ms b - minutesWindow * 60 * 1000) (ms b) with
      | Some dl => if (absThreshold <=? abs (d dl))%float then Some dl else None
      | None => None
      end
  end.

Definition spike1m (m : Metric) : float :=
  match m with
  | Temperature => 2.5 | Humidity => 8 | Pressure => 1.5 | Light => 400
  end.

Definition spike10m (m : Metric) : float :=
  match m with
  | Temperature => 4 | Humidity => 14 | Pressure => 3 | Light => 900
  end.

(** [active] of the earlier anomaly loop, [!!(d1 || d10 || z)], for a
    series that passed [pts.length < 12]. *)
Definition active (m : Metric) (pts : list Point) : bool :=
  let d1 := spikeCheck pts 1 (spike1m m) in
  let d10 := spikeCheck pts 10 (spike10m m) in
  let z := zAnomaly (lastN pts 40) 2.9 in
  match d1, d10 with
  | None, None => z
  | _, _ => true
  end.

(** The tail of the earlier [evaluateGlobal]: it still has the toast
    branch for a top candidate below stage 2. *)
Definition arbitrate (L : Lang) (candidates : list Candidate.t) : Result :=
  match topCandidate candidates with
  | None => {| toast := None; modal := None; lang := L |}
  | Some top =>
      if Candidate.stage top =? 3
      then {| toast := None; modal := Some (notify "critical" top); lang := L |}
      else if Candidate.stage top =? 2
      then {| toast := None; modal := Some (notify "modal" top); lang := L |}
      else
        let toastLevel :=
          if String.eqb (Candidate.level top) "alert"
          then "alert"%string else "warn"%string in
        {| toast := Some (notify toastLevel top); modal := None; lang := L |}
  end.

End Previous.

(** ** The evaluation as a sequence of single-key steps

    Every iteration of the two loops reads and writes one entry of the
    store, the one under the key it builds.  [Action] is what an iteration
    does to that entry: the entry before ([None] when the key is absent) is
    mapped to the entry after and to the candidates pushed. *)
Definition Action : Type := option EventState -> option EventState * list Candidate.t.

(** The entry [getOrInitEvent] hands out. *)
Definition entryOf (o : option EventState) : EventState :=
  match o with
  | Some st => st
  | None => initEvent
  end.

Definition applyAt (k : string) (f : Action) (lp : Loop) : Loop :=
  let '(o, cs) := f (EVENTS lp !! k) in
  {| EVENTS := match o with Some st => <[k := st]> (EVENTS lp) | None => EVENTS lp end;
     candidates := candidates lp ++ cs |}.

Definition runSteps (steps : list (string * Action)) (lp : Loop) : Loop :=
  fold_left (fun lp ka => applyAt (fst ka) (snd ka) lp) steps lp.

Section Steps.

Variable input : Input.

Definition offlineActiveAct (dev : Device) (age stage : Z) (level : string) : Action :=
  fun o =>
    let st := markSeen (nowMs input) (entryOf o) in
    (Some st,
     if negb (isSnoozed st (nowMs input) (modalSnoozeMs input))
     then [offlineCandidate input dev age stage level st] else []).

Definition offlineAct (dev : Device) : Action :=
  if negb (truthy (lastDataMs dev)) then
    offlineActiveAct dev (alertMs input + 1) 2 "modal"
  else
    let age := nowMs input - orElse (lastDataMs dev) 0 in
    if warnMs input <=? age then
      if alertMs input <=? age
      then offlineActiveAct dev age 2 "modal"
      else offlineActiveAct dev age 1 "warn"
    else fun o => (clearEvent <$> o, []).

Definition anomalyAct (dev : Device) (m : Metric) : Action :=
  let pts := series (rows dev) m in
  if (length pts <? 3)%nat then fun o => (o, [])
  else if negb (active m pts) then
    fun o =>
      match o with
      | Some st =>
          (Some (if repeatWindowMs input <? quietFor input st
                 then clearEvent st else st), [])
      | None => (None, [])
      end
  else
    fun o =>
      let st := markSeen (nowMs input) (entryOf o) in
      if isSnoozed st (nowMs input) (modalSnoozeMs input) then (Some st, [])
      else
        let st' := recordStage (stageOf input st) st in
        (Some st', [anomalyCandidate input dev m pts st']).

Definition stepsOfDevice (dev : Device) : list (string * Action) :=
  (offlineKey (deviceId dev), offlineAct dev)
  :: (if reachesAnomaly dev
      then (fun m => (anomalyKey (deviceId dev) m, anomalyAct dev m)) <$> metrics
      else []).

Definition stepsOf (devs : list Device) : list (string * Action) :=
  devs ≫= stepsOfDevice.

End Steps.

(** ** Vocabulary of the statements *)

(** Acknowledgement time of the entry under a key, [None] when absent. *)
Definition ackOf (o : option EventState) : option Z :=
  match o with
  | Some st => lastAckMs st
  | None => None
  end.

(** [isSnoozed] reads nothing but [lastAckMs]. *)
Definition snoozedAck (a : option Z) (now snoozeMs : Z) : bool :=
  if negb (truthy a) then false else now - orElse a 0 <? snoozeMs.

(** An entry in its inactive state: what a clear leaves behind. *)
Definition cleared (st : EventState) : Prop :=
  firstSeenMs st = None /\ lastSeenMs st = None /\ lastFiredStage st = 0.

(** The stage floor between an entry [st] and its later state [st']. *)
Definition floorKept (st st' : EventState) : Prop :=
  lastFiredStage st <= lastFiredStage st' \/ cleared st'.

(** What every step of the evaluation at time [now] satisfies. *)
Record wellBehaved (now snoozeMs : Z) (k : string) (f : Action) : Prop := {
  wb_keeps : forall st, exists st', fst (f (Some st)) = Some st';
  wb_ack : forall o, ackOf (fst (f o)) = ackOf o;
  wb_key : forall o c, c ∈ snd (f o) -> Candidate.eventKey c = k;
  wb_snoozed : forall o, snoozedAck (ackOf o) now snoozeMs = true -> snd (f o) = [];
  wb_floor : forall st st', fst (f (Some st)) = Some st' -> floorKept st st';
  wb_idem : forall o, f (fst (f o)) = f o
}.

Definition keysOf (steps : list (string * Action)) : list string :=
  fst <$> steps.

(** The candidates a list of steps pushes when every step sees the entry
    of its key as it is in [E]. *)
Definition emitted (steps : list (string * Action)) (E : EventStore)
  : list Candidate.t :=
  steps ≫= (fun ka => snd (snd ka (E !! fst ka))).

(** The conditions of the two detectors, as the loop body decides them. *)
Definition offlineCondition (input : Input) (dev : Device) : bool :=
  negb (truthy (lastDataMs dev))
  || (warnMs input <=? nowMs input - orElse (lastDataMs dev) 0).

Definition anomalyCondition (dev : Device) (m : Metric) : bool :=
  reachesAnomaly dev
  && negb (length (series (rows dev) m) <? 3)%nat
  && active m (series (rows dev) m).

(** The one notification a result carries, if any. *)
Definition shown (res : Result) : option Notification.t :=
  match modal res with
  | Some n => Some n
  | None => toast res
  end.

(** [c] does not sort in front of [top]: lower stage, or equal stage and
    a [seenSinceMs || 0] that is not larger. *)
Definition notAbove (c top : Candidate.t) : Prop :=
  Candidate.stage c < Candidate.stage top
  \/ (Candidate.stage c = Candidate.stage top
      /\ orElse (Candidate.seenSinceMs c) 0 <= orElse (Candidate.seenSinceMs top) 0).

(** The condition watched under key [k] is active in this evaluation:
    some device of the input has [k] as its offline key and is offline, or
    has [k] as the anomaly key of a metric whose thresholds are reached. *)
Definition conditionActive (input : Input) (k : string) : Prop :=
  exists dev,
    dev ∈ devices input
    /\ ((k = offlineKey (deviceId dev) /\ offlineCondition input dev = true)
        \/ exists m, k = anomalyKey (deviceId dev) m /\ anomalyCondition dev m = true).

(** The shape of a step that observes an active condition under [k]: the
    entry is marked seen; snoozed, nothing else happens; otherwise exactly
    one candidate is pushed, for [k], and only [lastFiredStage] may change
    further. *)
Definition observing (input : Input) (k : string) (f : Action) : Prop :=
  forall o,
    let st := markSeen (nowMs input) (entryOf o) in
    (isSnoozed st (nowMs input) (modalSnoozeMs input) = true -> f o = (Some st, []))
    /\ (isSnoozed st (nowMs input) (modalSnoozeMs input) = false ->
        exists c st',
          f o = (Some st', [c])
          /\ Candidate.eventKey c = k
          /\ Candidate.seenSinceMs c = firstSeenMs st
          /\ ((st' = st /\ 1 <= Candidate.stage c <= 2
               /\ exists id, k = offlineKey id)
              \/ (st' = recordStage (stageOf input st) st
                  /\ Candidate.stage c = stageOf input st
                  /\ exists id m, k = anomalyKey id m))).

(** The same call on another array of devices. *)
Definition withDevices (input : Input) (devs : list Device) : Input :=
  {| devices := devs; nowMs := nowMs input; langMode := langMode input;
     navigatorLanguage := navigatorLanguage input;
     warnMs := warnMs input; alertMs := alertMs input;
     repeatWindowMs := repeatWindowMs input;
     persistWindowMs := persistWindowMs input;
     modalSnoozeMs := modalSnoozeMs input; ackEventKey := ackEventKey input |}.

(** What the anomaly detection of the global engine reads of a series:
    whether it has three points, and its step, 5-minute and 10-minute
    deltas. *)
Definition thresholdView (pts : list Point)
  : bool * option Delta * option Delta * option Delta :=
  ((length pts <? 3)%nat, step pts, d5 pts, d10 pts).

(** Two snapshots of a device that the delta thresholds cannot tell apart:
    the same identifier, name and last-data time, and for every metric the
    same view of its series.  The rows may differ in everything else. *)
Definition sameDeltas (dev dev' : Device) : Prop :=
  deviceId dev = deviceId dev'
  /\ deviceName dev = deviceName dev'
  /\ lastDataMs dev = lastDataMs dev'
  /\ forall m, thresholdView (series (rows dev) m) = thresholdView (series (rows dev') m).

(** ** Histories of the engine

    [EVENTS] starts empty when [createAI] runs and is changed by nothing
    but [evaluateGlobal].  [reachable P t E]: the store [E] is what a
    sequence of evaluations leaves behind, at times that never go back and
    with persist windows that never grow, the last one at time [t] with
    [persistWindowMs = P]. *)
Inductive reachable : Z -> Z -> EventStore -> Prop :=
| reachable_created P t : reachable P t ∅
| reachable_evaluated P t E input :
    reachable P t E ->
    persistWindowMs input <= P ->
    t <= nowMs input ->
    reachable (persistWindowMs input) (nowMs input) (snd (evaluateGlobal input E)).

(** What a recorded stage says about its entry at time [t]: stage 3 was
    recorded because the occurrence had lasted [P]; an offline entry never
    records a stage. *)
Definition stageSound (P t : Z) (k : string) (st : EventState) : Prop :=
  lastFiredStage st = 0
  \/ ((exists id m, k = anomalyKey id m)
      /\ (lastFiredStage st = 2
          \/ (lastFiredStage st = 3 /\ P <= t - orElse (firstSeenMs st) t))).

Definition storeSound (P t : Z) (E : EventStore) : Prop :=
  forall k st, E !! k = Some st -> stageSound P t k st.

(** The characters of a key, last first: keys are told apart by their
    suffixes. *)
Definition revChars (s : string) : list ascii :=
  List.rev (list_ascii_of_string s).

(** The keys the loop body builds for the device with identifier [id]. *)
Definition ownedBy (id : string) (k : string) : Prop :=
  k = offlineKey id \/ exists m, k = anomalyKey id m.

(** ** The scenarios of the specification, run on the embedding *)

Definition cfg (devs : list Device) (t : Z) (ack : option string) : Input :=
  {| devices := devs; nowMs := t; langMode := "en"; navigatorLanguage := "";
     warnMs := 45000; alertMs := 300000;
     repeatWindowMs := 600000; persistWindowMs := 1800000;
     modalSnoozeMs := 300000; ackEventKey := ack |}.

Definition T0 : Z := 1700000000000.

Definition device (id : string) (rs : list Row) (lastData : option Z) : Device :=
  {| deviceId := id; deviceName := id; rows := rs; lastDataMs := lastData |}.

Definition tempRow (t : Z) (q : float) : Row :=
  {| rowTemperature := JNum q; rowHumidity := JNotNumber;
     rowPressure := JNotNumber; rowLight := JNotNumber;
     timestamp := TsFirestore t |}.


(** Two devices, both silent for longer than [alertMs]; the store already
    holds their offline events, A's the older one. *)
Definition seenSince (t : Z) : EventState :=
  {| firstSeenMs := Some t; lastSeenMs := Some t; lastFiredStage := 0;
     lastToastMs := None; lastModalMs := None; lastCriticalMs := None;
     lastAckMs := None |}.

Definition twoOffline : list Device :=
  [device "A" [] (Some (T0 - 900000)); device "B" [] (Some (T0 - 400000))].

Definition twoOfflineStore : EventStore :=
  <["A:offline"%string := seenSince (T0 - 600000)]>
    (<["B:offline"%string := seenSince (T0 - 100000)]> ∅).

(** One device, silent for a minute: past [warnMs], short of [alertMs]. *)
Definition lateDevice : list Device := [device "W" [] (Some (T0 - 60000))].

(** The tie-break as the specification words it: among the candidates of
    the top candidate's stage none has been active longer, that is, none
    has a smaller [seenSinceMs]. *)
Definition oldestFirst (input : Input) (E : EventStore) : Prop :=
  forall top c,
    topCandidate (candidates (collect input E)) = Some top ->
    c ∈ candidates (collect input E) ->
    Candidate.stage c = Candidate.stage top ->
    orElse (Candidate.seenSinceMs top) 0 <= orElse (Candidate.seenSinceMs c) 0.

(** A device the poller has never heard from, next to one that is fine. *)
Definition unknownDevice : list Device :=
  [device "N" [] None; device "B" [] (Some (T0 - 1000))].

(** A device whose temperature stepped from 20.0 to 24.0 between its last
    two samples, heard from at [seen]; its anomaly key; the store after a
    first evaluation at [T0], and after a second one, a second later, that
    acknowledges the anomaly. *)
Definition spiking (seen : Z) : list Device :=
  [device "B" [tempRow (T0 - 20000) 20; tempRow (T0 - 10000) 20; tempRow T0 24]
     (Some seen)].

Definition spikeKey : string := "B:Temperature:anomaly".

Definition afterFirst : EventStore :=
  snd (evaluateGlobal (cfg (spiking T0) T0 None) ∅).

Definition afterAck : EventStore :=
  snd (evaluateGlobal (cfg (spiking T0) (T0 + 1000) (Some spikeKey)) afterFirst).

(** Consecutive evaluations: the candidates of each cycle, the store being
    handed from one cycle to the next. *)
Fixpoint cycles (inputs : list Input) (E : EventStore) : list (list Candidate.t) :=
  match inputs with
  | [] => []
  | input :: rest =>
      candidates (collect input E) :: cycles rest (EVENTS (collect input E))
  end.

(** The anomaly of [spiking] observed in two cycles, one and two seconds
    after [T0]. *)
Definition twoCycles : list Input :=
  [cfg (spiking (T0 + 1000)) (T0 + 1000) None;
   cfg (spiking (T0 + 2000)) (T0 + 2000) None].

(** The store after each step of a run, in order. *)
Fixpoint storesAlong (steps : list (string * Action)) (lp : Loop) : list EventStore :=
  match steps with
  | [] => []
  | (k, f) :: rest =>
      EVENTS (applyAt k f lp) :: storesAlong rest (applyAt k f lp)
  end.

(** The moments of one evaluation: the store it starts from, the store
    after the acknowledgement, and the store after every iteration of the
    device loop and of the metric loop. *)
Definition momentsOf (input : Input) (E : EventStore) : list EventStore :=
  E :: applyAck input E
    :: storesAlong (stepsOf input (devices input))
         {| EVENTS := applyAck input E; candidates := [] |}.

(** Device A: silent for ten minutes at [T0], then heard from again, then
    silent for a minute and a half. *)
Definition offlineTenMinutes : Input := cfg [device "A" [] (Some (T0 - 600000))] T0 None.
Definition backOnline : Input := cfg [device "A" [] (Some (T0 + 9000))] (T0 + 10000) None.
Definition offlineAgain : Input := cfg [device "A" [] (Some (T0 + 9000))] (T0 + 100000) None.

(** Twelve temperature samples, ten seconds apart: eleven at 20.0 and a
    last one at 21.0.  No threshold of the global engine is reached, and
    the dispersion check of the selected-device feed flags the last
    sample. *)
Definition gentleBump : list Row :=
  List.map (fun i => tempRow (T0 - 110000 + 10000 * Z.of_nat i) 20) (seq 0 11)
  ++ [tempRow T0 21].

Definition bumpDevice : list Device := [device "Z" gentleBump (Some T0)].

(** The anomaly of [spiking] with a first-seen time 31 minutes back. *)
Definition persistedStore : EventStore :=
  <[spikeKey := seenSince (T0 - 1860000)]> ∅.

(** The same twelve times with the first and the last two samples of
    [gentleBump] and samples swinging between 16.0 and 24.0 in between:
    the deltas of the two series are the same, the dispersion is not. *)
Definition choppy : list Row :=
  tempRow (T0 - 110000) 20
  :: List.map (fun i => tempRow (T0 - 100000 + 10000 * Z.of_nat i)
                          (if Nat.even i then 24 else 16)%float) (seq 0 9)
  ++ [tempRow (T0 - 10000) 20; tempRow T0 21].

Definition choppyDevice : list Device := [device "Z" choppy (Some T0)].

(** The last clause of the claim on snoozing as the specification words
    it: the evaluation produces a candidate for [k] at a stage that is at
    least the [lastFiredStage] recorded before it. *)
Definition resurfacesAtFloor (input : Input) (E : EventStore) (k : string) : Prop :=
  exists c,
    c ∈ candidates (collect input E)
    /\ Candidate.eventKey c = k
    /\ lastFiredStage (entryOf (E !! k)) <= Candidate.stage c.

(** The anomaly of [spiking], first seen at [T0] and still there thirty
    minutes later, when stage 3 is recorded.  Then the clock of the page
    is set back by ten minutes, the modal is acknowledged, and the engine
    runs again five minutes after that. *)
Definition persisted : EventStore :=
  snd (evaluateGlobal (cfg (spiking (T0 + 1800000)) (T0 + 1800000) None) afterFirst).

Definition ackAfterStepBack : EventStore :=
  snd (evaluateGlobal (cfg (spiking (T0 + 1200000)) (T0 + 1200000) (Some spikeKey))
         persisted).

Definition afterStepBack : Input := cfg (spiking (T0 + 1500000)) (T0 + 1500000) None.

(** The same anomaly watched by a caller that passes a persist window of
    ten minutes at first and of thirty minutes later, the clock running
    forward throughout: stage 3 is recorded after ten minutes, the modal
    is acknowledged a minute later, and the engine runs again five
    minutes after that. *)
Definition withPersist (P : Z) (input : Input) : Input :=
  {| devices := devices input; nowMs := nowMs input; langMode := langMode input;
     navigatorLanguage := navigatorLanguage input;
     warnMs := warnMs input; alertMs := alertMs input;
     repeatWindowMs := repeatWindowMs input;
     persistWindowMs := P;
     modalSnoozeMs := modalSnoozeMs input; ackEventKey := ackEventKey input |}.

Definition persistedEarly : EventStore :=
  snd (evaluateGlobal
         (withPersist 600000 (cfg (spiking (T0 + 600000)) (T0 + 600000) None))
         afterFirst).

Definition ackEarly : EventStore :=
  snd (evaluateGlobal
         (withPersist 600000
            (cfg (spiking (T0 + 660000)) (T0 + 660000) (Some spikeKey)))
         persistedEarly).

Definition afterWindowGrew : Input := cfg (spiking (T0 + 960000)) (T0 + 960000) None.

(** * The rest of the module and its callers

    Definitions for the properties of the helpers, of the event store and
    of whole evaluations that follow the claims. *)

From Stdlib Require Sorted.

(** The points of [points] that [deltaOverWindow] keeps. *)
Definition within (points : list Point) (from to : Z) : list Point :=
  List.filter (fun p => (from <=? ms p) && (ms p <=? to)) points.

(** What holds of every entry of a store at time [t] along a history:
    the three per-kind notification times are never written; the recorded
    stage is 0, 2 or 3; a first-seen time comes with a last-seen time that
    is not earlier; and no recorded time lies after [t]. *)
Definition entrySane (t : Z) (st : EventState) : Prop :=
  lastToastMs st = None /\ lastModalMs st = None /\ lastCriticalMs st = None
  /\ (lastFiredStage st = 0 \/ lastFiredStage st = 2 \/ lastFiredStage st = 3)
  /\ (forall f, firstSeenMs st = Some f ->
        exists l, lastSeenMs st = Some l /\ f <= l)
  /\ (forall l, lastSeenMs st = Some l -> l <= t)
  /\ (forall a, lastAckMs st = Some a -> a <= t).

(** The shape of a candidate of device [dev]: an offline candidate is a
    stage-2 "modal" with the alert text or a stage-1 "warn" with the
    warning text; an anomaly candidate is a stage-2 "modal" with the delta
    text or a stage-3 "critical" with the "persisted" text. *)
Definition candidateOf (input : Input) (dev : Device) (c : Candidate.t) : Prop :=
  let L := resolvedLang input in
  let name := displayName dev in
  Candidate.deviceName c = name
  /\ (exists t, Candidate.seenSinceMs c = Some t)
  /\ ((Candidate.eventKey c = offlineKey (deviceId dev)
       /\ Candidate.metric c = "offline"%string
       /\ ((Candidate.stage c = 2 /\ Candidate.level c = "modal"%string
            /\ exists m s, Candidate.text c = OFFLINE_ALERT L name m s)
           \/ (Candidate.stage c = 1 /\ Candidate.level c = "warn"%string
               /\ exists sec, Candidate.text c = OFFLINE_WARN L name sec)))
      \/ (exists m,
            Candidate.eventKey c = anomalyKey (deviceId dev) m
            /\ Candidate.metric c = metricKey m
            /\ ((Candidate.stage c = 2 /\ Candidate.level c = "modal"%string
                 /\ exists dl, Candidate.text c = TOAST_SPIKE L m name (Some dl))
                \/ (Candidate.stage c = 3 /\ Candidate.level c = "critical"%string
                    /\ exists mins,
                        Candidate.text c = MODAL_PERSIST L name m mins
                        /\ 30 <= mins)))).

(** An input whose device B has two samples only, on a store that holds
    B's anomaly; and the input of [spiking] with the temperature back to
    flat, evaluated three minutes and twenty minutes after the anomaly was
    last seen. *)
Definition sparse : Input :=
  cfg [device "B" [tempRow (T0 - 10000) 20; tempRow T0 24] (Some T0)] (T0 + 5000) None.

Definition flatRows : list Row :=
  [tempRow (T0 + 10000) 24; tempRow (T0 + 20000) 24; tempRow (T0 + 30000) 24].

Definition calm (t : Z) : Input := cfg [device "B" flatRows (Some t)] t None.

(** ** Selected device feed

    [sliceLive10Min(rows, nowMs)]: the rows of the last ten minutes, or
    all the rows when fewer than eight fall in there. *)
Definition inLiveWindow (nowMs : Z) (r : Row) : bool :=
  match tsToMs (timestamp r) with
  | Some ms => truthy (Some ms) && (nowMs - 10 * 60 * 1000 <=? ms) && (ms <=? nowMs)
  | None => false
  end.

Definition sliceLive10Min (rows : list Row) (nowMs : Z) : list Row :=
  let sliced := List.filter (inLiveWindow nowMs) rows in
  if 8 <=? Z.of_nat (length sliced) then sliced else rows.

(** ** dashboard.js: the callers of the global engine

    The part of the dashboard that feeds [AI.evaluateGlobal] and shows its
    result.  The page state it keeps in module variables is the record
    [Page]; [AI_EVENTS] is the event store of the [AI] instance the page
    created.  [Date.now()] and [navigator.language] are arguments.  The
    modal's DOM nodes are reduced to what they are set to show. *)
Module Dashboard.

Record DeviceEntry := { id : string; name : string }.

Definition DEVICES : list DeviceEntry :=
  [ {| id := "atom_s3_lite_01"; name := "Atom S3 Lite 01" |};
    {| id := "atom_s3_lite_02"; name := "学習支援室" |};
    {| id := "atom_s3_lite_03"; name := "Atom S3 Lite 03" |};
    {| id := "atom_s3_lite_04"; name := "Atom S3 Lite 04" |} ].

Definition OFFLINE_WARN_MS : Z := 45 * 1000.
Definition OFFLINE_ALERT_MS : Z := 5 * 60 * 1000.

(** What [showGlobalModal] puts on screen: title, border and colours are
    functions of [level] and [lang]; [display] is the overlay's
    [style.display] being "flex". *)
Record ModalView := {
  viewLevel : string;
  viewText : Text;
  viewLang : Lang;
  display : bool
}.

Record Page := {
  AI_EVENTS : EventStore;
  GLOBAL_STATE : gmap string Device;
  LANG_MODE : string;
  MODAL : option ModalView;
  MODAL_VISIBLE : bool;
  MODAL_EVENT_KEY : option string;
  LAST_GLOBAL_TOAST_EVENT : option string;
  LAST_GLOBAL_TOAST_MS : Z;
  bigToast : option (string * Text)
}.

(** [st.lastDataMs || null]. *)
Definition orNull (x : option Z) : option Z :=
  if truthy x then x else None.

Definition getGlobalDevicesPayload (pg : Page) : list Device :=
  List.map
    (fun dev =>
       let st := match GLOBAL_STATE pg !! id dev with
                 | Some st => st
                 | None => {| deviceId := id dev; deviceName := name dev;
                              rows := []; lastDataMs := None |}
                 end in
       {| deviceId := deviceId st; deviceName := deviceName st;
          rows := rows st; lastDataMs := orNull (lastDataMs st) |})
    DEVICES.

(** [eventKey || null] on a string. *)
Definition keyOrNull (k : string) : option string :=
  if String.eqb k "" then None else Some k.

Definition showGlobalModal (level : string) (text : Text) (eventKey : string)
    (lang : Lang) (pg : Page) : Page :=
  {| AI_EVENTS := AI_EVENTS pg; GLOBAL_STATE := GLOBAL_STATE pg;
     LANG_MODE := LANG_MODE pg;
     MODAL := Some {| viewLevel := level; viewText := text; viewLang := lang;
                      display := true |};
     MODAL_VISIBLE := true;
     MODAL_EVENT_KEY := keyOrNull eventKey;
     LAST_GLOBAL_TOAST_EVENT := LAST_GLOBAL_TOAST_EVENT pg;
     LAST_GLOBAL_TOAST_MS := LAST_GLOBAL_TOAST_MS pg;
     bigToast := bigToast pg |}.

(** [showBigToast]: the toast element shows [message] with class [level]
    (the timer that hides it again is not part of the state). *)
Definition showBigToast (level : string) (message : Text) (pg : Page) : Page :=
  {| AI_EVENTS := AI_EVENTS pg; GLOBAL_STATE := GLOBAL_STATE pg;
     LANG_MODE := LANG_MODE pg; MODAL := MODAL pg;
     MODAL_VISIBLE := MODAL_VISIBLE pg; MODAL_EVENT_KEY := MODAL_EVENT_KEY pg;
     LAST_GLOBAL_TOAST_EVENT := LAST_GLOBAL_TOAST_EVENT pg;
     LAST_GLOBAL_TOAST_MS := LAST_GLOBAL_TOAST_MS pg;
     bigToast := Some (level, message) |}.

Definition withEventStore (E : EventStore) (pg : Page) : Page :=
  {| AI_EVENTS := E; GLOBAL_STATE := GLOBAL_STATE pg;
     LANG_MODE := LANG_MODE pg; MODAL := MODAL pg;
     MODAL_VISIBLE := MODAL_VISIBLE pg; MODAL_EVENT_KEY := MODAL_EVENT_KEY pg;
     LAST_GLOBAL_TOAST_EVENT := LAST_GLOBAL_TOAST_EVENT pg;
     LAST_GLOBAL_TOAST_MS := LAST_GLOBAL_TOAST_MS pg;
     bigToast := bigToast pg |}.

Definition withToastMark (k : option string) (t : Z) (pg : Page) : Page :=
  {| AI_EVENTS := AI_EVENTS pg; GLOBAL_STATE := GLOBAL_STATE pg;
     LANG_MODE := LANG_MODE pg; MODAL := MODAL pg;
     MODAL_VISIBLE := MODAL_VISIBLE pg; MODAL_EVENT_KEY := MODAL_EVENT_KEY pg;
     LAST_GLOBAL_TOAST_EVENT := k;
     LAST_GLOBAL_TOAST_MS := t;
     bigToast := bigToast pg |}.

(** The argument [runGlobalAI] hands to [AI.evaluateGlobal]. *)
Definition globalInput (now : Z) (navLang : string) (ack : option string) (pg : Page)
  : Input :=
  {| devices := getGlobalDevicesPayload pg;
     nowMs := now;
     langMode := LANG_MODE pg;
     navigatorLanguage := navLang;
     warnMs := OFFLINE_WARN_MS;
     alertMs := OFFLINE_ALERT_MS;
     repeatWindowMs := 10 * 60 * 1000;
     persistWindowMs := 30 * 60 * 1000;
     modalSnoozeMs := 5 * 60 * 1000;
     ackEventKey := ack |}.

(** [runGlobalAI({ ackEventKey })]; [now] and [now2] are the two readings
    of [Date.now()], the second one taken in the toast branch. *)
Definition runGlobalAI (now now2 : Z) (navLang : string) (ackEventKey : option string)
    (pg : Page) : Page :=
  let '(res, E) := evaluateGlobal (globalInput now navLang ackEventKey pg) (AI_EVENTS pg) in
  let pg := withEventStore E pg in
  match modal res with
  | Some m =>
      if negb (MODAL_VISIBLE pg) then
        showGlobalModal (Notification.level m) (Notification.text m)
          (Notification.eventKey m) (lang res) pg
      else if String.eqb (Notification.level m) "critical"
              && negb (bool_decide (Some (Notification.eventKey m) = MODAL_EVENT_KEY pg))
      then showGlobalModal (Notification.level m) (Notification.text m)
             (Notification.eventKey m) (lang res) pg
      else pg
  | None =>
      match toast res with
      | Some t =>
          if negb (MODAL_VISIBLE pg) then
            let eventKey := keyOrNull (Notification.eventKey t) in
            let minGap := 6000 in
            if match eventKey with
               | Some _ =>
                   bool_decide (LAST_GLOBAL_TOAST_EVENT pg = eventKey)
                   && (now2 - LAST_GLOBAL_TOAST_MS pg <? minGap)
               | None => false
               end
            then pg
            else showBigToast (Notification.level t) (Notification.text t)
                   (withToastMark eventKey now2 pg)
          else pg
      | None => pg
      end
  end.

(** [hideGlobalModal(ack)]. *)
Definition hideGlobalModal (ack : bool) (now now2 : Z) (navLang : string) (pg : Page)
  : Page :=
  match MODAL pg with
  | None => pg
  | Some view =>
      let pg :=
        {| AI_EVENTS := AI_EVENTS pg; GLOBAL_STATE := GLOBAL_STATE pg;
           LANG_MODE := LANG_MODE pg;
           MODAL := Some {| viewLevel := viewLevel view; viewText := viewText view;
                            viewLang := viewLang view; display := false |};
           MODAL_VISIBLE := false;
           MODAL_EVENT_KEY := MODAL_EVENT_KEY pg;
           LAST_GLOBAL_TOAST_EVENT := LAST_GLOBAL_TOAST_EVENT pg;
           LAST_GLOBAL_TOAST_MS := LAST_GLOBAL_TOAST_MS pg;
           bigToast := bigToast pg |} in
      let pg :=
        match MODAL_EVENT_KEY pg with
        | Some k =>
            if ack && negb (String.eqb k "")
            then runGlobalAI now now2 navLang (Some k) pg
            else pg
        | None => pg
        end in
      {| AI_EVENTS := AI_EVENTS pg; GLOBAL_STATE := GLOBAL_STATE pg;
         LANG_MODE := LANG_MODE pg; MODAL := MODAL pg;
         MODAL_VISIBLE := MODAL_VISIBLE pg;
         MODAL_EVENT_KEY := None;
         LAST_GLOBAL_TOAST_EVENT := LAST_GLOBAL_TOAST_EVENT pg;
         LAST_GLOBAL_TOAST_MS := LAST_GLOBAL_TOAST_MS pg;
         bigToast := bigToast pg |}
  end.

(** [setLangMode(v)]: [LANG_MODE = v || "auto"]. *)
Definition setLangMode (v : string) (pg : Page) : Page :=
  {| AI_EVENTS := AI_EVENTS pg; GLOBAL_STATE := GLOBAL_STATE pg;
     LANG_MODE := if String.eqb v "" then "auto" else v;
     MODAL := MODAL pg;
     MODAL_VISIBLE := MODAL_VISIBLE pg; MODAL_EVENT_KEY := MODAL_EVENT_KEY pg;
     LAST_GLOBAL_TOAST_EVENT := LAST_GLOBAL_TOAST_EVENT pg;
     LAST_GLOBAL_TOAST_MS := LAST_GLOBAL_TOAST_MS pg;
     bigToast := bigToast pg |}.

(** What one turn of the loop of [pollGlobalOnce] stores for [dev].
    [snap] is the outcome of the query: [None] when it threw, otherwise the
    documents, newest first ([tsToMs] of dashboard.js is the function of
    the same name of ai.js).  An empty or failed query stores no rows and
    a null last-data time; otherwise the rows are stored oldest first and
    the last-data time is that of the newest row. *)
Definition storePoll (dev : DeviceEntry) (snap : option (list Row)) (pg : Page) : Page :=
  let st :=
    match snap with
    | Some (newest :: older) =>
        {| deviceId := id dev; deviceName := name dev;
           rows := List.rev (newest :: older);
           lastDataMs := tsToMs (timestamp newest) |}
    | _ =>
        {| deviceId := id dev; deviceName := name dev; rows := []; lastDataMs := None |}
    end in
  {| AI_EVENTS := AI_EVENTS pg; GLOBAL_STATE := <[id dev := st]> (GLOBAL_STATE pg);
     LANG_MODE := LANG_MODE pg; MODAL := MODAL pg;
     MODAL_VISIBLE := MODAL_VISIBLE pg; MODAL_EVENT_KEY := MODAL_EVENT_KEY pg;
     LAST_GLOBAL_TOAST_EVENT := LAST_GLOBAL_TOAST_EVENT pg;
     LAST_GLOBAL_TOAST_MS := LAST_GLOBAL_TOAST_MS pg;
     bigToast := bigToast pg |}.

(** The page as the script leaves it before the first poll. *)
Definition initialPage : Page :=
  {| AI_EVENTS := ∅; GLOBAL_STATE := ∅; LANG_MODE := "auto";
     MODAL := None; MODAL_VISIBLE := false; MODAL_EVENT_KEY := None;
     LAST_GLOBAL_TOAST_EVENT := None; LAST_GLOBAL_TOAST_MS := 0;
     bigToast := None |}.

(** The view [showGlobalModal] sets up for a notification, and a view
    after its overlay was hidden. *)
Definition viewOf (m : Notification.t) (L : Lang) : ModalView :=
  {| viewLevel := Notification.level m; viewText := Notification.text m;
     viewLang := L; display := true |}.

Definition hidden (view : ModalView) : ModalView :=
  {| viewLevel := viewLevel view; viewText := viewText view;
     viewLang := viewLang view; display := false |}.

(** [st] is what a poll stores for the device with identifier [k]: it
    carries [k] and the configured name, and its last-data time is null
    without rows and the time of the last row otherwise. *)
Definition storedFor (k : string) (st : Device) : Prop :=
  deviceId st = k
  /\ (forall dev, dev ∈ DEVICES -> id dev = k -> deviceName st = name dev)
  /\ ((rows st = [] /\ lastDataMs st = None)
      \/ exists init r, rows st = init ++ [r]
                        /\ lastDataMs st = tsToMs (timestamp r)).

(** [d] is the snapshot of the configured device [dev] as the engine
    receives it. *)
Definition snapshotOf (dev : DeviceEntry) (d : Device) : Prop :=
  deviceId d = id dev
  /\ deviceName d = name dev
  /\ lastDataMs d <> Some 0
  /\ ((rows d = [] /\ lastDataMs d = None)
      \/ exists init r, rows d = init ++ [r]
                        /\ lastDataMs d = orNull (tsToMs (timestamp r))).

(** The modal variables agree with each other: the flag says whether the
    overlay is displayed, a view is a notice or a critical alert, and a
    remembered key belongs to a displayed modal and to a configured
    device. *)
Definition modalSane (pg : Page) : Prop :=
  (MODAL_VISIBLE pg = true <-> exists v, MODAL pg = Some v /\ display v = true)
  /\ (forall v, MODAL pg = Some v ->
        viewLevel v = "modal"%string \/ viewLevel v = "critical"%string)
  /\ (forall k, MODAL_EVENT_KEY pg = Some k ->
        MODAL_VISIBLE pg = true
        /\ exists dev, dev ∈ DEVICES /\ ownedBy (id dev) k).

(** The pages the script can be in: it starts from [initialPage], and the
    pieces that run without interruption are a store of one poll result,
    a run of the global engine (timer, end of a poll, boot, language
    change), a click on OK, and a change of language. *)
Inductive reachablePage : Page -> Prop :=
| page_initial : reachablePage initialPage
| page_poll dev snap pg :
    reachablePage pg -> dev ∈ DEVICES -> reachablePage (storePoll dev snap pg)
| page_run now now2 navLang pg :
    reachablePage pg -> reachablePage (runGlobalAI now now2 navLang None pg)
| page_ok now now2 navLang pg :
    reachablePage pg -> reachablePage (hideGlobalModal true now now2 navLang pg)
| page_lang v pg :
    reachablePage pg -> reachablePage (setLangMode v pg).

(** Two pages: the first device has delivered one row; and the engine
    has run once before any poll came back. *)
Definition polledPage : Page :=
  storePoll {| id := "atom_s3_lite_01"; name := "Atom S3 Lite 01" |}
    (Some [tempRow T0 20]) initialPage.

Definition alarmPage : Page := runGlobalAI T0 T0 "" None initialPage.

End Dashboard.
(** * Properties *)

(** ** The loops are the sequence of their single-key steps *)

Lemma loop_eq (lp : Loop) (E : EventStore) (cs : list Candidate.t) :
  EVENTS lp = E -> candidates lp = cs -> lp = {| EVENTS := E; candidates := cs |}.
Proof. destruct lp; simpl; intros; subst; reflexivity. Qed.

Lemma offlineActive_applyAt input dev age stage level lp :
  offlineActive input dev age stage level lp
  = applyAt (offlineKey (deviceId dev)) (offlineActiveAct input dev age stage level) lp.
Proof.
  unfold offlineActive, applyAt, offlineActiveAct, getOrInitEvent.
  destruct (EVENTS lp !! offlineKey (deviceId dev)) as [st|] eqn:Hk; simpl;
    try (match goal with |- context [isSnoozed ?a ?b ?c] =>
           destruct (isSnoozed a b c) end);
    simpl; unfold push, withEvents; simpl;
    rewrite ?insert_insert_eq, ?app_nil_r; reflexivity.
Qed.

Lemma offlineDetection_applyAt input dev lp :
  offlineDetection input dev lp
  = applyAt (offlineKey (deviceId dev)) (offlineAct input dev) lp.
Proof.
  unfold offlineDetection, offlineAct.
  destruct (negb (truthy (lastDataMs dev))).
  { apply offlineActive_applyAt. }
  destruct (warnMs input <=? _).
  { destruct (alertMs input <=? _); apply offlineActive_applyAt. }
  unfold applyAt.
  destruct (EVENTS lp !! offlineKey (deviceId dev)) as [st|]; simpl;
    unfold withEvents; rewrite app_nil_r; [reflexivity|].
  destruct lp; reflexivity.
Qed.

Lemma anomalyDetection_applyAt input dev lp m :
  anomalyDetection input dev lp m
  = applyAt (anomalyKey (deviceId dev) m) (anomalyAct input dev m) lp.
Proof.
  assert (Hid : forall k (o : option EventState),
             EVENTS lp !! k = o ->
             lp = {| EVENTS := match o with
                               | Some st => <[k := st]> (EVENTS lp)
                               | None => EVENTS lp
                               end;
                     candidates := candidates lp ++ [] |}).
  { intros k o Hk. apply loop_eq; [|symmetry; apply app_nil_r].
    destruct o; [symmetry; apply insert_id; exact Hk | reflexivity]. }
  unfold anomalyDetection, anomalyAct, applyAt.
  destruct (length (series (rows dev) m) <? 3)%nat.
  { destruct (EVENTS lp !! _) eqn:Hk; apply (Hid _ _ Hk). }
  destruct (negb (active m (series (rows dev) m))).
  { destruct (EVENTS lp !! _) as [st|] eqn:Hk; [|apply (Hid _ _ Hk)].
    destruct (repeatWindowMs input <? quietFor input st); [|apply (Hid _ _ Hk)].
    unfold withEvents; simpl; rewrite app_nil_r; reflexivity. }
  unfold getOrInitEvent.
  destruct (EVENTS lp !! _) as [st|] eqn:Hk; simpl;
    try (match goal with |- context [isSnoozed ?a ?b ?c] =>
           destruct (isSnoozed a b c) end);
    simpl; unfold push, withEvents; simpl;
    rewrite ?insert_insert_eq, ?app_nil_r; reflexivity.
Qed.

Lemma runSteps_app l1 l2 lp :
  runSteps (l1 ++ l2) lp = runSteps l2 (runSteps l1 lp).
Proof. unfold runSteps. apply fold_left_app. Qed.

Lemma evaluateDevice_runSteps input lp dev :
  evaluateDevice input lp dev = runSteps (stepsOfDevice input dev) lp.
Proof.
  unfold evaluateDevice, stepsOfDevice, runSteps.
  destruct (reachesAnomaly dev); simpl;
    rewrite ?offlineDetection_applyAt, ?anomalyDetection_applyAt;
    rewrite <- ?offlineDetection_applyAt; rewrite ?anomalyDetection_applyAt;
    reflexivity.
Qed.

Lemma devices_runSteps input devs lp :
  fold_left (evaluateDevice input) devs lp = runSteps (stepsOf input devs) lp.
Proof.
  revert lp; induction devs as [|dev devs IH]; intros lp; [reflexivity|].
  change (stepsOf input (dev :: devs))
    with (stepsOfDevice input dev ++ stepsOf input devs).
  rewrite runSteps_app, <- evaluateDevice_runSteps. apply IH.
Qed.

Lemma collect_runSteps input E :
  collect input E
  = runSteps (stepsOf input (devices input))
      {| EVENTS := applyAck input E; candidates := [] |}.
Proof. apply devices_runSteps. Qed.

(** ** Single-key steps: frame and accumulation *)

Lemma candidates_applyAt k f lp :
  candidates (applyAt k f lp) = candidates lp ++ snd (f (EVENTS lp !! k)).
Proof. unfold applyAt. destruct (f _); reflexivity. Qed.

Lemma lookup_applyAt_ne k k' f lp :
  k <> k' -> EVENTS (applyAt k f lp) !! k' = EVENTS lp !! k'.
Proof.
  intros Hne. unfold applyAt. destruct (f _) as [[st|] cs]; simpl;
    [apply lookup_insert_ne; exact Hne | reflexivity].
Qed.

Lemma lookup_applyAt_eq k f lp :
  (forall st, exists st', fst (f (Some st)) = Some st') ->
  EVENTS (applyAt k f lp) !! k = fst (f (EVENTS lp !! k)).
Proof.
  intros Hk. unfold applyAt.
  destruct (f (EVENTS lp !! k)) as [[st|] cs] eqn:Hf; simpl.
  - apply lookup_insert_eq.
  - destruct (EVENTS lp !! k) as [st|] eqn:Hl; [|reflexivity].
    destruct (Hk st) as [st' Hst']. rewrite Hf in Hst'. discriminate.
Qed.

Lemma runSteps_cons k f l lp :
  runSteps ((k, f) :: l) lp = runSteps l (applyAt k f lp).
Proof. reflexivity. Qed.

Lemma runSteps_lookup_other l lp k :
  k ∉ keysOf l -> EVENTS (runSteps l lp) !! k = EVENTS lp !! k.
Proof.
  revert lp; induction l as [|[k0 f] l IH]; intros lp Hk; [reflexivity|].
  change (k ∉ k0 :: keysOf l) in Hk. rewrite not_elem_of_cons in Hk.
  destruct Hk as [Hne Hk]. rewrite runSteps_cons, IH by exact Hk.
  apply lookup_applyAt_ne. congruence.
Qed.

Lemma NoDup_keysOf_cons k (f : Action) l :
  NoDup (keysOf ((k, f) :: l)) -> (k ∉ keysOf l) /\ NoDup (keysOf l).
Proof. intros H. change (NoDup (k :: keysOf l)) in H. apply NoDup_cons in H. exact H. Qed.

Lemma emitted_ext l (E E' : EventStore) :
  (forall k, k ∈ keysOf l -> E !! k = E' !! k) -> emitted l E = emitted l E'.
Proof.
  induction l as [|[k f] l IH]; intros HE; [reflexivity|].
  change (emitted ((k, f) :: l) E) with (snd (f (E !! k)) ++ emitted l E).
  change (emitted ((k, f) :: l) E') with (snd (f (E' !! k)) ++ emitted l E').
  rewrite (HE k) by (change (k ∈ k :: keysOf l); left).
  f_equal. apply IH. intros k' Hk'. apply HE. change (k' ∈ k :: keysOf l). right; exact Hk'.
Qed.

(** With pairwise distinct keys every step meets the entry of its key
    untouched, so the candidates are those of [emitted] on the store the
    steps started from. *)
Lemma runSteps_candidates l lp :
  NoDup (keysOf l) ->
  candidates (runSteps l lp) = candidates lp ++ emitted l (EVENTS lp).
Proof.
  revert lp; induction l as [|[k f] l IH]; intros lp Hnd.
  - simpl. symmetry; apply app_nil_r.
  - apply NoDup_keysOf_cons in Hnd as [Hk Hnd].
    rewrite runSteps_cons, IH by exact Hnd.
    rewrite candidates_applyAt, <- app_assoc. f_equal.
    change (emitted ((k, f) :: l) (EVENTS lp))
      with (snd (f (EVENTS lp !! k)) ++ emitted l (EVENTS lp)).
    f_equal. apply emitted_ext. intros k' Hk'.
    apply lookup_applyAt_ne. intros ->. exact (Hk Hk').
Qed.

Lemma runSteps_lookup_in l lp k f :
  NoDup (keysOf l) ->
  (forall k' f', (k', f') ∈ l -> forall st, exists st', fst (f' (Some st)) = Some st') ->
  (k, f) ∈ l ->
  EVENTS (runSteps l lp) !! k = fst (f (EVENTS lp !! k)).
Proof.
  revert lp; induction l as [|[k0 f0] l IH]; intros lp Hnd Hkeep Hin;
    [apply elem_of_nil in Hin; destruct Hin|].
  apply NoDup_keysOf_cons in Hnd as [Hk Hnd]. rewrite runSteps_cons.
  apply elem_of_cons in Hin as [Heq|Hin].
  - inversion Heq; subst k0 f0.
    rewrite runSteps_lookup_other by exact Hk.
    apply lookup_applyAt_eq. apply (Hkeep k f). left.
  - rewrite (IH _ Hnd) by (try exact Hin; intros k' f' H'; apply (Hkeep k' f'); right; exact H').
    f_equal. f_equal. apply lookup_applyAt_ne. intros ->.
    apply Hk. apply (list_elem_of_fmap_2 fst) in Hin. exact Hin.
Qed.

(** ** Entries: what the assignments preserve *)

Lemma isSnoozed_ack st now snoozeMs :
  isSnoozed st now snoozeMs = snoozedAck (lastAckMs st) now snoozeMs.
Proof. reflexivity. Qed.

Lemma ackOf_entryOf o : lastAckMs (entryOf o) = ackOf o.
Proof. destruct o; reflexivity. Qed.

Lemma markSeen_ack t st : lastAckMs (markSeen t st) = lastAckMs st.
Proof. unfold markSeen. destruct (negb _); reflexivity. Qed.

Lemma markSeen_stage t st : lastFiredStage (markSeen t st) = lastFiredStage st.
Proof. unfold markSeen. destruct (negb _); reflexivity. Qed.

Lemma markSeen_lastSeen t st : lastSeenMs (markSeen t st) = Some t.
Proof. unfold markSeen. destruct (negb _); reflexivity. Qed.

Lemma markSeen_firstSeen t st :
  firstSeenMs (markSeen t st)
  = if truthy (firstSeenMs st) then firstSeenMs st else Some t.
Proof. unfold markSeen. simpl. destruct (truthy (firstSeenMs st)); reflexivity. Qed.

Lemma markSeen_idem t st : markSeen t (markSeen t st) = markSeen t st.
Proof.
  destruct st as [f l s a b c k]. unfold markSeen; simpl.
  destruct (truthy f) eqn:Hf; simpl; rewrite ?Hf; simpl; [reflexivity|].
  destruct (t =? 0); reflexivity.
Qed.

Lemma recordStage_ack s st : lastAckMs (recordStage s st) = lastAckMs st.
Proof. unfold recordStage. destruct (_ <? _); reflexivity. Qed.

Lemma recordStage_firstSeen s st : firstSeenMs (recordStage s st) = firstSeenMs st.
Proof. unfold recordStage. destruct (_ <? _); reflexivity. Qed.

Lemma recordStage_lastSeen s st : lastSeenMs (recordStage s st) = lastSeenMs st.
Proof. unfold recordStage. destruct (_ <? _); reflexivity. Qed.

Lemma recordStage_stage s st :
  lastFiredStage (recordStage s st) = Z.max s (lastFiredStage st).
Proof. unfold recordStage. destruct (Z.ltb_spec (lastFiredStage st) s); simpl; lia. Qed.

Lemma recordStage_idem s st : recordStage s (recordStage s st) = recordStage s st.
Proof.
  unfold recordStage at 1. rewrite recordStage_stage.
  destruct (Z.ltb_spec (Z.max s (lastFiredStage st)) s); [lia | reflexivity].
Qed.

Lemma markSeen_recordStage t s st :
  markSeen t (recordStage s st) = recordStage s (markSeen t st).
Proof.
  destruct st as [f l x a b c k]. unfold markSeen, recordStage; simpl.
  destruct (truthy f) eqn:Hf; destruct (x <? s) eqn:Hx; simpl;
    rewrite ?Hf, ?Hx; simpl; rewrite ?Hf, ?Hx; reflexivity.
Qed.

Lemma stageOf_recordStage input s st :
  stageOf input (recordStage s st) = stageOf input st.
Proof. unfold stageOf, seenFor. rewrite recordStage_firstSeen. reflexivity. Qed.

Lemma stageOf_range input st : stageOf input st = 2 \/ stageOf input st = 3.
Proof. unfold stageOf. destruct (_ <=? _); auto. Qed.

Lemma clearEvent_idem st : clearEvent (clearEvent st) = clearEvent st.
Proof. reflexivity. Qed.

Lemma clearEvent_cleared st : cleared (clearEvent st).
Proof. repeat split. Qed.

Lemma clearEvent_ack st : lastAckMs (clearEvent st) = lastAckMs st.
Proof. reflexivity. Qed.

(** ** Every step of the engine is well behaved *)

Lemma offlineActiveAct_wellBehaved input dev age stage level :
  wellBehaved (nowMs input) (modalSnoozeMs input) (offlineKey (deviceId dev))
    (offlineActiveAct input dev age stage level).
Proof.
  unfold offlineActiveAct. split; simpl.
  - intros st; eauto.
  - intros o. rewrite markSeen_ack. apply ackOf_entryOf.
  - intros o c Hc. destruct (negb _); [|apply elem_of_nil in Hc; destruct Hc].
    apply list_elem_of_singleton in Hc. subst c. reflexivity.
  - intros o Hs. rewrite isSnoozed_ack, markSeen_ack, ackOf_entryOf, Hs. reflexivity.
  - intros st st' [= <-]. left. rewrite markSeen_stage. simpl. lia.
  - intros o. rewrite markSeen_idem. reflexivity.
Qed.

Lemma offlineAct_wellBehaved input dev :
  wellBehaved (nowMs input) (modalSnoozeMs input) (offlineKey (deviceId dev))
    (offlineAct input dev).
Proof.
  unfold offlineAct. destruct (negb (truthy (lastDataMs dev)));
    [apply offlineActiveAct_wellBehaved|].
  destruct (warnMs input <=? _);
    [destruct (alertMs input <=? _); apply offlineActiveAct_wellBehaved|].
  split; simpl.
  - intros st; eauto.
  - intros [st|]; reflexivity.
  - intros o c Hc. apply elem_of_nil in Hc; destruct Hc.
  - reflexivity.
  - intros st st' [= <-]. right. apply clearEvent_cleared.
  - intros [st|]; reflexivity.
Qed.

Lemma anomalyAct_wellBehaved input dev m :
  wellBehaved (nowMs input) (modalSnoozeMs input) (anomalyKey (deviceId dev) m)
    (anomalyAct input dev m).
Proof.
  unfold anomalyAct. destruct (length _ <? 3)%nat.
  { split; simpl; eauto.
    - intros o c Hc. apply elem_of_nil in Hc; destruct Hc.
    - intros st st' [= <-]. left; lia. }
  destruct (negb (active m _)).
  { split; simpl.
    - intros st; eauto.
    - intros [st|]; simpl; [|reflexivity]. destruct (_ <? _); reflexivity.
    - intros [st|] c Hc; apply elem_of_nil in Hc; destruct Hc.
    - intros [st|]; reflexivity.
    - intros st st' [= <-]. destruct (_ <? _);
        [right; apply clearEvent_cleared | left; lia].
    - intros [st|]; simpl; [|reflexivity].
      destruct (repeatWindowMs input <? quietFor input st) eqn:Hq; simpl.
      + unfold quietFor at 1. simpl.
        destruct (repeatWindowMs input <? 0); reflexivity.
      + rewrite Hq. reflexivity. }
  split; simpl.
  - intros st. destruct (isSnoozed _ _ _); simpl; eauto.
  - intros o. destruct (isSnoozed _ _ _); simpl;
      rewrite ?recordStage_ack, markSeen_ack; apply ackOf_entryOf.
  - intros o c Hc. destruct (isSnoozed _ _ _); simpl in Hc;
      [apply elem_of_nil in Hc; destruct Hc|].
    apply list_elem_of_singleton in Hc. subst c. reflexivity.
  - intros o Hs. rewrite isSnoozed_ack, markSeen_ack, ackOf_entryOf, Hs. reflexivity.
  - intros st st'. destruct (isSnoozed _ _ _); simpl; intros [= <-]; left.
    + rewrite markSeen_stage. lia.
    + rewrite recordStage_stage, markSeen_stage. lia.
  - intros o. destruct (isSnoozed (markSeen _ (entryOf o)) _ _) eqn:Hs; simpl.
    + rewrite markSeen_idem, Hs. reflexivity.
    + rewrite markSeen_recordStage, markSeen_idem.
      rewrite (isSnoozed_ack (recordStage _ _)), recordStage_ack,
        <- isSnoozed_ack, Hs.
      rewrite stageOf_recordStage, recordStage_idem. reflexivity.
Qed.

(** ** Event keys

    A key determines its device and its condition: ["...:offline"] and
    ["...:<metric>:anomaly"] end differently, and no metric name contains
    the other as a suffix. *)

Lemma list_ascii_of_string_app a b :
  list_ascii_of_string (a +:+ b) = list_ascii_of_string a ++ list_ascii_of_string b.
Proof. induction a as [|c a IH]; simpl; [reflexivity | rewrite IH; reflexivity]. Qed.

Lemma revChars_app a b : revChars (a +:+ b) = revChars b ++ revChars a.
Proof. unfold revChars. rewrite list_ascii_of_string_app. apply rev_app_distr. Qed.

Lemma revChars_inj a b : revChars a = revChars b -> a = b.
Proof.
  unfold revChars. intros H. apply (f_equal (@List.rev ascii)) in H.
  rewrite !rev_involutive in H.
  rewrite <- (string_of_list_ascii_of_string a), <- (string_of_list_ascii_of_string b).
  rewrite H. reflexivity.
Qed.

Ltac key_chars H :=
  apply (f_equal revChars) in H;
  unfold offlineKey, anomalyKey in H;
  rewrite !revChars_app in H; simpl in H.

Lemma offlineKey_inj id id' : offlineKey id = offlineKey id' -> id = id'.
Proof. intros H. key_chars H. apply revChars_inj. congruence. Qed.

Lemma anomalyKey_inj id id' m m' :
  anomalyKey id m = anomalyKey id' m' -> id = id' /\ m = m'.
Proof.
  intros H. destruct m, m'; key_chars H; try discriminate H;
    (split; [apply revChars_inj; congruence | reflexivity]).
Qed.

Lemma offlineKey_anomalyKey id id' m : offlineKey id <> anomalyKey id' m.
Proof. intros H. destruct m; key_chars H; discriminate H. Qed.

Lemma ownedBy_unique id id' k : ownedBy id k -> ownedBy id' k -> id = id'.
Proof.
  intros [->|[m ->]] [H|[m' H]].
  - apply offlineKey_inj; exact H.
  - destruct (offlineKey_anomalyKey _ _ _ H).
  - symmetry in H. destruct (offlineKey_anomalyKey _ _ _ H).
  - apply anomalyKey_inj in H. tauto.
Qed.

Lemma keysOf_app l1 l2 : keysOf (l1 ++ l2) = keysOf l1 ++ keysOf l2.
Proof. apply fmap_app. Qed.

Lemma stepsOf_cons input dev devs :
  stepsOf input (dev :: devs) = stepsOfDevice input dev ++ stepsOf input devs.
Proof. reflexivity. Qed.

Lemma stepsOfDevice_owned input dev k :
  k ∈ keysOf (stepsOfDevice input dev) -> ownedBy (deviceId dev) k.
Proof.
  unfold stepsOfDevice, keysOf, metrics. destruct (reachesAnomaly dev); simpl;
    rewrite ?elem_of_cons, ?elem_of_nil; unfold ownedBy; intros H;
    repeat destruct H as [H|H]; subst; eauto; destruct H.
Qed.

Lemma stepsOf_owned input devs k :
  k ∈ keysOf (stepsOf input devs) ->
  exists dev, dev ∈ devs /\ ownedBy (deviceId dev) k.
Proof.
  induction devs as [|dev devs IH]; intros Hk.
  - apply elem_of_nil in Hk; destruct Hk.
  - rewrite stepsOf_cons, keysOf_app in Hk. apply elem_of_app in Hk as [Hk|Hk].
    + exists dev. split; [left | apply (stepsOfDevice_owned input); exact Hk].
    + destruct (IH Hk) as (dev' & Hin & Hown). exists dev'. split; [right|]; assumption.
Qed.

Lemma stepsOfDevice_NoDup input dev : NoDup (keysOf (stepsOfDevice input dev)).
Proof.
  unfold stepsOfDevice, keysOf, metrics. destruct (reachesAnomaly dev); simpl.
  2:{ apply NoDup_singleton. }
  repeat (apply NoDup_cons; split); try apply NoDup_nil_2;
    rewrite ?not_elem_of_cons; repeat split; try apply not_elem_of_nil;
    try apply offlineKey_anomalyKey;
    intros H; apply anomalyKey_inj in H; destruct H; discriminate.
Qed.

(** Distinct device identifiers give distinct keys: every entry of the
    store is visited by at most one step of an evaluation. *)
Lemma stepsOf_NoDup input devs :
  NoDup (deviceId <$> devs) -> NoDup (keysOf (stepsOf input devs)).
Proof.
  induction devs as [|dev devs IH]; intros Hnd; [apply NoDup_nil_2|].
  rewrite fmap_cons in Hnd. apply NoDup_cons in Hnd as [Hdev Hnd].
  rewrite stepsOf_cons, keysOf_app. apply NoDup_app. split; [|split].
  - apply stepsOfDevice_NoDup.
  - intros k Hk Hk'. apply stepsOfDevice_owned in Hk.
    apply stepsOf_owned in Hk' as (dev' & Hin & Hown).
    apply Hdev. rewrite (ownedBy_unique _ _ _ Hk Hown).
    apply list_elem_of_fmap_2. exact Hin.
  - apply IH; exact Hnd.
Qed.

Lemma stepsOf_wellBehaved input devs k f :
  (k, f) ∈ stepsOf input devs ->
  wellBehaved (nowMs input) (modalSnoozeMs input) k f.
Proof.
  induction devs as [|dev devs IH]; intros Hin.
  - apply elem_of_nil in Hin; destruct Hin.
  - rewrite stepsOf_cons in Hin. apply elem_of_app in Hin as [Hin|Hin]; [|auto].
    unfold stepsOfDevice in Hin. apply elem_of_cons in Hin as [[= -> ->]|Hin].
    + apply offlineAct_wellBehaved.
    + destruct (reachesAnomaly dev); [|apply elem_of_nil in Hin; destruct Hin].
      apply list_elem_of_fmap in Hin as (m & [= -> ->] & _).
      apply anomalyAct_wellBehaved.
Qed.

(** ** Arbitration *)

Lemma compareCandidates_le a b :
  compareCandidates a b <= 0 <-> notAbove b a.
Proof.
  unfold compareCandidates, notAbove.
  destruct (Z.eqb_spec (Candidate.stage b) (Candidate.stage a)); simpl; lia.
Qed.

Lemma notAbove_refl a : notAbove a a.
Proof. right; split; lia. Qed.

Lemma notAbove_trans a b c : notAbove a b -> notAbove b c -> notAbove a c.
Proof. unfold notAbove. lia. Qed.

Lemma notAbove_total a b : notAbove a b \/ notAbove b a.
Proof. unfold notAbove. lia. Qed.

Lemma elem_of_insertSorted {A} (cmp : A -> A -> Z) a l x :
  x ∈ insertSorted cmp a l <-> x = a \/ x ∈ l.
Proof.
  induction l as [|b l IH]; simpl.
  - rewrite list_elem_of_singleton, elem_of_nil. tauto.
  - destruct (cmp a b <=? 0); rewrite !elem_of_cons; [tauto|].
    rewrite IH. tauto.
Qed.

Lemma elem_of_sort {A} (cmp : A -> A -> Z) l x : x ∈ sort cmp l <-> x ∈ l.
Proof.
  induction l as [|a l IH]; simpl; [tauto|].
  rewrite elem_of_insertSorted, elem_of_cons, IH. tauto.
Qed.

Lemma head_insertSorted a l top :
  head (insertSorted compareCandidates a l) = Some top ->
  (forall t, head l = Some t -> forall c, c ∈ l -> notAbove c t) ->
  forall c, c ∈ a :: l -> notAbove c top.
Proof.
  destruct l as [|b l]; simpl.
  - intros [= <-] _ c Hc. apply list_elem_of_singleton in Hc. subst c.
    apply notAbove_refl.
  - intros Htop Hl c Hc. specialize (Hl b eq_refl).
    destruct (Z.leb_spec (compareCandidates a b) 0) as [Hab|Hab];
      simpl in Htop; injection Htop as <-.
    + apply compareCandidates_le in Hab.
      apply elem_of_cons in Hc as [->|Hc]; [apply notAbove_refl|].
      apply (notAbove_trans _ b); [apply Hl; exact Hc | exact Hab].
    + apply elem_of_cons in Hc as [->|Hc]; [|apply Hl; exact Hc].
      destruct (notAbove_total a b) as [H|H]; [exact H|].
      apply compareCandidates_le in H. lia.
Qed.

Lemma head_sort_max l top :
  head (sort compareCandidates l) = Some top ->
  forall c, c ∈ l -> notAbove c top.
Proof.
  revert top; induction l as [|a l IH]; intros top Htop c Hc.
  - apply elem_of_nil in Hc; destruct Hc.
  - simpl in Htop. eapply head_insertSorted in Htop; [exact Htop| |].
    + intros t Ht c' Hc'. apply (IH t Ht). apply elem_of_sort in Hc'. exact Hc'.
    + apply elem_of_cons in Hc as [->|Hc]; [left|right].
      apply elem_of_sort; exact Hc.
Qed.

Lemma topCandidate_elem l top : topCandidate l = Some top -> top ∈ l.
Proof.
  unfold topCandidate. intros H. apply (elem_of_sort compareCandidates).
  destruct (sort compareCandidates l); [discriminate|].
  injection H as ->. left.
Qed.

Lemma topCandidate_max l top :
  topCandidate l = Some top -> forall c, c ∈ l -> notAbove c top.
Proof. apply head_sort_max. Qed.

Lemma topCandidate_nonempty l : l <> [] -> exists top, topCandidate l = Some top.
Proof.
  unfold topCandidate. intros Hl.
  destruct (sort compareCandidates l) as [|t s] eqn:Hs; [|eauto].
  destruct l as [|a l]; [congruence|].
  assert (Ha : a ∈ sort compareCandidates (a :: l)) by (apply elem_of_sort; left).
  rewrite Hs in Ha. apply elem_of_nil in Ha. destruct Ha.
Qed.

Lemma arbitrate_shown L l top :
  topCandidate l = Some top ->
  exists level, shown (arbitrate L l) = Some (notify level top).
Proof.
  intros Htop. unfold arbitrate. rewrite Htop.
  destruct (Candidate.stage top =? 3); simpl; eauto.
Qed.

Lemma arbitrate_top L l top :
  topCandidate l = Some top ->
  toast (arbitrate L l) = None
  /\ exists n,
       modal (arbitrate L l) = Some n
       /\ Notification.text n = Candidate.text top
       /\ Notification.eventKey n = Candidate.eventKey top
       /\ Notification.level n
          = (if Candidate.stage top =? 3 then "critical"%string else "modal"%string).
Proof.
  intros Htop. unfold arbitrate. rewrite Htop.
  destruct (Candidate.stage top =? 3); simpl; (split; [reflexivity|]);
    eexists; (split; [reflexivity|]); repeat split.
Qed.

(** C1.  Whatever the input and the store, the result of [evaluateGlobal]
    never has both [toast] and [modal] set; with no candidate it has
    neither; and when there are candidates it has exactly one
    notification, whose text and event key are those of a candidate that
    no other candidate precedes in the descending (stage, seenSinceMs)
    order: it is the first element of the sorted array.  In this version
    of the engine the notification is always the modal, at level
    "critical" for a top candidate of stage 3 and "modal" otherwise. *)
Theorem evaluateGlobal_single_top (input : Input) (E : EventStore) :
  let res := fst (evaluateGlobal input E) in
  let cands := candidates (collect input E) in
  (toast res = None \/ modal res = None)
  /\ (cands = [] -> toast res = None /\ modal res = None)
  /\ (cands <> [] ->
      exists top n rest,
        sort compareCandidates cands = top :: rest
        /\ top ∈ cands
        /\ (forall c, c ∈ cands -> notAbove c top)
        /\ toast res = None
        /\ modal res = Some n
        /\ Notification.text n = Candidate.text top
        /\ Notification.eventKey n = Candidate.eventKey top
        /\ Notification.level n
           = (if Candidate.stage top =? 3 then "critical"%string else "modal"%string)).
Proof.
  intros res cands. subst res cands. unfold evaluateGlobal; simpl.
  split; [|split].
  - left. unfold arbitrate. destruct (topCandidate _) as [top|]; [|reflexivity].
    destruct (_ =? 3); reflexivity.
  - intros ->. split; reflexivity.
  - intros Hne. destruct (topCandidate_nonempty _ Hne) as [top Htop].
    destruct (arbitrate_top (resolvedLang input) _ _ Htop) as (Ht & n & Hm & Htxt & Hkey & Hlvl).
    assert (Hsort : exists rest,
               sort compareCandidates (candidates (collect input E)) = top :: rest).
    { unfold topCandidate in Htop.
      destruct (sort compareCandidates (candidates (collect input E))) as [|t rest];
        [discriminate|]. injection Htop as ->. eauto. }
    destruct Hsort as [rest Hsort].
    exists top, n, rest. split; [exact Hsort|]. split; [apply topCandidate_elem; exact Htop|].
    split; [apply topCandidate_max; exact Htop|]. repeat split; assumption.
Qed.

Lemma evaluateGlobal_single_top_witness :
  exists top n rest,
    sort compareCandidates (candidates (collect (cfg twoOffline T0 None) twoOfflineStore))
    = top :: rest
    /\ top ∈ candidates (collect (cfg twoOffline T0 None) twoOfflineStore)
    /\ (forall c, c ∈ candidates (collect (cfg twoOffline T0 None) twoOfflineStore) ->
        notAbove c top)
    /\ toast (fst (evaluateGlobal (cfg twoOffline T0 None) twoOfflineStore)) = None
    /\ modal (fst (evaluateGlobal (cfg twoOffline T0 None) twoOfflineStore)) = Some n
    /\ Notification.text n = Candidate.text top
    /\ Notification.eventKey n = Candidate.eventKey top
    /\ Notification.level n
       = (if Candidate.stage top =? 3 then "critical"%string else "modal"%string).
Proof.
  apply (evaluateGlobal_single_top (cfg twoOffline T0 None) twoOfflineStore).
  vm_compute. discriminate.
Defined.

(** The same evaluation, written out: B's offline alert is the modal. *)
Example scenario_two_offline :
  fst (evaluateGlobal (cfg twoOffline T0 None) twoOfflineStore)
  = {| toast := None;
       modal := Some {| Notification.level := "modal";
                        Notification.text := OFFLINE_ALERT en "B" 6 40;
                        Notification.eventKey := "B:offline" |};
       lang := en |}.
Proof. vm_compute. reflexivity. Qed.

(** C2, as stated, fails: with two offline events of equal stage in the
    store, A's first seen before B's, the top candidate is B's. *)
Lemma oldestFirst_counterexample :
  ~ oldestFirst (cfg twoOffline T0 None) twoOfflineStore.
Proof.
  intros H.
  destruct (topCandidate (candidates (collect (cfg twoOffline T0 None) twoOfflineStore)))
    as [top|] eqn:Htop; [|vm_compute in Htop; discriminate].
  destruct (head (candidates (collect (cfg twoOffline T0 None) twoOfflineStore)))
    as [c|] eqn:Hc; [|vm_compute in Hc; discriminate].
  assert (Hin : c ∈ candidates (collect (cfg twoOffline T0 None) twoOfflineStore)).
  { destruct (candidates _); [discriminate|]. injection Hc as ->. left. }
  specialize (H top c Htop Hin).
  vm_compute in Htop, Hc. injection Htop as <-. injection Hc as <-.
  vm_compute in H. apply H; reflexivity.
Qed.

(** C2, amended.  Among the candidates of the top candidate's stage the
    one emitted has the largest [seenSinceMs || 0]: the condition whose
    current occurrence began last. *)
Theorem newestFirst (input : Input) (E : EventStore) (top c : Candidate.t) :
  topCandidate (candidates (collect input E)) = Some top ->
  c ∈ candidates (collect input E) ->
  Candidate.stage c = Candidate.stage top ->
  orElse (Candidate.seenSinceMs c) 0 <= orElse (Candidate.seenSinceMs top) 0
  /\ exists level, shown (fst (evaluateGlobal input E)) = Some (notify level top).
Proof.
  intros Htop Hc Hstage. split.
  - destruct (topCandidate_max _ _ Htop c Hc) as [Hlt|[_ Hle]]; [lia | exact Hle].
  - apply arbitrate_shown. exact Htop.
Qed.

Lemma newestFirst_witness :
  exists top c,
    Candidate.eventKey top = "B:offline"%string
    /\ Candidate.eventKey c = "A:offline"%string
    /\ orElse (Candidate.seenSinceMs c) 0 <= orElse (Candidate.seenSinceMs top) 0
    /\ exists level,
        shown (fst (evaluateGlobal (cfg twoOffline T0 None) twoOfflineStore))
        = Some (notify level top).
Proof.
  destruct (topCandidate (candidates (collect (cfg twoOffline T0 None) twoOfflineStore)))
    as [top|] eqn:Htop; [|vm_compute in Htop; discriminate].
  destruct (head (candidates (collect (cfg twoOffline T0 None) twoOfflineStore)))
    as [c|] eqn:Hc; [|vm_compute in Hc; discriminate].
  assert (Hin : c ∈ candidates (collect (cfg twoOffline T0 None) twoOfflineStore)).
  { destruct (candidates _); [discriminate|]. injection Hc as ->. left. }
  exists top, c.
  assert (Hst : Candidate.stage c = Candidate.stage top).
  { vm_compute in Htop, Hc. injection Htop as <-. injection Hc as <-. reflexivity. }
  split; [|split].
  - vm_compute in Htop. injection Htop as <-. reflexivity.
  - vm_compute in Hc. injection Hc as <-. reflexivity.
  - exact (newestFirst (cfg twoOffline T0 None) twoOfflineStore top c Htop Hin Hst).
Defined.

(** C3 (code defect).  The presentation the code gives to the top
    candidate: stage 3 is a modal of level "critical" and stage 2 a modal
    of level "modal", as claimed; every other stage, stage 1 included, is
    also returned as a modal of level "modal" and never as a toast.  The
    earlier version of the same function returns the stage-1 candidate as
    a toast of level "warn" or "alert". *)
Theorem arbitrate_by_stage (input : Input) (E : EventStore) (top : Candidate.t) :
  topCandidate (candidates (collect input E)) = Some top ->
  let res := fst (evaluateGlobal input E) in
  toast res = None
  /\ (Candidate.stage top = 3 -> modal res = Some (notify "critical" top))
  /\ (Candidate.stage top = 2 -> modal res = Some (notify "modal" top))
  /\ (Candidate.stage top = 1 ->
      modal res = Some (notify "modal" top)
      /\ modal (Previous.arbitrate (resolvedLang input) (candidates (collect input E))) = None
      /\ exists level,
          (level = "warn"%string \/ level = "alert"%string)
          /\ toast (Previous.arbitrate (resolvedLang input) (candidates (collect input E)))
             = Some (notify level top)).
Proof.
  intros Htop res. subst res. unfold evaluateGlobal, arbitrate, Previous.arbitrate.
  simpl. rewrite Htop.
  split; [destruct (_ =? 3); reflexivity|].
  split; [intros ->; reflexivity|].
  split; [intros ->; reflexivity|].
  intros ->. simpl. split; [reflexivity|]. split; [reflexivity|].
  destruct (String.eqb (Candidate.level top) "alert"); eauto.
Qed.

Lemma arbitrate_by_stage_witness :
  exists top,
    topCandidate (candidates (collect (cfg lateDevice T0 None) ∅)) = Some top
    /\ Candidate.stage top = 1
    /\ toast (fst (evaluateGlobal (cfg lateDevice T0 None) ∅)) = None
    /\ modal (fst (evaluateGlobal (cfg lateDevice T0 None) ∅))
       = Some {| Notification.level := "modal";
                 Notification.text := OFFLINE_WARN en "W" 60;
                 Notification.eventKey := "W:offline" |}.
Proof.
  destruct (topCandidate (candidates (collect (cfg lateDevice T0 None) ∅)))
    as [top|] eqn:Htop; [|vm_compute in Htop; discriminate].
  exists top.
  destruct (arbitrate_by_stage (cfg lateDevice T0 None) ∅ top Htop)
    as (Htoast & _ & _ & H1).
  assert (Hst : Candidate.stage top = 1).
  { vm_compute in Htop. injection Htop as <-. reflexivity. }
  destruct (H1 Hst) as (Hmodal & _).
  split; [reflexivity|]. split; [exact Hst|]. split; [exact Htoast|].
  rewrite Hmodal. vm_compute in Htop. injection Htop as <-. reflexivity.
Defined.

(** ** What a run of steps does, without any assumption on the keys *)

Lemma candidates_runSteps_mono l lp c :
  c ∈ candidates lp -> c ∈ candidates (runSteps l lp).
Proof.
  revert lp; induction l as [|[k f] l IH]; intros lp Hc; [exact Hc|].
  rewrite runSteps_cons. apply IH. rewrite candidates_applyAt.
  apply elem_of_app; left; exact Hc.
Qed.

Section Run.

Variables now snoozeMs : Z.
Variable steps : list (string * Action).
Hypothesis Hwb : forall k f, (k, f) ∈ steps -> wellBehaved now snoozeMs k f.

(** No step touches an acknowledgement time. *)
Lemma runSteps_ack lp k :
  ackOf (EVENTS (runSteps steps lp) !! k) = ackOf (EVENTS lp !! k).
Proof using Hwb.
  revert lp Hwb; induction steps as [|[k0 f] l IH]; intros lp Hwb; [reflexivity|].
  rewrite runSteps_cons, IH by (intros k' f' H; apply Hwb; right; exact H).
  assert (Hf : wellBehaved now snoozeMs k0 f) by (apply Hwb; left).
  destruct (decide (k0 = k)) as [->|Hne].
  - rewrite lookup_applyAt_eq by apply (wb_keeps _ _ _ _ Hf). apply (wb_ack _ _ _ _ Hf).
  - rewrite lookup_applyAt_ne by exact Hne. reflexivity.
Qed.

(** Entries are never removed. *)
Lemma runSteps_keeps lp k :
  is_Some (EVENTS lp !! k) -> is_Some (EVENTS (runSteps steps lp) !! k).
Proof using Hwb.
  revert lp Hwb; induction steps as [|[k0 f] l IH]; intros lp Hwb Hk; [exact Hk|].
  rewrite runSteps_cons. apply IH; [intros k' f' H; apply Hwb; right; exact H|].
  assert (Hf : wellBehaved now snoozeMs k0 f) by (apply Hwb; left).
  destruct (decide (k0 = k)) as [->|Hne].
  - rewrite lookup_applyAt_eq by apply (wb_keeps _ _ _ _ Hf).
    destruct Hk as [st Hst]. rewrite Hst.
    destruct (wb_keeps _ _ _ _ Hf st) as [st' ->]. eauto.
  - rewrite lookup_applyAt_ne by exact Hne. exact Hk.
Qed.

(** Where a candidate comes from: a step on its key, applied to an entry
    that carries the acknowledgement time the run started with. *)
Lemma runSteps_provenance lp c :
  c ∈ candidates (runSteps steps lp) ->
  c ∈ candidates lp
  \/ exists f o, (Candidate.eventKey c, f) ∈ steps
                 /\ c ∈ snd (f o)
                 /\ ackOf o = ackOf (EVENTS lp !! Candidate.eventKey c).
Proof using Hwb.
  revert lp Hwb; induction steps as [|[k0 f] l IH]; intros lp Hwb Hc; [left; exact Hc|].
  assert (Hf : wellBehaved now snoozeMs k0 f) by (apply Hwb; left).
  rewrite runSteps_cons in Hc.
  apply IH in Hc; [|intros k' f' H; apply Hwb; right; exact H].
  destruct Hc as [Hc|(f' & o & Hin & Hc & Hack)].
  - rewrite candidates_applyAt in Hc. apply elem_of_app in Hc as [Hc|Hc]; [left; exact Hc|].
    right. exists f, (EVENTS lp !! k0).
    rewrite (wb_key _ _ _ _ Hf _ _ Hc). split; [left|]. split; [exact Hc | reflexivity].
  - right. exists f', o. split; [right; exact Hin|]. split; [exact Hc|].
    rewrite Hack. destruct (decide (k0 = Candidate.eventKey c)) as [->|Hne].
    + rewrite lookup_applyAt_eq by apply (wb_keeps _ _ _ _ Hf). apply (wb_ack _ _ _ _ Hf).
    + rewrite lookup_applyAt_ne by exact Hne. reflexivity.
Qed.

(** A key that is snoozed when the run starts gets no candidate. *)
Lemma runSteps_snoozed lp k c :
  snoozedAck (ackOf (EVENTS lp !! k)) now snoozeMs = true ->
  c ∈ candidates (runSteps steps lp) ->
  Candidate.eventKey c = k ->
  c ∈ candidates lp.
Proof using Hwb.
  intros Hs Hc Hk. apply runSteps_provenance in Hc as [Hc|(f & o & Hin & Hc & Hack)];
    [exact Hc|].
  subst k. rewrite <- Hack in Hs.
  rewrite (wb_snoozed _ _ _ _ (Hwb _ _ Hin) o Hs) in Hc.
  apply elem_of_nil in Hc. destruct Hc.
Qed.

End Run.

(** ** The acknowledgement *)

Lemma lookup_acknowledgeEvent_eq k t (E : EventStore) :
  k <> ""%string ->
  acknowledgeEvent k t E !! k = Some (set_lastAckMs (Some t) (entryOf (E !! k))).
Proof.
  intros Hk. unfold acknowledgeEvent, getOrInitEvent.
  destruct (String.eqb_spec k ""); [contradiction|].
  destruct (E !! k); simpl; apply lookup_insert_eq.
Qed.

Lemma lookup_acknowledgeEvent_ne k k' t (E : EventStore) :
  k <> k' -> acknowledgeEvent k t E !! k' = E !! k'.
Proof.
  intros Hne. unfold acknowledgeEvent, getOrInitEvent.
  destruct (String.eqb k ""); [reflexivity|].
  destruct (E !! k); simpl; rewrite !lookup_insert_ne by exact Hne; reflexivity.
Qed.

(** The acknowledgement changes nothing but [lastAckMs]. *)
Lemma applyAck_entry input (E : EventStore) k st :
  E !! k = Some st ->
  exists a, applyAck input E !! k = Some (set_lastAckMs a st).
Proof.
  intros Hk. unfold applyAck. destruct (ackEventKey input) as [k0|].
  2:{ exists (lastAckMs st). rewrite Hk. destruct st; reflexivity. }
  destruct (decide (k0 = k)) as [->|Hne].
  - unfold acknowledgeEvent, getOrInitEvent. destruct (String.eqb k "").
    + exists (lastAckMs st). rewrite Hk. destruct st; reflexivity.
    + rewrite Hk. exists (Some (nowMs input)). apply lookup_insert_eq.
  - rewrite lookup_acknowledgeEvent_ne by exact Hne.
    exists (lastAckMs st). rewrite Hk. destruct st; reflexivity.
Qed.

Lemma applyAck_fresh input (E : EventStore) k st :
  E !! k = None -> applyAck input E !! k = Some st ->
  st = set_lastAckMs (Some (nowMs input)) initEvent.
Proof.
  intros Hk. unfold applyAck. destruct (ackEventKey input) as [k0|]; [|congruence].
  destruct (decide (k0 = k)) as [->|Hne].
  - unfold acknowledgeEvent, getOrInitEvent. destruct (String.eqb k ""); [congruence|].
    rewrite Hk, lookup_insert_eq. congruence.
  - rewrite lookup_acknowledgeEvent_ne by exact Hne. congruence.
Qed.

(** ** The steps of a device in the input *)

Lemma offline_step input devs dev :
  dev ∈ devs ->
  (offlineKey (deviceId dev), offlineAct input dev) ∈ stepsOf input devs.
Proof.
  induction devs as [|d devs IH]; intros Hin; [apply elem_of_nil in Hin; destruct Hin|].
  rewrite stepsOf_cons. apply elem_of_app.
  apply elem_of_cons in Hin as [->|Hin]; [left; left | right; auto].
Qed.

Lemma anomaly_step input devs dev m :
  dev ∈ devs -> reachesAnomaly dev = true ->
  (anomalyKey (deviceId dev) m, anomalyAct input dev m) ∈ stepsOf input devs.
Proof.
  induction devs as [|d devs IH]; intros Hin Hr; [apply elem_of_nil in Hin; destruct Hin|].
  rewrite stepsOf_cons. apply elem_of_app.
  apply elem_of_cons in Hin as [->|Hin]; [left | right; auto].
  unfold stepsOfDevice. rewrite Hr. right.
  apply (list_elem_of_fmap_2 (fun m => (anomalyKey (deviceId d) m, anomalyAct input d m))).
  unfold metrics. destruct m; set_solver.
Qed.

Lemma offlineActiveAct_observing input dev age stage level :
  1 <= stage <= 2 ->
  observing input (offlineKey (deviceId dev)) (offlineActiveAct input dev age stage level).
Proof.
  intros Hst o st. subst st. unfold offlineActiveAct. split; intros ->; simpl; [reflexivity|].
  eexists _, _. split; [reflexivity|]. split; [reflexivity|]. split; [reflexivity|].
  left. split; [reflexivity|]. split; [exact Hst | eauto].
Qed.

Lemma offlineAct_observing input dev :
  offlineCondition input dev = true ->
  observing input (offlineKey (deviceId dev)) (offlineAct input dev).
Proof.
  unfold offlineCondition, offlineAct. intros Hc.
  destruct (negb (truthy (lastDataMs dev))); simpl in Hc.
  - apply offlineActiveAct_observing; lia.
  - rewrite Hc. destruct (alertMs input <=? _); apply offlineActiveAct_observing; lia.
Qed.

Lemma anomalyAct_observing input dev m :
  anomalyCondition dev m = true ->
  observing input (anomalyKey (deviceId dev) m) (anomalyAct input dev m).
Proof.
  unfold anomalyCondition, anomalyAct. intros Hc.
  apply andb_prop in Hc as [Hc Hact]. apply andb_prop in Hc as [_ Hlen].
  apply negb_true_iff in Hlen. rewrite Hlen, Hact. simpl.
  intros o st. subst st. split; intros ->; [reflexivity|].
  eexists _, _. split; [reflexivity|]. split; [reflexivity|].
  split; [simpl; apply recordStage_firstSeen|].
  right. split; [reflexivity|]. split; [simpl; apply stageOf_recordStage | eauto].
Qed.

Lemma conditionActive_step input k :
  conditionActive input k ->
  exists f, (k, f) ∈ stepsOf input (devices input) /\ observing input k f.
Proof.
  intros (dev & Hin & [[-> Hc]|(m & -> & Hc)]).
  - exists (offlineAct input dev). split;
      [apply offline_step; exact Hin | apply offlineAct_observing; exact Hc].
  - exists (anomalyAct input dev m). split;
      [|apply anomalyAct_observing; exact Hc].
    apply anomaly_step; [exact Hin|].
    unfold anomalyCondition in Hc. apply andb_prop in Hc as [Hc _].
    apply andb_prop in Hc as [Hc _]. exact Hc.
Qed.

(** Every step of a run fires on an entry that carries the
    acknowledgement time its key had at the start, and what it pushes is
    in the final array. *)
Lemma runSteps_fires now snoozeMs steps lp k f :
  (forall k f, (k, f) ∈ steps -> wellBehaved now snoozeMs k f) ->
  (k, f) ∈ steps ->
  exists o, ackOf o = ackOf (EVENTS lp !! k)
            /\ forall c, c ∈ snd (f o) -> c ∈ candidates (runSteps steps lp).
Proof.
  revert lp; induction steps as [|[k0 f0] l IH]; intros lp Hwb Hin;
    [apply elem_of_nil in Hin; destruct Hin|].
  assert (Hf : wellBehaved now snoozeMs k0 f0) by (apply Hwb; left).
  rewrite runSteps_cons. apply elem_of_cons in Hin as [[= -> ->]|Hin].
  - exists (EVENTS lp !! k0). split; [reflexivity|]. intros c Hc.
    apply candidates_runSteps_mono. rewrite candidates_applyAt.
    apply elem_of_app; right; exact Hc.
  - destruct (IH (applyAt k0 f0 lp)) as (o & Hack & Hc); [|exact Hin|].
    { intros k' f' H; apply Hwb; right; exact H. }
    exists o. split; [|exact Hc]. rewrite Hack.
    destruct (decide (k0 = k)) as [->|Hne].
    + rewrite lookup_applyAt_eq by apply (wb_keeps _ _ _ _ Hf). apply (wb_ack _ _ _ _ Hf).
    + rewrite lookup_applyAt_ne by exact Hne. reflexivity.
Qed.

Lemma buildOfflineEvent_unknown name alertMs L :
  buildOfflineEvent name (alertMs + 1) alertMs L
  = ("alert"%string,
     OFFLINE_ALERT L name ((alertMs + 1) / 1000 / 60) (Z.rem ((alertMs + 1) / 1000) 60)).
Proof.
  unfold buildOfflineEvent.
  destruct (Z.leb_spec alertMs (alertMs + 1)); [reflexivity | lia].
Qed.

(** C7.  A device whose last-known-data time is null is not skipped: its
    offline entry exists after the call, and unless that entry is snoozed
    the call produces an offline candidate for it at stage 2, level
    "modal", whose text is the offline-alert message formatted for the age
    [alertMs + 1]. *)
Theorem unknown_device_is_offline_modal (input : Input) (E : EventStore) (dev : Device) :
  dev ∈ devices input ->
  lastDataMs dev = None ->
  let k := offlineKey (deviceId dev) in
  is_Some (EVENTS (collect input E) !! k)
  /\ (snoozedAck (ackOf (applyAck input E !! k)) (nowMs input) (modalSnoozeMs input) = false ->
      exists c,
        c ∈ candidates (collect input E)
        /\ Candidate.eventKey c = k
        /\ Candidate.stage c = 2
        /\ Candidate.level c = "modal"%string
        /\ Candidate.metric c = "offline"%string
        /\ Candidate.text c
           = snd (buildOfflineEvent (displayName dev) (alertMs input + 1)
                    (alertMs input) (resolvedLang input))
        /\ Candidate.text c
           = OFFLINE_ALERT (resolvedLang input) (displayName dev)
               ((alertMs input + 1) / 1000 / 60)
               (Z.rem ((alertMs input + 1) / 1000) 60)).
Proof.
  intros Hin Hnull k. rewrite collect_runSteps.
  pose proof (stepsOf_wellBehaved input (devices input)) as Hwb.
  pose proof (offline_step input _ _ Hin) as Hstep. fold k in Hstep.
  assert (Hf : offlineAct input dev
               = offlineActiveAct input dev (alertMs input + 1) 2 "modal").
  { unfold offlineAct. rewrite Hnull. reflexivity. }
  split.
  - set (lp0 := {| EVENTS := applyAck input E; candidates := [] |}).
    apply list_elem_of_split in Hstep as (l1 & l2 & Hsplit).
    rewrite Hsplit, runSteps_app, runSteps_cons.
    apply (runSteps_keeps (nowMs input) (modalSnoozeMs input)).
    { intros k' f' H. apply Hwb. rewrite Hsplit. apply elem_of_app; right; right; exact H. }
    rewrite lookup_applyAt_eq, Hf by apply (wb_keeps _ _ _ _ (offlineAct_wellBehaved input dev)).
    simpl. eauto.
  - intros Hs.
    destruct (runSteps_fires _ _ _ {| EVENTS := applyAck input E; candidates := [] |}
                _ _ Hwb Hstep) as (o & Hack & Hfire).
    simpl in Hack. rewrite Hf in Hfire. unfold offlineActiveAct in Hfire. simpl in Hfire.
    rewrite isSnoozed_ack, markSeen_ack, ackOf_entryOf, Hack, Hs in Hfire. simpl in Hfire.
    eexists. split; [apply Hfire; left|].
    simpl. rewrite buildOfflineEvent_unknown. repeat split.
Qed.

Lemma unknown_device_is_offline_modal_witness :
  exists c,
    c ∈ candidates (collect (cfg unknownDevice T0 None) ∅)
    /\ Candidate.eventKey c = "N:offline"%string
    /\ Candidate.stage c = 2
    /\ Candidate.text c = OFFLINE_ALERT en "N" 5 0.
Proof.
  destruct (unknown_device_is_offline_modal (cfg unknownDevice T0 None) ∅
              (device "N" [] None)) as [_ H].
  - left.
  - reflexivity.
  - destruct (H eq_refl) as (c & Hc & Hk & Hs & _ & _ & _ & Ht).
    exists c. repeat split; assumption.
Defined.

(** ** Whole evaluations *)

Lemma collect_ack input (E : EventStore) k :
  ackOf (EVENTS (collect input E) !! k) = ackOf (applyAck input E !! k).
Proof.
  rewrite collect_runSteps.
  apply (runSteps_ack (nowMs input) (modalSnoozeMs input)).
  apply stepsOf_wellBehaved.
Qed.

Lemma collect_snoozed input (E : EventStore) k c :
  snoozedAck (ackOf (applyAck input E !! k)) (nowMs input) (modalSnoozeMs input) = true ->
  c ∈ candidates (collect input E) ->
  Candidate.eventKey c <> k.
Proof.
  intros Hs Hc Hk. rewrite collect_runSteps in Hc.
  eapply (runSteps_snoozed (nowMs input) (modalSnoozeMs input)) in Hc;
    [|apply stepsOf_wellBehaved|exact Hs|exact Hk].
  apply elem_of_nil in Hc. exact Hc.
Qed.

Lemma snoozedAck_true t0 now snoozeMs :
  t0 <> 0 -> now - t0 < snoozeMs -> snoozedAck (Some t0) now snoozeMs = true.
Proof.
  intros H0 Hlt. unfold snoozedAck; simpl.
  destruct (Z.eqb_spec t0 0); [contradiction|]. simpl. apply Z.ltb_lt. exact Hlt.
Qed.

Lemma snoozedAck_false t0 now snoozeMs :
  snoozeMs <= now - t0 -> snoozedAck (Some t0) now snoozeMs = false.
Proof.
  intros Hle. unfold snoozedAck; simpl.
  destruct (Z.eqb_spec t0 0); [reflexivity|]. simpl. apply Z.ltb_ge. exact Hle.
Qed.

(** With distinct device identifiers, the entry a step leaves under its
    key is the final one, and the candidates are those of every step on
    the store as it was after the acknowledgement. *)
Lemma collect_lookup_step input (E : EventStore) k f :
  NoDup (deviceId <$> devices input) ->
  (k, f) ∈ stepsOf input (devices input) ->
  EVENTS (collect input E) !! k = fst (f (applyAck input E !! k)).
Proof.
  intros Hnd Hin. rewrite collect_runSteps.
  apply runSteps_lookup_in; [apply stepsOf_NoDup; exact Hnd | | exact Hin].
  intros k' f' H'. apply (wb_keeps _ _ _ _ (stepsOf_wellBehaved _ _ _ _ H')).
Qed.

Lemma collect_lookup_other input (E : EventStore) k :
  k ∉ keysOf (stepsOf input (devices input)) ->
  EVENTS (collect input E) !! k = applyAck input E !! k.
Proof. intros Hk. rewrite collect_runSteps. apply runSteps_lookup_other. exact Hk. Qed.

Lemma collect_candidates input (E : EventStore) :
  NoDup (deviceId <$> devices input) ->
  candidates (collect input E)
  = emitted (stepsOf input (devices input)) (applyAck input E).
Proof.
  intros Hnd. rewrite collect_runSteps, runSteps_candidates by (apply stepsOf_NoDup; exact Hnd).
  reflexivity.
Qed.

Lemma elem_of_emitted l (E : EventStore) k f c :
  (k, f) ∈ l -> c ∈ snd (f (E !! k)) -> c ∈ emitted l E.
Proof.
  intros Hin Hc. unfold emitted. apply list_elem_of_bind. exists (k, f). split; assumption.
Qed.

Lemma stepsOf_inv input devs k f :
  (k, f) ∈ stepsOf input devs ->
  (exists dev, dev ∈ devs /\ k = offlineKey (deviceId dev) /\ f = offlineAct input dev)
  \/ (exists dev m, dev ∈ devs /\ reachesAnomaly dev = true
                    /\ k = anomalyKey (deviceId dev) m /\ f = anomalyAct input dev m).
Proof.
  induction devs as [|dev devs IH]; intros Hin.
  - apply elem_of_nil in Hin; destruct Hin.
  - rewrite stepsOf_cons in Hin. apply elem_of_app in Hin as [Hin|Hin].
    + unfold stepsOfDevice in Hin. apply elem_of_cons in Hin as [[= -> ->]|Hin].
      * left. exists dev. split; [left | split; reflexivity].
      * destruct (reachesAnomaly dev) eqn:Hr; [|apply elem_of_nil in Hin; destruct Hin].
        apply list_elem_of_fmap in Hin as (m & [= -> ->] & _).
        right. exists dev, m. split; [left | repeat split; assumption].
    + destruct (IH Hin) as [(dev' & H1 & H2)|(dev' & m & H1 & H2)].
      * left. exists dev'. split; [right; exact H1 | exact H2].
      * right. exists dev', m. split; [right; exact H1 | exact H2].
Qed.

(** ** Recorded stages along a history *)

Lemma orElse_markSeen t st :
  orElse (firstSeenMs (markSeen t st)) t = orElse (firstSeenMs st) t.
Proof.
  rewrite markSeen_firstSeen. destruct (firstSeenMs st) as [z|]; simpl.
  - destruct (Z.eqb_spec z 0); simpl; [|destruct (Z.eqb_spec z 0); [contradiction|reflexivity]].
    destruct (t =? 0); reflexivity.
  - destruct (t =? 0); reflexivity.
Qed.

Lemma seenFor_markSeen input st :
  seenFor input (markSeen (nowMs input) st) = seenFor input st.
Proof. unfold seenFor. rewrite orElse_markSeen. reflexivity. Qed.

Lemma stageSound_mono P t t' k st :
  t <= t' -> stageSound P t k st -> stageSound P t' k st.
Proof.
  intros Ht [H0|[Hk [H2|[H3 HP]]]]; [left; exact H0 | right; split; auto |].
  right. split; [exact Hk|]. right. split; [exact H3|].
  destruct (firstSeenMs st) as [z|]; simpl in *; [destruct (z =? 0)|]; lia.
Qed.

Lemma stageSound_window P P' t k st :
  P' <= P -> stageSound P t k st -> stageSound P' t k st.
Proof.
  intros HP [H0|[Hk [H2|[H3 H]]]]; [left; exact H0 | right; split; auto |].
  right. split; [exact Hk|]. right. split; [exact H3 | lia].
Qed.

Lemma stageSound_offline P t id st :
  stageSound P t (offlineKey id) st -> lastFiredStage st = 0.
Proof.
  intros [H0|[(id' & m & Hk) _]]; [exact H0|].
  destruct (offlineKey_anomalyKey _ _ _ Hk).
Qed.

Lemma stageSound_entryOf P t k o :
  (forall st, o = Some st -> stageSound P t k st) -> stageSound P t k (entryOf o).
Proof. destruct o as [st|]; intros H; [apply H; reflexivity | left; reflexivity]. Qed.

Lemma stageSound_markSeen P t k st :
  stageSound P t k st -> stageSound P t k (markSeen t st).
Proof.
  unfold stageSound. rewrite markSeen_stage, orElse_markSeen. tauto.
Qed.

Lemma offlineAct_sound input dev o st' :
  (forall st, o = Some st ->
     stageSound (persistWindowMs input) (nowMs input) (offlineKey (deviceId dev)) st) ->
  fst (offlineAct input dev o) = Some st' ->
  stageSound (persistWindowMs input) (nowMs input) (offlineKey (deviceId dev)) st'.
Proof.
  intros Ho. apply stageSound_entryOf in Ho.
  assert (Hact : forall age stage level,
             fst (offlineActiveAct input dev age stage level o) = Some st' ->
             stageSound (persistWindowMs input) (nowMs input)
               (offlineKey (deviceId dev)) st').
  { intros age stage level [= <-]. apply stageSound_markSeen. exact Ho. }
  unfold offlineAct. destruct (negb _); [apply Hact|].
  destruct (warnMs input <=? _); [destruct (alertMs input <=? _); apply Hact|].
  destruct o as [st|]; simpl; intros [= <-]. left; reflexivity.
Qed.

Lemma anomalyAct_sound input dev m o st' :
  (forall st, o = Some st ->
     stageSound (persistWindowMs input) (nowMs input) (anomalyKey (deviceId dev) m) st) ->
  fst (anomalyAct input dev m o) = Some st' ->
  stageSound (persistWindowMs input) (nowMs input) (anomalyKey (deviceId dev) m) st'.
Proof.
  intros Ho. unfold anomalyAct.
  destruct (length _ <? 3)%nat; [simpl; intros ->; apply Ho; reflexivity|].
  destruct (negb (active m _)).
  { destruct o as [st|]; simpl; intros [= <-].
    destruct (_ <? _); [left; reflexivity | apply Ho; reflexivity]. }
  apply stageSound_entryOf, stageSound_markSeen in Ho.
  set (st := markSeen (nowMs input) (entryOf o)) in *. simpl.
  destruct (isSnoozed st _ _); simpl; intros [= <-]; [exact Ho|].
  right. split; [eauto|].
  rewrite recordStage_stage, recordStage_firstSeen.
  unfold stageOf. fold (seenFor input st).
  destruct (Z.leb_spec (persistWindowMs input) (seenFor input st)) as [Hp|Hp].
  - right. split; [|exact Hp].
    destruct Ho as [H0|[_ [H2|[H3 _]]]]; lia.
  - destruct Ho as [H0|[_ [H2|[H3 HP]]]]; [left; lia | left; lia |].
    right. split; [lia | exact HP].
Qed.

Lemma step_sound input devs k f o st' :
  (k, f) ∈ stepsOf input devs ->
  (forall st, o = Some st -> stageSound (persistWindowMs input) (nowMs input) k st) ->
  fst (f o) = Some st' ->
  stageSound (persistWindowMs input) (nowMs input) k st'.
Proof.
  intros Hin. apply stepsOf_inv in Hin
    as [(dev & _ & -> & ->)|(dev & m & _ & _ & -> & ->)].
  - apply offlineAct_sound.
  - apply anomalyAct_sound.
Qed.

Lemma runSteps_sound P t l lp :
  (forall k f o st', (k, f) ∈ l ->
     (forall st, o = Some st -> stageSound P t k st) ->
     fst (f o) = Some st' -> stageSound P t k st') ->
  storeSound P t (EVENTS lp) -> storeSound P t (EVENTS (runSteps l lp)).
Proof.
  revert lp; induction l as [|[k0 f0] l IH]; intros lp Hl Hs; [exact Hs|].
  rewrite runSteps_cons. apply IH.
  { intros k f o st' Hin. apply Hl. right; exact Hin. }
  intros k st. unfold applyAt.
  destruct (f0 (EVENTS lp !! k0)) as [[st0|] cs] eqn:Hf; simpl; [|apply Hs].
  destruct (decide (k0 = k)) as [->|Hne].
  - rewrite lookup_insert_eq. intros [= <-].
    apply (Hl k f0 (EVENTS lp !! k) st0); [left | | rewrite Hf; reflexivity].
    intros st1 H1. apply Hs. exact H1.
  - rewrite lookup_insert_ne by exact Hne. apply Hs.
Qed.

Lemma applyAck_sound P t input (E : EventStore) :
  storeSound P t E -> storeSound P t (applyAck input E).
Proof.
  intros Hs k st Hk. destruct (E !! k) as [st0|] eqn:H0.
  - destruct (applyAck_entry input E k st0 H0) as [a Ha].
    rewrite Ha in Hk. injection Hk as <-. exact (Hs k st0 H0).
  - rewrite (applyAck_fresh input E k st H0 Hk). left; reflexivity.
Qed.

Lemma reachable_sound P t E : reachable P t E -> storeSound P t E.
Proof.
  induction 1 as [P t|P t E input Hr IH HP Ht].
  - intros k st Hk. rewrite lookup_empty in Hk. discriminate.
  - unfold evaluateGlobal; simpl. rewrite collect_runSteps.
    apply runSteps_sound.
    + intros k f o st' Hin. apply (step_sound input (devices input)). exact Hin.
    + simpl. apply applyAck_sound. intros k st Hk.
      apply (stageSound_window P); [exact HP|].
      apply (stageSound_mono _ t); [exact Ht | apply IH; exact Hk].
Qed.

(** ** Acknowledgement and snooze *)

Lemma ownedBy_nonempty id k : ownedBy id k -> k <> ""%string.
Proof.
  intros [->|[m ->]] H; [|destruct m]; key_chars H; discriminate H.
Qed.

Lemma conditionActive_owned input k :
  conditionActive input k -> exists id, ownedBy id k.
Proof.
  intros (dev & _ & [[-> _]|(m & -> & _)]); exists (deviceId dev);
    [left; reflexivity | right; eauto].
Qed.

Lemma applyAck_entryOf input (E : EventStore) k :
  exists a, entryOf (applyAck input E !! k) = set_lastAckMs a (entryOf (E !! k)).
Proof.
  destruct (E !! k) as [st|] eqn:Hk.
  - destruct (applyAck_entry input E k st Hk) as [a Ha]. exists a. rewrite Ha. reflexivity.
  - destruct (applyAck input E !! k) as [st|] eqn:Ha.
    + rewrite (applyAck_fresh input E k st Hk Ha). eauto.
    + exists None. reflexivity.
Qed.

Lemma applyAck_same_call input (E : EventStore) k :
  ackEventKey input = Some k -> k <> ""%string ->
  ackOf (applyAck input E !! k) = Some (nowMs input).
Proof.
  intros Hack Hk. unfold applyAck. rewrite Hack.
  rewrite lookup_acknowledgeEvent_eq by exact Hk. reflexivity.
Qed.

(** C5, as stated, fails.  The stage of the candidate that comes back
    after the snooze window is computed from the time since
    [firstSeenMs]; [lastFiredStage] is written and never read.  First
    run: the anomaly has been seen for thirty minutes and stage 3 is
    recorded; the clock is then set back by ten minutes and the modal is
    acknowledged; five minutes later, the snooze window over and the
    condition still active, the candidate is at stage 2.  Second run: the
    clock runs forward, and the caller passes a persist window of ten
    minutes at first and of thirty minutes after the acknowledgement. *)
Lemma snooze_floor_counterexample :
  (ackOf (ackAfterStepBack !! spikeKey) = Some (T0 + 1200000)
   /\ modalSnoozeMs afterStepBack <= nowMs afterStepBack - (T0 + 1200000)
   /\ conditionActive afterStepBack spikeKey
   /\ lastFiredStage (entryOf (ackAfterStepBack !! spikeKey)) = 3
   /\ ~ resurfacesAtFloor afterStepBack ackAfterStepBack spikeKey)
  /\ (ackOf (ackEarly !! spikeKey) = Some (T0 + 660000)
      /\ modalSnoozeMs afterWindowGrew <= nowMs afterWindowGrew - (T0 + 660000)
      /\ conditionActive afterWindowGrew spikeKey
      /\ lastFiredStage (entryOf (ackEarly !! spikeKey)) = 3
      /\ ~ resurfacesAtFloor afterWindowGrew ackEarly spikeKey).
Proof.
  assert (Hact : forall seen t, seen <> 0 -> conditionActive (cfg (spiking seen) t None) spikeKey).
  { intros seen t Hseen. eexists. split; [left|]. right. exists Temperature.
    split; [reflexivity|]. unfold anomalyCondition, reachesAnomaly; simpl.
    destruct (Z.eqb_spec seen 0); [contradiction | reflexivity]. }
  split.
  - split; [vm_compute; reflexivity|]. split; [vm_compute; discriminate|].
    split; [apply Hact; vm_compute; discriminate|]. split; [vm_compute; reflexivity|].
    intros (c & Hc & _ & Hle).
    assert (Hcs : candidates (collect afterStepBack ackAfterStepBack)
                  = [anomalyCandidate afterStepBack (device "B"
                       [tempRow (T0 - 20000) 20; tempRow (T0 - 10000) 20; tempRow T0 24]
                       (Some (T0 + 1500000))) Temperature
                       (series [tempRow (T0 - 20000) 20; tempRow (T0 - 10000) 20;
                                tempRow T0 24] Temperature)
                       (seenSince T0)])
      by (vm_compute; reflexivity).
    rewrite Hcs in Hc. apply list_elem_of_singleton in Hc. subst c.
    vm_compute in Hle. apply Hle. reflexivity.
  - split; [vm_compute; reflexivity|]. split; [vm_compute; discriminate|].
    split; [apply Hact; vm_compute; discriminate|]. split; [vm_compute; reflexivity|].
    intros (c & Hc & _ & Hle).
    assert (Hcs : candidates (collect afterWindowGrew ackEarly)
                  = [anomalyCandidate afterWindowGrew (device "B"
                       [tempRow (T0 - 20000) 20; tempRow (T0 - 10000) 20; tempRow T0 24]
                       (Some (T0 + 960000))) Temperature
                       (series [tempRow (T0 - 20000) 20; tempRow (T0 - 10000) 20;
                                tempRow T0 24] Temperature)
                       (seenSince T0)])
      by (vm_compute; reflexivity).
    rewrite Hcs in Hc. apply list_elem_of_singleton in Hc. subst c.
    vm_compute in Hle. apply Hle. reflexivity.
Qed.

(** C5, amended.  Let the condition under key [k] be active in an
    evaluation at time [now] over devices with distinct identifiers, and
    let [k] carry the acknowledgement time [t0], non-zero, when detection
    starts (an [ackEventKey = k] of the same call makes this [now], the
    acknowledgement being applied first).
    - Within the snooze window ([now - t0 < modalSnoozeMs]) the call
      produces no candidate for [k], and still records the observation:
      [lastSeenMs] is [now], [firstSeenMs] is set if it was unset and kept
      otherwise, [lastFiredStage] and [lastAckMs] are untouched.
    - After the window the call produces a candidate for [k] that carries
      the first-seen time of the entry and whose stage is computed afresh:
      1 or 2 for an offline key; for an anomaly key 3 when the time since
      [firstSeenMs] has reached [persistWindowMs], and 2 otherwise.  This
      stage is at least the [lastFiredStage] recorded before the call
      when the store comes from a history of evaluations whose clock has
      not gone back and whose persist window has not grown. *)
Theorem snooze_suppresses_does_not_erase
    (E : EventStore) (input : Input) (k : string) (t0 : Z) :
  NoDup (deviceId <$> devices input) ->
  conditionActive input k ->
  ackOf (applyAck input E !! k) = Some t0 ->
  t0 <> 0 ->
  let before := entryOf (E !! k) in
  let res := collect input E in
  let since := if truthy (firstSeenMs before) then firstSeenMs before
               else Some (nowMs input) in
  (ackEventKey input = Some k -> t0 = nowMs input)
  /\ (nowMs input - t0 < modalSnoozeMs input ->
      (forall c, c ∈ candidates res -> Candidate.eventKey c <> k)
      /\ exists st',
          EVENTS res !! k = Some st'
          /\ lastSeenMs st' = Some (nowMs input)
          /\ firstSeenMs st' = since
          /\ lastFiredStage st' = lastFiredStage before
          /\ lastAckMs st' = Some t0)
  /\ (modalSnoozeMs input <= nowMs input - t0 ->
      exists c,
        c ∈ candidates res
        /\ Candidate.eventKey c = k
        /\ Candidate.seenSinceMs c = since
        /\ (((exists id, k = offlineKey id) /\ 1 <= Candidate.stage c <= 2)
            \/ ((exists id m, k = anomalyKey id m)
                /\ Candidate.stage c
                   = if persistWindowMs input
                        <=? nowMs input - orElse (firstSeenMs before) (nowMs input)
                     then 3 else 2))
        /\ (forall P t,
              reachable P t E ->
              t <= nowMs input ->
              persistWindowMs input <= P ->
              lastFiredStage before <= Candidate.stage c)).
Proof.
  intros Hnd Hact Hack Ht0 before res since. subst before res since.
  destruct (conditionActive_owned _ _ Hact) as [id Hown].
  destruct (conditionActive_step _ _ Hact) as (f & Hin & Hobs).
  destruct (applyAck_entryOf input E k) as [a Ha].
  set (o := applyAck input E !! k) in *.
  specialize (Hobs o). cbv zeta in Hobs. destruct Hobs as [Hsn Hns].
  set (st := markSeen (nowMs input) (entryOf o)) in *.
  assert (Hsnz : isSnoozed st (nowMs input) (modalSnoozeMs input)
                 = snoozedAck (Some t0) (nowMs input) (modalSnoozeMs input)).
  { subst st. rewrite isSnoozed_ack, markSeen_ack, ackOf_entryOf, Hack. reflexivity. }
  assert (Hfirst : firstSeenMs st
                   = if truthy (firstSeenMs (entryOf (E !! k)))
                     then firstSeenMs (entryOf (E !! k)) else Some (nowMs input)).
  { subst st. rewrite markSeen_firstSeen, Ha. reflexivity. }
  split; [|split].
  - intros Hk.
    pose proof (applyAck_same_call input E k Hk (ownedBy_nonempty _ _ Hown)) as H.
    fold o in H. congruence.
  - intros Hlt. rewrite (snoozedAck_true _ _ _ Ht0 Hlt) in Hsnz. split.
    + intros c Hc. apply (collect_snoozed input E k c); [|exact Hc].
      fold o. rewrite Hack. apply snoozedAck_true; assumption.
    + exists st. rewrite (collect_lookup_step input E k f Hnd Hin). fold o.
      rewrite (Hsn Hsnz). split; [reflexivity|]. rewrite Hfirst. subst st.
      rewrite markSeen_lastSeen, markSeen_stage, markSeen_ack,
        ackOf_entryOf, Hack, Ha.
      repeat split.
  - intros Hge. rewrite (snoozedAck_false _ _ _ Hge) in Hsnz.
    destruct (Hns Hsnz) as (c & st' & Hf & Hkey & Hsince & Hshape).
    assert (Hstage : stageOf input st
                     = if persistWindowMs input
                          <=? nowMs input
                              - orElse (firstSeenMs (entryOf (E !! k))) (nowMs input)
                       then 3 else 2).
    { subst st. unfold stageOf. rewrite seenFor_markSeen.
      unfold seenFor. rewrite Ha. reflexivity. }
    exists c. split; [|split; [exact Hkey|split; [rewrite Hsince; exact Hfirst|split]]].
    + rewrite (collect_candidates input E Hnd).
      apply (elem_of_emitted _ _ k f); [exact Hin|]. fold o. rewrite Hf. left.
    + destruct Hshape as [(_ & Hst & id' & Hk)|(_ & Hst & id' & m' & Hk)].
      * left. split; [eauto | exact Hst].
      * right. split; [eauto|]. rewrite Hst. exact Hstage.
    + intros P t Hreach Ht HP.
      assert (Hsound : stageSound (persistWindowMs input) (nowMs input) k
                         (entryOf (E !! k))).
      { apply stageSound_entryOf. intros st0 H0.
        apply (stageSound_window P); [exact HP|].
        apply (stageSound_mono _ t); [exact Ht|].
        apply (reachable_sound _ _ _ Hreach k st0). destruct (E !! k); congruence. }
      destruct Hshape as [(_ & Hst & id' & ->)|(_ & Hst & _)].
      * rewrite (stageSound_offline _ _ _ _ Hsound). lia.
      * rewrite Hst, Hstage.
        destruct Hsound as [H0|[_ [H2|[H3 H3P]]]];
          destruct (Z.leb_spec (persistWindowMs input)
                      (nowMs input - orElse (firstSeenMs (entryOf (E !! k)))
                                       (nowMs input))); lia.
Qed.

Lemma reachable_afterFirst : reachable 1800000 T0 afterFirst.
Proof.
  apply (reachable_evaluated 1800000 T0 ∅ (cfg (spiking T0) T0 None));
    [apply reachable_created | reflexivity | reflexivity].
Qed.

Lemma reachable_afterAck : reachable 1800000 (T0 + 1000) afterAck.
Proof.
  apply (reachable_evaluated 1800000 T0 afterFirst
           (cfg (spiking T0) (T0 + 1000) (Some spikeKey)));
    [apply reachable_afterFirst | vm_compute; discriminate | vm_compute; discriminate].
Qed.

Lemma spiking_active seen t ack :
  seen <> 0 -> conditionActive (cfg (spiking seen) t ack) spikeKey.
Proof.
  intros Hseen. eexists. split; [left|]. right. exists Temperature.
  split; [reflexivity|]. unfold anomalyCondition, reachesAnomaly; simpl.
  destruct (Z.eqb_spec seen 0); [contradiction | reflexivity].
Qed.

Lemma snooze_suppresses_does_not_erase_witness :
  (forall c,
     c ∈ candidates (collect (cfg (spiking T0) (T0 + 1000) (Some spikeKey)) afterFirst) ->
     Candidate.eventKey c <> spikeKey)
  /\ (exists c,
        c ∈ candidates (collect (cfg (spiking (T0 + 400000)) (T0 + 400000) None) afterAck)
        /\ Candidate.eventKey c = spikeKey
        /\ Candidate.seenSinceMs c = Some T0
        /\ Candidate.stage c = 2
        /\ lastFiredStage (entryOf (afterAck !! spikeKey)) <= Candidate.stage c).
Proof.
  split.
  - refine (proj1 (proj1 (proj2
      (snooze_suppresses_does_not_erase afterFirst
         (cfg (spiking T0) (T0 + 1000) (Some spikeKey)) spikeKey (T0 + 1000)
         _ _ _ _)) _)).
    + apply NoDup_singleton.
    + apply spiking_active. vm_compute; discriminate.
    + vm_compute; reflexivity.
    + vm_compute; discriminate.
    + vm_compute; reflexivity.
  - assert (Hgo : exists c,
        c ∈ candidates (collect (cfg (spiking (T0 + 400000)) (T0 + 400000) None) afterAck)
        /\ Candidate.eventKey c = spikeKey
        /\ Candidate.seenSinceMs c
           = (if truthy (firstSeenMs (entryOf (afterAck !! spikeKey)))
              then firstSeenMs (entryOf (afterAck !! spikeKey))
              else Some (T0 + 400000))
        /\ (((exists id, spikeKey = offlineKey id) /\ 1 <= Candidate.stage c <= 2)
            \/ ((exists id m, spikeKey = anomalyKey id m)
                /\ Candidate.stage c
                   = if 1800000 <=? T0 + 400000
                                   - orElse (firstSeenMs (entryOf (afterAck !! spikeKey)))
                                       (T0 + 400000)
                     then 3 else 2))
        /\ (forall P t,
              reachable P t afterAck ->
              t <= T0 + 400000 ->
              1800000 <= P ->
              lastFiredStage (entryOf (afterAck !! spikeKey)) <= Candidate.stage c)).
    { refine (proj2 (proj2
        (snooze_suppresses_does_not_erase afterAck
           (cfg (spiking (T0 + 400000)) (T0 + 400000) None) spikeKey (T0 + 1000)
           _ _ _ _)) _).
      + apply NoDup_singleton.
      + apply spiking_active. vm_compute; discriminate.
      + vm_compute; reflexivity.
      + vm_compute; discriminate.
      + vm_compute; discriminate. }
    destruct Hgo as (c & Hc & Hk & Hsince & Hstage & Hfloor).
    exists c. split; [exact Hc|]. split; [exact Hk|].
    split; [rewrite Hsince; vm_compute; reflexivity|]. split.
    + destruct Hstage as [((id & Hoff) & _)|(_ & Hst)].
      * destruct (offlineKey_anomalyKey id "B" Temperature). symmetry. exact Hoff.
      * rewrite Hst. vm_compute. reflexivity.
    + apply (Hfloor 1800000 (T0 + 1000) reachable_afterAck);
        vm_compute; discriminate.
Defined.

Lemma applyAck_other input (E : EventStore) k :
  ackEventKey input <> Some k -> applyAck input E !! k = E !! k.
Proof.
  intros Hne. unfold applyAck. destruct (ackEventKey input) as [k0|]; [|reflexivity].
  apply lookup_acknowledgeEvent_ne. congruence.
Qed.

Lemma cycles_snoozed inputs (E : EventStore) k t0 :
  t0 <> 0 ->
  ackOf (E !! k) = Some t0 ->
  Forall (fun input => nowMs input - t0 < modalSnoozeMs input
                       /\ ackEventKey input <> Some k) inputs ->
  Forall (fun cs => forall c, c ∈ cs -> Candidate.eventKey c <> k) (cycles inputs E).
Proof.
  intros Ht0. revert E. induction inputs as [|input rest IH]; intros E Hack Hall;
    [constructor|].
  apply Forall_cons in Hall as [[Hlt Hne] Hall]. simpl. constructor.
  - intros c. apply collect_snoozed.
    rewrite (applyAck_other _ _ _ Hne), Hack. apply snoozedAck_true; assumption.
  - apply IH; [|exact Hall].
    rewrite collect_ack, (applyAck_other _ _ _ Hne). exact Hack.
Qed.

(** C10.  Acknowledging a key the store does not hold creates the entry
    with every field at its default and [lastAckMs] at the acknowledgement
    time [t0]; from there, every consecutive cycle that falls within the
    snooze window of [t0] (non-zero) and does not acknowledge the key
    again produces no candidate for it, whatever the devices report. *)
Theorem preemptive_snooze (E : EventStore) (k : string) (t0 : Z) (inputs : list Input) :
  E !! k = None ->
  k <> ""%string ->
  t0 <> 0 ->
  Forall (fun input => nowMs input - t0 < modalSnoozeMs input
                       /\ ackEventKey input <> Some k) inputs ->
  acknowledgeEvent k t0 E !! k
  = Some {| firstSeenMs := None; lastSeenMs := None; lastFiredStage := 0;
            lastToastMs := None; lastModalMs := None; lastCriticalMs := None;
            lastAckMs := Some t0 |}
  /\ Forall (fun cs => forall c, c ∈ cs -> Candidate.eventKey c <> k)
       (cycles inputs (acknowledgeEvent k t0 E)).
Proof.
  intros Hk Hne Ht0 Hall.
  assert (Hnew : acknowledgeEvent k t0 E !! k
                 = Some (set_lastAckMs (Some t0) initEvent)).
  { rewrite lookup_acknowledgeEvent_eq by exact Hne. rewrite Hk. reflexivity. }
  split; [exact Hnew|].
  apply (cycles_snoozed _ _ _ t0); [exact Ht0 | rewrite Hnew; reflexivity | exact Hall].
Qed.

Lemma preemptive_snooze_witness :
  acknowledgeEvent spikeKey T0 ∅ !! spikeKey
  = Some {| firstSeenMs := None; lastSeenMs := None; lastFiredStage := 0;
            lastToastMs := None; lastModalMs := None; lastCriticalMs := None;
            lastAckMs := Some T0 |}
  /\ Forall (fun cs => forall c, c ∈ cs -> Candidate.eventKey c <> spikeKey)
       (cycles twoCycles (acknowledgeEvent spikeKey T0 ∅)).
Proof.
  apply (preemptive_snooze ∅ spikeKey T0 twoCycles).
  - reflexivity.
  - discriminate.
  - vm_compute; discriminate.
  - repeat constructor; vm_compute; try reflexivity; discriminate.
Defined.

(** ** The stage floor *)

Lemma elem_of_keysOf l k : k ∈ keysOf l -> exists f, (k, f) ∈ l.
Proof.
  unfold keysOf. intros H. apply list_elem_of_fmap in H as ([k' f] & -> & Hin). eauto.
Qed.

Lemma applyAt_floor now snoozeMs k0 f lp k st :
  wellBehaved now snoozeMs k0 f ->
  EVENTS lp !! k = Some st ->
  exists st', EVENTS (applyAt k0 f lp) !! k = Some st' /\ floorKept st st'.
Proof.
  intros Hwb Hk. destruct (decide (k0 = k)) as [->|Hne].
  - rewrite lookup_applyAt_eq by apply (wb_keeps _ _ _ _ Hwb). rewrite Hk.
    destruct (wb_keeps _ _ _ _ Hwb st) as [st' Hst']. exists st'.
    split; [exact Hst' | exact (wb_floor _ _ _ _ Hwb _ _ Hst')].
  - rewrite lookup_applyAt_ne by exact Hne. exists st. split; [exact Hk | left; lia].
Qed.

Lemma applyAck_floor input (E : EventStore) k st :
  E !! k = Some st ->
  exists st', applyAck input E !! k = Some st' /\ floorKept st st'.
Proof.
  intros Hk. destruct (applyAck_entry input E k st Hk) as [a Ha].
  eexists. split; [exact Ha | left; simpl; lia].
Qed.

Lemma storesAlong_floor now snoozeMs l lp i (Ei Ej : EventStore) k st :
  (forall k f, (k, f) ∈ l -> wellBehaved now snoozeMs k f) ->
  (EVENTS lp :: storesAlong l lp) !! i = Some Ei ->
  (EVENTS lp :: storesAlong l lp) !! S i = Some Ej ->
  Ei !! k = Some st ->
  exists st', Ej !! k = Some st' /\ floorKept st st'.
Proof.
  revert lp i; induction l as [|[k0 f] l IH]; intros lp i Hwb Hi Hj Hk.
  - destruct i; discriminate Hj.
  - destruct i as [|i].
    + simpl in Hi, Hj. injection Hi as <-. injection Hj as <-.
      apply (applyAt_floor now snoozeMs); [apply Hwb; left | exact Hk].
    + apply (IH (applyAt k0 f lp) i); [|exact Hi|exact Hj|exact Hk].
      intros k' f' H. apply Hwb. right; exact H.
Qed.

Lemma last_cons_default {A} (x : A) s d d' :
  List.last (x :: s) d = List.last (x :: s) d'.
Proof.
  revert x; induction s as [|y s IH]; intros x; [reflexivity|].
  change (List.last (y :: s) d = List.last (y :: s) d'). apply IH.
Qed.

Lemma last_storesAlong l lp :
  List.last (EVENTS lp :: storesAlong l lp) (EVENTS lp) = EVENTS (runSteps l lp).
Proof.
  revert lp; induction l as [|[k0 f] l IH]; intros lp; [reflexivity|].
  rewrite runSteps_cons, <- IH.
  change (List.last (EVENTS (applyAt k0 f lp) :: storesAlong l (applyAt k0 f lp))
            (EVENTS lp)
          = List.last (EVENTS (applyAt k0 f lp) :: storesAlong l (applyAt k0 f lp))
              (EVENTS (applyAt k0 f lp))).
  apply last_cons_default.
Qed.

(** C4.  From each moment of an evaluation to the next (the
    acknowledgement, then every iteration of the device and metric loops)
    an entry stays in the store and its [lastFiredStage] does not decrease
    unless that very step clears the event: [firstSeenMs] and [lastSeenMs]
    back to null, stage 0.  The moments end in the store the call leaves
    behind.  Over devices with distinct identifiers every entry is visited
    at most once, and the same holds from the start of the cycle to its
    end. *)
Theorem stage_floor (input : Input) (E : EventStore) :
  (forall i Ei Ej k st,
     momentsOf input E !! i = Some Ei ->
     momentsOf input E !! S i = Some Ej ->
     Ei !! k = Some st ->
     exists st', Ej !! k = Some st' /\ floorKept st st')
  /\ List.last (momentsOf input E) E = snd (evaluateGlobal input E)
  /\ (NoDup (deviceId <$> devices input) ->
      forall k st,
        E !! k = Some st ->
        exists st',
          snd (evaluateGlobal input E) !! k = Some st'
          /\ (lastFiredStage st <= lastFiredStage st'
              \/ (firstSeenMs st' = None /\ lastSeenMs st' = None
                  /\ lastFiredStage st' = 0))).
Proof.
  split; [|split].
  - intros i Ei Ej k st Hi Hj Hk. unfold momentsOf in Hi, Hj.
    destruct i as [|i].
    + simpl in Hi, Hj. injection Hi as <-. injection Hj as <-.
      apply applyAck_floor. exact Hk.
    + apply (storesAlong_floor (nowMs input) (modalSnoozeMs input)
               (stepsOf input (devices input))
               {| EVENTS := applyAck input E; candidates := [] |} i Ei Ej k st);
        [apply stepsOf_wellBehaved | exact Hi | exact Hj | exact Hk].
  - unfold evaluateGlobal, momentsOf; simpl snd. rewrite collect_runSteps.
    rewrite <- last_storesAlong. simpl EVENTS.
    change (List.last (applyAck input E
                         :: storesAlong (stepsOf input (devices input))
                              {| EVENTS := applyAck input E; candidates := [] |}) E
            = List.last (applyAck input E
                           :: storesAlong (stepsOf input (devices input))
                                {| EVENTS := applyAck input E; candidates := [] |})
                (applyAck input E)).
    apply last_cons_default.
  - intros Hnd k st Hk. unfold evaluateGlobal; simpl.
    destruct (applyAck_entry input E k st Hk) as [a Ha].
    destruct (decide (k ∈ keysOf (stepsOf input (devices input)))) as [Hin|Hout].
    + apply elem_of_keysOf in Hin as [f Hin].
      pose proof (stepsOf_wellBehaved _ _ _ _ Hin) as Hwb.
      rewrite (collect_lookup_step input E k f Hnd Hin), Ha.
      destruct (wb_keeps _ _ _ _ Hwb (set_lastAckMs a st)) as [st' Hst'].
      exists st'. split; [exact Hst'|].
      exact (wb_floor _ _ _ _ Hwb _ _ Hst').
    + rewrite (collect_lookup_other input E k Hout), Ha. eexists. split; [reflexivity|].
      left. simpl. lia.
Qed.

Lemma stage_floor_witness :
  exists st',
    snd (evaluateGlobal (cfg (spiking (T0 + 400000)) (T0 + 400000) None) afterAck)
      !! spikeKey = Some st'
    /\ (2 <= lastFiredStage st'
        \/ (firstSeenMs st' = None /\ lastSeenMs st' = None /\ lastFiredStage st' = 0)).
Proof.
  refine (proj2 (proj2
    (stage_floor (cfg (spiking (T0 + 400000)) (T0 + 400000) None) afterAck)) _ spikeKey
      {| firstSeenMs := Some T0; lastSeenMs := Some (T0 + 1000);
         lastFiredStage := 2; lastToastMs := None; lastModalMs := None;
         lastCriticalMs := None; lastAckMs := Some (T0 + 1000) |} _).
  - apply NoDup_singleton.
  - vm_compute; reflexivity.
Defined.

(** ** Offline recovery *)

Lemma observing_entry input k f o :
  observing input k f ->
  exists st',
    fst (f o) = Some st'
    /\ firstSeenMs st' = firstSeenMs (markSeen (nowMs input) (entryOf o))
    /\ lastSeenMs st' = Some (nowMs input).
Proof.
  intros Hobs. destruct (Hobs o) as [Hsn Hns].
  destruct (isSnoozed (markSeen (nowMs input) (entryOf o)) (nowMs input)
              (modalSnoozeMs input)) eqn:Hs.
  - rewrite (Hsn eq_refl). eexists. split; [reflexivity|].
    split; [reflexivity | apply markSeen_lastSeen].
  - destruct (Hns eq_refl) as (c & st' & Hf & _ & _ & [(-> & _)|(-> & _)]);
      rewrite Hf; eexists; (split; [reflexivity|]).
    + split; [reflexivity | apply markSeen_lastSeen].
    + rewrite recordStage_firstSeen, recordStage_lastSeen.
      split; [reflexivity | apply markSeen_lastSeen].
Qed.

Lemma offlineAct_online input dev l o :
  lastDataMs dev = Some l -> l <> 0 -> nowMs input - l < warnMs input ->
  offlineAct input dev o = (clearEvent <$> o, []).
Proof.
  intros Hl Hl0 Hage. unfold offlineAct. rewrite Hl. simpl.
  destruct (Z.eqb_spec l 0); [contradiction|]. simpl.
  destruct (Z.leb_spec (warnMs input) (nowMs input - l)); [lia | reflexivity].
Qed.

(** C6.  When a device of the input (distinct identifiers) reports a
    last-data time [l], non-zero, with [now - l < warnMs], the offline
    event the store holds for it is cleared in that same cycle
    ([firstSeenMs] and [lastSeenMs] null, [lastFiredStage] 0), and no
    offline entry of the device keeps a first-seen time.  In the next
    cycle that finds the device offline, whatever its history before the
    recovery, [firstSeenMs] is the time of that cycle. *)
Theorem offline_recovery_resets_clock
    (input1 : Input) (E : EventStore) (dev1 : Device) (l : Z) :
  NoDup (deviceId <$> devices input1) ->
  dev1 ∈ devices input1 ->
  lastDataMs dev1 = Some l ->
  l <> 0 ->
  nowMs input1 - l < warnMs input1 ->
  let k := offlineKey (deviceId dev1) in
  let E1 := snd (evaluateGlobal input1 E) in
  (forall st, E !! k = Some st -> exists st1, E1 !! k = Some st1 /\ cleared st1)
  /\ (forall st1, E1 !! k = Some st1 -> firstSeenMs st1 = None)
  /\ (forall input2 dev2,
        NoDup (deviceId <$> devices input2) ->
        dev2 ∈ devices input2 ->
        deviceId dev2 = deviceId dev1 ->
        offlineCondition input2 dev2 = true ->
        exists st2,
          snd (evaluateGlobal input2 E1) !! k = Some st2
          /\ firstSeenMs st2 = Some (nowMs input2)).
Proof.
  intros Hnd Hin Hl Hl0 Hage k E1.
  assert (HE1 : E1 !! k = clearEvent <$> (applyAck input1 E !! k)).
  { subst E1 k. unfold evaluateGlobal; simpl.
    rewrite (collect_lookup_step input1 E _ _ Hnd (offline_step input1 _ _ Hin)).
    rewrite (offlineAct_online input1 dev1 l _ Hl Hl0 Hage). reflexivity. }
  assert (Hfirst : forall st1, E1 !! k = Some st1 -> firstSeenMs st1 = None).
  { intros st1. rewrite HE1. destruct (applyAck input1 E !! k); simpl; [|discriminate].
    intros [= <-]. reflexivity. }
  split; [|split; [exact Hfirst|]].
  - intros st Hk. rewrite HE1.
    destruct (applyAck_entry input1 E k st Hk) as [a ->]. simpl.
    eexists. split; [reflexivity | apply clearEvent_cleared].
  - intros input2 dev2 Hnd2 Hin2 Hid Hoff.
    pose proof (offline_step input2 _ _ Hin2) as Hstep. rewrite Hid in Hstep. fold k in Hstep.
    pose proof (offlineAct_observing input2 dev2 Hoff) as Hobs. rewrite Hid in Hobs. fold k in Hobs.
    unfold evaluateGlobal; simpl.
    rewrite (collect_lookup_step input2 E1 k _ Hnd2 Hstep).
    destruct (observing_entry input2 k _ (applyAck input2 E1 !! k) Hobs)
      as (st2 & Hst2 & Hf & _).
    exists st2. split; [exact Hst2|]. rewrite Hf, markSeen_firstSeen.
    destruct (applyAck_entryOf input2 E1 k) as [a ->]. simpl.
    assert (Hnone : firstSeenMs (entryOf (E1 !! k)) = None).
    { destruct (E1 !! k) as [st1|] eqn:H1; [apply Hfirst; reflexivity | reflexivity]. }
    rewrite Hnone. reflexivity.
Qed.

Lemma offline_recovery_resets_clock_witness :
  firstSeenMs (entryOf (snd (evaluateGlobal offlineTenMinutes ∅) !! "A:offline"%string))
  = Some T0
  /\ exists st2,
      snd (evaluateGlobal offlineAgain
             (snd (evaluateGlobal backOnline (snd (evaluateGlobal offlineTenMinutes ∅)))))
        !! "A:offline"%string = Some st2
      /\ firstSeenMs st2 = Some (T0 + 100000).
Proof.
  split; [vm_compute; reflexivity|].
  refine (proj2 (proj2
    (offline_recovery_resets_clock backOnline (snd (evaluateGlobal offlineTenMinutes ∅))
       (device "A" [] (Some (T0 + 9000))) (T0 + 9000) _ _ eq_refl _ _))
    offlineAgain (device "A" [] (Some (T0 + 9000))) _ _ eq_refl _).
  - apply NoDup_singleton.
  - left.
  - vm_compute; discriminate.
  - vm_compute; reflexivity.
  - apply NoDup_singleton.
  - left.
  - vm_compute; reflexivity.
Defined.

(** ** Repeating an evaluation *)

Lemma emitted_ext_in l (E E' : EventStore) :
  (forall k f, (k, f) ∈ l -> snd (f (E !! k)) = snd (f (E' !! k))) ->
  emitted l E = emitted l E'.
Proof.
  induction l as [|[k f] l IH]; intros HE; [reflexivity|].
  change (emitted ((k, f) :: l) E) with (snd (f (E !! k)) ++ emitted l E).
  change (emitted ((k, f) :: l) E') with (snd (f (E' !! k)) ++ emitted l E').
  rewrite (HE k f) by left. f_equal. apply IH.
  intros k' f' H. apply HE. right; exact H.
Qed.

Lemma applyAck_none input (E : EventStore) :
  ackEventKey input = None -> applyAck input E = E.
Proof. intros H. unfold applyAck. rewrite H. reflexivity. Qed.

(** C9.  Over devices with distinct identifiers and with no
    [ackEventKey], a second call of [evaluateGlobal] with the same input,
    on the store the first call left behind, returns the result of the
    first call (and leaves the store as it found it), whatever store the
    first call started from. *)
Theorem evaluateGlobal_idempotent (input : Input) (E : EventStore) :
  NoDup (deviceId <$> devices input) ->
  ackEventKey input = None ->
  evaluateGlobal input (snd (evaluateGlobal input E)) = evaluateGlobal input E.
Proof.
  intros Hnd Hack. unfold evaluateGlobal. simpl snd.
  set (steps := stepsOf input (devices input)).
  set (E1 := EVENTS (collect input E)).
  assert (Hwb : forall k f, (k, f) ∈ steps ->
                  wellBehaved (nowMs input) (modalSnoozeMs input) k f)
    by apply stepsOf_wellBehaved.
  assert (HE1 : forall k f, (k, f) ∈ steps -> E1 !! k = fst (f (E !! k))).
  { intros k f Hin. subst E1. rewrite (collect_lookup_step input E k f Hnd Hin).
    rewrite applyAck_none by exact Hack. reflexivity. }
  assert (Hc : candidates (collect input E1) = candidates (collect input E)).
  { rewrite !collect_candidates, !applyAck_none by assumption.
    apply emitted_ext_in. intros k f Hin. fold steps in Hin.
    rewrite (HE1 k f Hin), (wb_idem _ _ _ _ (Hwb k f Hin)). reflexivity. }
  assert (Hs : EVENTS (collect input E1) = E1).
  { apply map_eq. intros k.
    destruct (decide (k ∈ keysOf steps)) as [Hin|Hout].
    - apply elem_of_keysOf in Hin as [f Hin].
      rewrite (collect_lookup_step input E1 k f Hnd Hin), applyAck_none by exact Hack.
      rewrite (HE1 k f Hin), (wb_idem _ _ _ _ (Hwb k f Hin)). reflexivity.
    - rewrite (collect_lookup_other input E1 k Hout), applyAck_none by exact Hack.
      reflexivity. }
  rewrite Hc, Hs. reflexivity.
Qed.

Lemma evaluateGlobal_idempotent_witness :
  evaluateGlobal (cfg (spiking T0) T0 None) afterFirst
  = evaluateGlobal (cfg (spiking T0) T0 None) ∅.
Proof.
  apply (evaluateGlobal_idempotent (cfg (spiking T0) T0 None) ∅).
  - apply NoDup_singleton.
  - reflexivity.
Defined.

(** ** What a candidate is evidence of *)

Lemma offlineAct_emits input dev o c :
  c ∈ snd (offlineAct input dev o) -> offlineCondition input dev = true.
Proof.
  unfold offlineAct, offlineCondition.
  destruct (negb (truthy (lastDataMs dev))); [reflexivity|]. simpl.
  destruct (warnMs input <=? _); [reflexivity|]. simpl.
  intros Hc. apply elem_of_nil in Hc. destruct Hc.
Qed.

Lemma anomalyAct_emits input dev m o c :
  c ∈ snd (anomalyAct input dev m o) ->
  negb (length (series (rows dev) m) <? 3)%nat && active m (series (rows dev) m) = true.
Proof.
  unfold anomalyAct. destruct (length _ <? 3)%nat; simpl.
  { intros Hc. apply elem_of_nil in Hc. destruct Hc. }
  destruct (active m _); [reflexivity|]. simpl.
  destruct o; simpl; intros Hc; apply elem_of_nil in Hc; destruct Hc.
Qed.

Lemma collect_provenance input (E : EventStore) c :
  c ∈ candidates (collect input E) -> conditionActive input (Candidate.eventKey c).
Proof.
  intros Hc. rewrite collect_runSteps in Hc.
  apply (runSteps_provenance (nowMs input) (modalSnoozeMs input)) in Hc;
    [|apply stepsOf_wellBehaved].
  destruct Hc as [Hc|(f & o & Hin & Hc & _)]; [apply elem_of_nil in Hc; destruct Hc|].
  apply stepsOf_inv in Hin as [(dev & Hdev & Hk & ->)|(dev & m & Hdev & Hr & Hk & ->)];
    exists dev; (split; [exact Hdev|]).
  - left. split; [exact Hk | apply (offlineAct_emits _ _ _ _ Hc)].
  - right. exists m. split; [exact Hk|]. unfold anomalyCondition.
    rewrite Hr. apply (anomalyAct_emits _ _ _ _ _ Hc).
Qed.

Lemma device_unique (devs : list Device) dev dev' :
  NoDup (deviceId <$> devs) ->
  dev ∈ devs -> dev' ∈ devs -> deviceId dev = deviceId dev' -> dev = dev'.
Proof.
  induction devs as [|d devs IH]; intros Hnd Hin Hin' Hid.
  - apply elem_of_nil in Hin; destruct Hin.
  - rewrite fmap_cons in Hnd. apply NoDup_cons in Hnd as [Hd Hnd].
    apply elem_of_cons in Hin as [->|Hin]; apply elem_of_cons in Hin' as [->|Hin'].
    + reflexivity.
    + destruct Hd. rewrite Hid. apply list_elem_of_fmap_2. exact Hin'.
    + destruct Hd. rewrite <- Hid. apply list_elem_of_fmap_2. exact Hin.
    + apply IH; assumption.
Qed.

(** With distinct identifiers, the steps on the anomaly key of a device
    of the input are those of that device. *)
Lemma anomaly_key_step input dev m f :
  NoDup (deviceId <$> devices input) ->
  dev ∈ devices input ->
  (anomalyKey (deviceId dev) m, f) ∈ stepsOf input (devices input) ->
  reachesAnomaly dev = true /\ f = anomalyAct input dev m.
Proof.
  intros Hnd Hdev Hin.
  apply stepsOf_inv in Hin as [(dev' & _ & Hk & _)|(dev' & m' & Hdev' & Hr & Hk & ->)].
  - symmetry in Hk. destruct (offlineKey_anomalyKey _ _ _ Hk).
  - apply anomalyKey_inj in Hk as [Hid <-].
    rewrite (device_unique _ _ _ Hnd Hdev Hdev' Hid). auto.
Qed.

Lemma anomaly_key_lookup input (E : EventStore) dev m :
  NoDup (deviceId <$> devices input) ->
  dev ∈ devices input ->
  EVENTS (collect input E) !! anomalyKey (deviceId dev) m
  = if reachesAnomaly dev
    then fst (anomalyAct input dev m (applyAck input E !! anomalyKey (deviceId dev) m))
    else applyAck input E !! anomalyKey (deviceId dev) m.
Proof.
  intros Hnd Hdev. destruct (reachesAnomaly dev) eqn:Hr.
  - apply collect_lookup_step; [exact Hnd | apply anomaly_step; assumption].
  - apply collect_lookup_other. intros Hk. apply elem_of_keysOf in Hk as [f Hin].
    destruct (anomaly_key_step _ _ _ _ Hnd Hdev Hin) as [Hr' _]. congruence.
Qed.

Lemma anomaly_key_candidates input (E : EventStore) dev m c :
  NoDup (deviceId <$> devices input) ->
  dev ∈ devices input ->
  c ∈ candidates (collect input E) ->
  Candidate.eventKey c = anomalyKey (deviceId dev) m ->
  reachesAnomaly dev = true /\ exists o, c ∈ snd (anomalyAct input dev m o).
Proof.
  intros Hnd Hdev Hc Hk. rewrite collect_runSteps in Hc.
  apply (runSteps_provenance (nowMs input) (modalSnoozeMs input)) in Hc;
    [|apply stepsOf_wellBehaved].
  destruct Hc as [Hc|(f & o & Hin & Hc & _)]; [apply elem_of_nil in Hc; destruct Hc|].
  rewrite Hk in Hin. destruct (anomaly_key_step _ _ _ _ Hnd Hdev Hin) as [Hr ->]. eauto.
Qed.

Lemma sameDeltas_anomalyDetection input dev dev' lp m :
  sameDeltas dev dev' ->
  anomalyDetection input dev lp m = anomalyDetection input dev' lp m.
Proof.
  intros (Hid & Hname & _ & Hview). specialize (Hview m).
  unfold thresholdView in Hview. injection Hview as Hlen Hstep H5 H10.
  unfold anomalyDetection, anomalyCandidate, displayName, active, dUse,
    spikeHit, slow5Hit, slow10Hit.
  rewrite Hid, Hname, Hlen, Hstep, H5, H10. reflexivity.
Qed.

Lemma sameDeltas_offlineDetection input dev dev' lp :
  sameDeltas dev dev' ->
  offlineDetection input dev lp = offlineDetection input dev' lp.
Proof.
  intros (Hid & Hname & Hlast & _).
  unfold offlineDetection, offlineActive, offlineCandidate, displayName.
  rewrite Hid, Hname, Hlast. reflexivity.
Qed.

Lemma sameDeltas_evaluateDevice input dev dev' lp :
  sameDeltas dev dev' ->
  evaluateDevice input lp dev = evaluateDevice input lp dev'.
Proof.
  intros Hsame. unfold evaluateDevice, reachesAnomaly.
  rewrite (sameDeltas_offlineDetection input dev dev' lp Hsame).
  rewrite (proj1 (proj2 (proj2 Hsame))).
  destruct (truthy (lastDataMs dev')); [|reflexivity].
  generalize (offlineDetection input dev' lp). unfold metrics. intros lp0. simpl.
  rewrite !(sameDeltas_anomalyDetection input dev dev' _ _ Hsame). reflexivity.
Qed.

Lemma sameDeltas_collect input devs' (E : EventStore) :
  Forall2 sameDeltas (devices input) devs' ->
  collect (withDevices input devs') E = collect input E.
Proof.
  intros Hall. unfold collect.
  change (applyAck (withDevices input devs') E) with (applyAck input E).
  change (devices (withDevices input devs')) with devs'.
  change (evaluateDevice (withDevices input devs')) with (evaluateDevice input).
  generalize {| EVENTS := applyAck input E; candidates := [] |}.
  induction Hall as [|dev dev' devs devs' Hsame _ IH]; intros lp; [reflexivity|].
  simpl. rewrite (sameDeltas_evaluateDevice input dev dev' lp Hsame). apply IH.
Qed.

(** C8.  The global engine is determined by the delta thresholds, and by
    nothing else about the readings.
    - Two arrays of devices that agree on identifiers, names, last-data
      times and, for every metric, on whether there are three samples and
      on the step, 5-minute and 10-minute deltas, give the same store,
      the same candidates and the same result, whatever else their rows
      (and so their means and dispersions) are.
    - Every candidate, toast or modal is for an offline device or for a
      metric of a device with data and at least three samples whose step,
      5-minute or 10-minute delta reaches its threshold.
    - A metric none of whose deltas reaches its threshold (distinct
      identifiers, its key not acknowledged in the call) shows no anomaly
      activity: no candidate is produced for it, and its entry is not
      created, not marked as seen and its stage is not raised; it is left
      as it is, or cleared. *)
Theorem global_candidates_from_thresholds (input : Input) (E : EventStore) :
  (forall devs',
     Forall2 sameDeltas (devices input) devs' ->
     evaluateGlobal (withDevices input devs') E = evaluateGlobal input E
     /\ candidates (collect (withDevices input devs') E) = candidates (collect input E))
  /\ (forall k,
        (exists c, c ∈ candidates (collect input E) /\ Candidate.eventKey c = k)
        \/ (exists n, (toast (fst (evaluateGlobal input E)) = Some n
                       \/ modal (fst (evaluateGlobal input E)) = Some n)
                      /\ Notification.eventKey n = k) ->
        exists dev,
          dev ∈ devices input
          /\ ((k = offlineKey (deviceId dev) /\ offlineCondition input dev = true)
              \/ exists m,
                  let pts := series (rows dev) m in
                  k = anomalyKey (deviceId dev) m
                  /\ reachesAnomaly dev = true
                  /\ (3 <= length pts)%nat
                  /\ (hit (lastStepDelta pts) (spike (TH m)) = true
                      \/ hit (d5 pts) (slow5m (TH m)) = true
                      \/ hit (d10 pts) (slow10m (TH m)) = true)))
  /\ (forall dev m,
        NoDup (deviceId <$> devices input) ->
        dev ∈ devices input ->
        let pts := series (rows dev) m in
        let k := anomalyKey (deviceId dev) m in
        hit (lastStepDelta pts) (spike (TH m)) = false ->
        hit (d5 pts) (slow5m (TH m)) = false ->
        hit (d10 pts) (slow10m (TH m)) = false ->
        ackEventKey input <> Some k ->
        (forall c, c ∈ candidates (collect input E) -> Candidate.eventKey c <> k)
        /\ (snd (evaluateGlobal input E) !! k = E !! k
            \/ exists st, E !! k = Some st
                          /\ snd (evaluateGlobal input E) !! k = Some (clearEvent st))).
Proof.
  split; [|split].
  - intros devs' Hsame. unfold evaluateGlobal.
    rewrite (sameDeltas_collect input devs' E Hsame). split; reflexivity.
  - intros k H.
    assert (Hact : conditionActive input k).
    { destruct H as [(c & Hc & <-)|(n & Hn & <-)]; [apply (collect_provenance _ E); exact Hc|].
      unfold evaluateGlobal, arbitrate in Hn. simpl in Hn.
      destruct (topCandidate _) as [top|] eqn:Htop; [|destruct Hn; discriminate].
      apply topCandidate_elem in Htop.
      destruct (_ =? 3); simpl in Hn; destruct Hn as [Hn|Hn]; try discriminate;
        injection Hn as <-; apply (collect_provenance _ E); exact Htop. }
    destruct Hact as (dev & Hdev & [Hoff|(m & Hk & Hc)]); exists dev; (split; [exact Hdev|]);
      [left; exact Hoff|].
    right. exists m. cbv zeta. split; [exact Hk|].
    unfold anomalyCondition in Hc. apply andb_prop in Hc as [Hc Hactive].
    apply andb_prop in Hc as [Hr Hlen]. apply negb_true_iff, Nat.ltb_ge in Hlen.
    split; [exact Hr|]. split; [exact Hlen|].
    unfold active, spikeHit, slow5Hit, slow10Hit, step in Hactive.
    apply orb_prop in Hactive as [Hactive|H10]; [|auto].
    apply orb_prop in Hactive as [Hs|H5]; auto.
  - intros dev m Hnd Hdev pts k Hs H5 H10 Hack. subst pts k.
    assert (Hactive : active m (series (rows dev) m) = false).
    { unfold active, spikeHit, slow5Hit, slow10Hit, step. rewrite Hs, H5, H10. reflexivity. }
    assert (Hf : forall o,
               snd (anomalyAct input dev m o) = []
               /\ (fst (anomalyAct input dev m o) = o
                   \/ exists st, o = Some st
                                 /\ fst (anomalyAct input dev m o) = Some (clearEvent st))).
    { intros o. unfold anomalyAct.
      destruct (length (series (rows dev) m) <? 3)%nat; [split; [reflexivity | left; reflexivity]|].
      rewrite Hactive. simpl. destruct o as [st|]; simpl; [|split; [reflexivity | left; reflexivity]].
      split; [reflexivity|].
      destruct (repeatWindowMs input <? quietFor input st); [right; eauto | left; reflexivity]. }
    split.
    + intros c Hc Hkc.
      destruct (anomaly_key_candidates input E dev m c Hnd Hdev Hc Hkc) as [_ [o Ho]].
      rewrite (proj1 (Hf o)) in Ho. apply elem_of_nil in Ho. exact Ho.
    + unfold evaluateGlobal. simpl.
      rewrite (anomaly_key_lookup input E dev m Hnd Hdev).
      rewrite (applyAck_other _ _ _ Hack).
      destruct (reachesAnomaly dev); [|left; reflexivity].
      destruct (proj2 (Hf (E !! anomalyKey (deviceId dev) m))) as [->|(st & Hst & ->)];
        [left; reflexivity | right; eauto].
Qed.

Lemma global_candidates_from_thresholds_witness :
  zAnomaly (series gentleBump Temperature) 2.8 = true
  /\ zAnomaly (series choppy Temperature) 2.8 = false
  /\ evaluateGlobal (withDevices (cfg bumpDevice T0 None) choppyDevice) afterFirst
     = evaluateGlobal (cfg bumpDevice T0 None) afterFirst
  /\ (forall c, c ∈ candidates (collect (cfg bumpDevice T0 None) ∅) ->
        Candidate.eventKey c <> "Z:Temperature:anomaly"%string)
  /\ (exists dev m,
        dev ∈ spiking T0
        /\ spikeKey = anomalyKey (deviceId dev) m
        /\ hit (lastStepDelta (series (rows dev) m)) (spike (TH m)) = true).
Proof.
  split; [vm_compute; reflexivity|]. split; [vm_compute; reflexivity|]. split; [|split].
  - apply (proj1 (global_candidates_from_thresholds (cfg bumpDevice T0 None) afterFirst)).
    constructor; [|constructor].
    repeat split; try reflexivity. intros []; vm_compute; reflexivity.
  - refine (proj1 (proj2 (proj2 (global_candidates_from_thresholds
              (cfg bumpDevice T0 None) ∅)) (device "Z" gentleBump (Some T0)) Temperature
              _ _ _ _ _ _)).
    + apply NoDup_singleton.
    + left.
    + vm_compute; reflexivity.
    + vm_compute; reflexivity.
    + vm_compute; reflexivity.
    + discriminate.
  - destruct (proj1 (proj2 (global_candidates_from_thresholds (cfg (spiking T0) T0 None) ∅))
                spikeKey)
      as (dev & Hdev & [[Hk _]|(m & Hk & _ & _ & Hhit)]).
    + left. eexists. split; [vm_compute; left | reflexivity].
    + symmetry in Hk. destruct (offlineKey_anomalyKey _ "B" Temperature Hk).
    + exists dev, m. split; [exact Hdev|]. split; [exact Hk|].
      apply list_elem_of_singleton in Hdev. subst dev.
      change spikeKey with (anomalyKey "B" Temperature) in Hk.
      apply anomalyKey_inj in Hk as [_ <-]. vm_compute. reflexivity.
Defined.

(** The series of [gentleBump] is flagged by the z-score check with the
    parameters of the selected-device feed, reaches no threshold, and
    leaves the global engine silent.  The earlier version of the module,
    which fed the z-score into the activity test, counts it as active. *)
Lemma zscore_alone_is_silent :
  zAnomaly (lastN (series gentleBump Temperature) 30) 2.8 = true
  /\ active Temperature (series gentleBump Temperature) = false
  /\ candidates (collect (cfg bumpDevice T0 None) ∅) = []
  /\ fst (evaluateGlobal (cfg bumpDevice T0 None) ∅)
     = {| toast := None; modal := None; lang := en |}
  /\ Previous.active Temperature (series gentleBump Temperature) = true.
Proof. repeat split; vm_compute; reflexivity. Qed.

(** ** The scenarios of the specification *)

(** Device A, last heard from six minutes ago: offline at stage 2. *)
Example scenario_offline_six_minutes :
  candidates (collect (cfg [device "A" [] (Some (T0 - 360000))] T0 None) ∅)
  = [ {| Candidate.stage := 2;
         Candidate.level := "modal";
         Candidate.eventKey := "A:offline";
         Candidate.text := OFFLINE_ALERT en "A" 6 0;
         Candidate.deviceName := "A";
         Candidate.metric := "offline";
         Candidate.seenSinceMs := Some T0 |} ].
Proof. vm_compute. reflexivity. Qed.

(** Device B, temperature 20.0 to 24.0 in one step: stage 2 on first
    detection, reporting the step delta of 4. *)
Example scenario_temperature_step :
  List.map (fun c => (Candidate.stage c, Candidate.eventKey c, Candidate.text c))
    (candidates (collect (cfg (spiking T0) T0 None) ∅))
  = [ (2, spikeKey,
       TOAST_SPIKE en Temperature "B"
         (Some {| d := 4; fromMs := T0 - 10000; toMs := T0;
                  first := 20; last := 24 |})) ].
Proof. vm_compute. reflexivity. Qed.

(** A step from 1.3 to 4.3: the difference of the two doubles, computed as
    the engine computes it, is 3, and the spike threshold of 3.0 is
    reached. *)
Example scenario_step_at_threshold :
  List.map (fun c => (Candidate.stage c, Candidate.eventKey c, Candidate.text c))
    (candidates
       (collect (cfg [device "B" [tempRow (T0 - 20000) 1.3; tempRow (T0 - 10000) 1.3;
                                  tempRow T0 4.3] (Some T0)] T0 None) ∅))
  = [ (2, spikeKey,
       TOAST_SPIKE en Temperature "B"
         (Some {| d := 3; fromMs := T0 - 10000; toMs := T0;
                  first := 1.3; last := 4.3 |})) ].
Proof. vm_compute. reflexivity. Qed.

(** Twelve samples at 10000000.1: their mean is not 10000000.1 in
    binary64, the dispersion computed from it is above 1e-9, and the
    dispersion check flags the flat series for a threshold of 0.5. *)
Example scenario_flat_series_flagged :
  zAnomaly
    (series (List.map (fun i => tempRow (T0 + 10000 * Z.of_nat i) 10000000.1) (seq 0 12))
       Temperature) 0.5
  = true.
Proof. vm_compute. reflexivity. Qed.

(** The same anomaly first seen 31 minutes ago: stage 3, "persisted" text
    with 31 minutes. *)
Example scenario_persisted :
  List.map (fun c => (Candidate.stage c, Candidate.level c, Candidate.text c))
    (candidates (collect (cfg (spiking T0) T0 None) persistedStore))
  = [ (3, "critical"%string, MODAL_PERSIST en "B" Temperature 31) ].
Proof. vm_compute. reflexivity. Qed.

(** * Further properties *)

(** ** Helpers (time + math) *)

(** X1.  [series] keeps the order of the rows and works row by row: the
    series of a concatenation is the concatenation of the series; it never
    has more points than there are rows; and its points are exactly the
    rows whose field is a finite number and whose timestamp resolves to a
    non-zero time. *)
Theorem series_rows (rows1 rows2 : list Row) (key : Metric) :
  series (rows1 ++ rows2) key = series rows1 key ++ series rows2 key
  /\ (length (series rows1 key) <= length rows1)%nat
  /\ forall p,
      p ∈ series rows1 key
      <-> exists r, r ∈ rows1
                    /\ clampNum (field r key) = Some (v p)
                    /\ tsToMs (timestamp r) = Some (ms p)
                    /\ ms p <> 0.
Proof.
  split; [|split].
  - induction rows1 as [|r rows1 IH]; simpl; [reflexivity|].
    destruct (clampNum (field r key)) as [q|]; [|exact IH].
    destruct (tsToMs (timestamp r)) as [t|]; [|exact IH].
    simpl. destruct (t =? 0); simpl; [|f_equal]; exact IH.
  - induction rows1 as [|r rows1 IH]; simpl; [lia|].
    destruct (clampNum (field r key)) as [q|]; [|lia].
    destruct (tsToMs (timestamp r)) as [t|]; [|lia].
    simpl. destruct (t =? 0); simpl; lia.
  - intros [t q]. induction rows1 as [|r rows1 IH]; simpl.
    + split; [intros H; apply elem_of_nil in H; destruct H|].
      intros (r & H & _). apply elem_of_nil in H; destruct H.
    + assert (Hstep : (exists r0, r0 ∈ r :: rows1
                          /\ clampNum (field r0 key) = Some q
                          /\ tsToMs (timestamp r0) = Some t /\ t <> 0)
                      <-> (clampNum (field r key) = Some q
                           /\ tsToMs (timestamp r) = Some t /\ t <> 0)
                          \/ {| ms := t; v := q |} ∈ series rows1 key).
      { rewrite IH. simpl. split.
        - intros (r0 & Hin & H). apply elem_of_cons in Hin as [->|Hin]; [left; exact H|].
          right. exists r0. split; assumption.
        - intros [H|(r0 & Hin & H)]; [exists r; split; [left | exact H]|].
          exists r0. split; [right; exact Hin | exact H]. }
      simpl in Hstep. rewrite Hstep. clear Hstep IH.
      destruct (clampNum (field r key)) as [q'|];
        [|split; [auto | intros [(H & _)|H]; [discriminate | exact H]]].
      destruct (tsToMs (timestamp r)) as [t'|];
        [|split; [auto | intros [(_ & H & _)|H]; [discriminate | exact H]]].
      simpl. destruct (Z.eqb_spec t' 0) as [H0|H0]; simpl.
      * split; [auto|]. intros [(_ & [= ->] & Hne)|H]; [contradiction | exact H].
      * rewrite elem_of_cons. split.
        -- intros [[= -> ->]|H]; [left; repeat split; assumption | right; exact H].
        -- intros [([= ->] & [= ->] & _)|H]; [left; reflexivity | right; exact H].
Qed.

(** X2.  A numeric timestamp never resolves to 0; from 10^12 on it is
    taken as milliseconds and returned unchanged, below that as seconds
    and multiplied by 1000; so a time in seconds from 10^9 on resolves to
    a value that [tsToMs] returns unchanged when given it again. *)
Theorem tsToMs_number (n t : Z) :
  tsToMs (TsNumber n) = Some t ->
  t <> 0
  /\ (1000000000000 <= n -> t = n)
  /\ (n < 1000000000000 -> t = 1000 * n)
  /\ (1000000000 <= n -> tsToMs (TsNumber t) = Some t).
Proof.
  unfold tsToMs. destruct (Z.eqb_spec n 0) as [|Hn]; [discriminate|].
  destruct (Z.ltb_spec n 1000000000000) as [Hlt|Hge]; intros [= <-].
  - split; [lia|]. split; [lia|]. split; [lia|]. intros Hsec.
    destruct (Z.eqb_spec (n * 1000) 0); [lia|].
    destruct (Z.ltb_spec (n * 1000) 1000000000000); [lia | reflexivity].
  - split; [lia|]. split; [reflexivity|]. split; [lia|]. intros _.
    destruct (Z.eqb_spec n 0); [lia|].
    destruct (Z.ltb_spec n 1000000000000); [lia | reflexivity].
Qed.

Lemma tsToMs_number_witness :
  1700000000000 <> 0 /\ tsToMs (TsNumber 1700000000000) = Some 1700000000000.
Proof.
  destruct (tsToMs_number 1700000000 1700000000000 eq_refl) as (H0 & _ & _ & Hfix).
  split; [exact H0 | apply Hfix; vm_compute; discriminate].
Defined.

(** X3.  [lastN arr n] has [min (length arr) n] elements and is the end
    of [arr]: nothing is reordered or dropped from the tail, and [n = 0]
    gives the empty array. *)
Theorem lastN_suffix {A} (arr : list A) (n : nat) :
  length (lastN arr n) = Nat.min (length arr) n
  /\ exists front, arr = front ++ lastN arr n.
Proof.
  unfold lastN. destruct (Nat.leb_spec (length arr) n) as [Hle|Hgt].
  - split; [lia | exists []; reflexivity].
  - split.
    + rewrite length_skipn. lia.
    + exists (firstn (length arr - n) arr). symmetry. apply firstn_skipn.
Qed.

Lemma deltaOverWindow_cases (points : list Point) (from to : Z) :
  (deltaOverWindow points from to = None
   <-> (length (within points from to) < 2)%nat)
  /\ forall dl,
      deltaOverWindow points from to = Some dl ->
      exists a b mid,
        within points from to = a :: mid ++ [b]
        /\ dl = {| d := (v b - v a)%float; fromMs := ms a; toMs := ms b;
                   first := v a; last := v b |}
        /\ from <= ms a <= to
        /\ from <= ms b <= to
        /\ a ∈ points
        /\ b ∈ points.
Proof.
  unfold deltaOverWindow. fold (within points from to).
  assert (Hin : forall p, p ∈ within points from to ->
                  p ∈ points /\ from <= ms p <= to).
  { intros p Hp. unfold within in Hp. apply list_elem_of_In, filter_In in Hp as [Hp Hw].
    apply andb_prop in Hw as [H1 H2]. apply Z.leb_le in H1, H2.
    split; [apply list_elem_of_In; exact Hp | lia]. }
  destruct (within points from to) as [|a [|b rest]] eqn:Hw.
  - split; [split; [simpl; lia | reflexivity] | discriminate].
  - split; [split; [simpl; lia | reflexivity] | discriminate].
  - split; [split; [discriminate | simpl; lia]|].
    intros dl Hd.
    destruct (exists_last (l := b :: rest)) as (mid & x & Hx); [discriminate|].
    assert (Hl : List.last (a :: b :: rest) a = x).
    { rewrite Hx. change (a :: mid ++ [x]) with ((a :: mid) ++ [x]). apply last_last. }
    rewrite Hl in Hd. injection Hd as <-.
    destruct (Hin a) as [Hap Haw]; [left|].
    destruct (Hin x) as [Hxp Hxw].
    { right. rewrite Hx. apply elem_of_app. right. left. }
    exists a, x, mid. rewrite Hx. unfold mkDelta.
    split; [reflexivity|]. split; [reflexivity|]. repeat split; assumption || lia.
Qed.

(** X4.  [deltaOverWindow] answers null exactly when fewer than two points
    lie in the window.  Otherwise the delta runs from the first point of
    the array that lies in the window to the last one that does: its
    times and values are those of these two points, and [d] is the
    difference of their values as the engine computes it, in binary64. *)
Theorem deltaOverWindow_window (points : list Point) (from to : Z) :
  (deltaOverWindow points from to = None
   <-> (length (within points from to) < 2)%nat)
  /\ forall dl,
      deltaOverWindow points from to = Some dl ->
      exists a b mid,
        within points from to = a :: mid ++ [b]
        /\ dl = {| d := (v b - v a)%float; fromMs := ms a; toMs := ms b;
                   first := v a; last := v b |}
        /\ from <= ms a <= to
        /\ from <= ms b <= to
        /\ a ∈ points
        /\ b ∈ points.
Proof. apply deltaOverWindow_cases. Qed.

Lemma deltaOverWindow_window_witness :
  exists dl a b mid,
    deltaOverWindow (series gentleBump Temperature) (T0 - 50000) T0 = Some dl
    /\ within (series gentleBump Temperature) (T0 - 50000) T0 = a :: mid ++ [b]
    /\ d dl = (v b - v a)%float
    /\ T0 - 50000 <= ms a.
Proof.
  destruct (deltaOverWindow (series gentleBump Temperature) (T0 - 50000) T0)
    as [dl|] eqn:Hd; [|vm_compute in Hd; discriminate].
  destruct (proj2 (deltaOverWindow_window (series gentleBump Temperature)
                     (T0 - 50000) T0) dl Hd) as (a & b & mid & Hw & -> & Ha & _).
  eexists. exists a, b, mid. split; [reflexivity|]. split; [exact Hw|].
  split; [reflexivity | apply Ha].
Defined.

(** X5.  For a window that is not negative, a windowed delta ends at the
    newest sample of the array, whatever the time order of the samples
    before it: [toMs] and [last] are the time and the value of the last
    point, and [fromMs] lies in the window that ends there. *)
Theorem deltaFromWindow_ends_at_last (points : list Point) (windowMs : Z) (dl : Delta) :
  0 <= windowMs ->
  deltaFromWindow points windowMs = Some dl ->
  exists front b,
    points = front ++ [b]
    /\ toMs dl = ms b
    /\ last dl = v b
    /\ ms b - windowMs <= fromMs dl <= ms b.
Proof.
  intros Hw. unfold deltaFromWindow.
  destruct (List.rev points) as [|b [|a rest]] eqn:Hrev; try discriminate.
  intros Hd.
  assert (Hpts : points = List.rev (a :: rest) ++ [b]).
  { rewrite <- (rev_involutive points), Hrev. reflexivity. }
  exists (List.rev (a :: rest)), b. split; [exact Hpts|].
  assert (Hfrom : ms b - windowMs <= fromMs dl <= ms b).
  { destruct (proj2 (deltaOverWindow_cases points (ms b - windowMs) (ms b)) dl Hd)
      as (a0 & b0 & mid0 & _ & -> & Ha0 & _). exact Ha0. }
  unfold deltaOverWindow in Hd.
  set (keep := fun p : Point => (ms b - windowMs <=? ms p) && (ms p <=? ms b)) in *.
  assert (Hfilter : List.filter keep points
                    = List.filter keep (List.rev (a :: rest)) ++ [b]).
  { rewrite Hpts at 1. rewrite List.filter_app. simpl. unfold keep at 2.
    destruct (Z.leb_spec (ms b - windowMs) (ms b)); [|lia].
    destruct (Z.leb_spec (ms b) (ms b)); [|lia]. reflexivity. }
  rewrite Hfilter in Hd.
  assert (Hlast : forall d0,
             List.last (List.filter keep (List.rev (a :: rest)) ++ [b]) d0 = b)
    by (intros d0; apply last_last).
  destruct (List.filter keep (List.rev (a :: rest)) ++ [b]) as [|x [|y l]] eqn:Hl;
    try discriminate.
  injection Hd as <-. pose proof (Hlast x) as Hx.
  unfold mkDelta in *. cbn in Hx, Hfrom |- *. rewrite Hx. split; [reflexivity|]. split; [reflexivity|]. exact Hfrom.
Qed.

Lemma deltaFromWindow_ends_at_last_witness :
  exists dl front b,
    deltaFromWindow (series gentleBump Temperature) WIN_5M = Some dl
    /\ series gentleBump Temperature = front ++ [b]
    /\ toMs dl = ms b.
Proof.
  destruct (deltaFromWindow (series gentleBump Temperature) WIN_5M)
    as [dl|] eqn:Hd; [|vm_compute in Hd; discriminate].
  destruct (deltaFromWindow_ends_at_last (series gentleBump Temperature) WIN_5M dl)
    as (front & b & Hpts & Hto & _); [vm_compute; discriminate | exact Hd |].
  exists dl, front, b. repeat split; assumption.
Defined.

(** ** Event store *)

(** X7.  [getOrInitEvent] is the one way an entry comes to exist: the
    entry it returns is the one the store holds under the key afterwards;
    an existing entry is returned as it is and the store is not changed; a
    missing one is created with the defaults; no other key is touched; and
    asking again returns the same entry and the same store. *)
Theorem getOrInitEvent_lookup (k : string) (E : EventStore) :
  let E' := fst (getOrInitEvent k E) in
  let st := snd (getOrInitEvent k E) in
  E' !! k = Some st
  /\ (forall st0, E !! k = Some st0 -> E' = E /\ st = st0)
  /\ (E !! k = None -> st = initEvent)
  /\ (forall k', k' <> k -> E' !! k' = E !! k')
  /\ getOrInitEvent k E' = (E', st).
Proof.
  unfold getOrInitEvent. destruct (E !! k) as [st0|] eqn:Hk; simpl.
  - rewrite Hk. repeat split; congruence.
  - rewrite lookup_insert_eq. repeat split; try congruence.
    intros k' Hne. apply lookup_insert_ne. congruence.
Qed.

(** X8.  An acknowledgement of a non-empty key writes [lastAckMs] and
    nothing else: the other fields of the entry are those it had (the
    defaults if it did not exist), other keys are untouched, and of two
    acknowledgements the later one wins.  The empty key is ignored. *)
Theorem acknowledgeEvent_only_ack (k : string) (t1 t2 : Z) (E : EventStore) :
  k <> ""%string ->
  (exists st,
     acknowledgeEvent k t1 E !! k = Some st
     /\ lastAckMs st = Some t1
     /\ firstSeenMs st = firstSeenMs (entryOf (E !! k))
     /\ lastSeenMs st = lastSeenMs (entryOf (E !! k))
     /\ lastFiredStage st = lastFiredStage (entryOf (E !! k)))
  /\ (forall k', k' <> k -> acknowledgeEvent k t1 E !! k' = E !! k')
  /\ acknowledgeEvent k t2 (acknowledgeEvent k t1 E) = acknowledgeEvent k t2 E
  /\ acknowledgeEvent "" t1 E = E.
Proof.
  intros Hk. split; [|split; [|split]].
  - eexists. split; [apply lookup_acknowledgeEvent_eq; exact Hk|]. repeat split.
  - intros k' Hne. apply lookup_acknowledgeEvent_ne. congruence.
  - apply map_eq. intros k'. destruct (decide (k = k')) as [<-|Hne].
    + rewrite !lookup_acknowledgeEvent_eq by exact Hk. reflexivity.
    + rewrite !lookup_acknowledgeEvent_ne by exact Hne. reflexivity.
  - reflexivity.
Qed.

Lemma acknowledgeEvent_only_ack_witness :
  acknowledgeEvent spikeKey (T0 + 5) (acknowledgeEvent spikeKey T0 afterFirst)
  = acknowledgeEvent spikeKey (T0 + 5) afterFirst.
Proof.
  apply (acknowledgeEvent_only_ack spikeKey T0 (T0 + 5) afterFirst).
  discriminate.
Defined.

(** X9.  A snooze runs out and does not come back by itself: an entry
    that is not snoozed at some time is not snoozed at any later time
    (until it is acknowledged again), and an entry that is snoozed has a
    non-zero acknowledgement time less than [snoozeMs] before now. *)
Theorem isSnoozed_expires (st : EventState) (t t' snoozeMs : Z) :
  t <= t' ->
  (isSnoozed st t snoozeMs = false -> isSnoozed st t' snoozeMs = false)
  /\ (isSnoozed st t' snoozeMs = true ->
      exists a, lastAckMs st = Some a /\ a <> 0 /\ t' - a < snoozeMs
                /\ isSnoozed st t snoozeMs = true).
Proof.
  intros Ht. unfold isSnoozed. destruct (lastAckMs st) as [a|]; simpl.
  2:{ split; [reflexivity | discriminate]. }
  destruct (Z.eqb_spec a 0) as [Ha|Ha]; simpl.
  { split; [reflexivity | discriminate]. }
  split.
  - intros H. apply Z.ltb_ge in H. apply Z.ltb_ge. lia.
  - intros H. apply Z.ltb_lt in H. exists a. repeat split; try assumption.
    apply Z.ltb_lt. lia.
Qed.

Lemma isSnoozed_expires_witness :
  isSnoozed (set_lastAckMs (Some T0) initEvent) (T0 + 400000) 300000 = false.
Proof.
  apply (proj1 (isSnoozed_expires (set_lastAckMs (Some T0) initEvent)
                  (T0 + 300000) (T0 + 400000) 300000 ltac:(vm_compute; discriminate))).
  reflexivity.
Defined.

(** ** Offline message and reported delta *)

(** X10.  For an age that is not negative, [buildOfflineEvent] gives the
    alert message from [alertMs] on and the warning below: the alert names
    whole minutes and the seconds left over, [0 <= s < 60] with
    [60 m + s] the age in whole seconds; the warning names the age in
    whole seconds. *)
Theorem buildOfflineEvent_clock (name : string) (ageMs alertMs : Z) (L : Lang) :
  0 <= ageMs ->
  (alertMs <= ageMs ->
   exists m s,
     buildOfflineEvent name ageMs alertMs L = ("alert"%string, OFFLINE_ALERT L name m s)
     /\ 0 <= m /\ 0 <= s < 60 /\ 60 * m + s = ageMs / 1000)
  /\ (ageMs < alertMs ->
      buildOfflineEvent name ageMs alertMs L
      = ("warn"%string, OFFLINE_WARN L name (ageMs / 1000))
      /\ 0 <= ageMs / 1000).
Proof.
  intros Hage. unfold buildOfflineEvent.
  assert (Hsec : 0 <= ageMs / 1000) by (apply Z.div_pos; lia).
  destruct (Z.leb_spec alertMs ageMs) as [Hle|Hlt].
  - split; [|lia]. intros _. eexists _, _. split; [reflexivity|].
    rewrite Z.rem_mod_nonneg by lia.
    pose proof (Z.mod_pos_bound (ageMs / 1000) 60 ltac:(lia)).
    pose proof (Z.div_mod (ageMs / 1000) 60 ltac:(lia)).
    split; [apply Z.div_pos; lia|]. split; lia.
  - split; [lia|]. intros _. split; [reflexivity | exact Hsec].
Qed.

Lemma buildOfflineEvent_clock_witness :
  exists m s,
    buildOfflineEvent "A" 367500 300000 en = ("alert"%string, OFFLINE_ALERT en "A" m s)
    /\ 0 <= m /\ 0 <= s < 60 /\ 60 * m + s = 367.
Proof.
  apply (proj1 (buildOfflineEvent_clock "A" 367500 300000 en
                  ltac:(vm_compute; discriminate))).
  vm_compute; discriminate.
Defined.

Lemma lastStepDelta_inv pts dl :
  lastStepDelta pts = Some dl ->
  exists front a b,
    pts = front ++ [a; b]
    /\ dl = {| d := (v b - v a)%float; fromMs := ms a; toMs := ms b;
               first := v a; last := v b |}.
Proof.
  unfold lastStepDelta. destruct (List.rev pts) as [|b [|a rest]] eqn:Hrev; try discriminate.
  intros [= <-]. exists (List.rev rest), a, b. split; [|reflexivity].
  rewrite <- (rev_involutive pts), Hrev. simpl. rewrite <- app_assoc. reflexivity.
Qed.

(** X11.  When a metric is active the delta handed to the message is never
    null, and it is the delta of the first threshold reached in the order
    step, 5 minutes, 10 minutes: its magnitude, the binary64 difference
    of the two values, reaches that threshold.  The step delta is the one
    between the last two points of the series. *)
Theorem dUse_reaches_threshold (m : Metric) (pts : list Point) :
  active m pts = true ->
  exists dl,
    dUse m pts = Some dl
    /\ ((step pts = Some dl
         /\ (spike (TH m) <=? abs (d dl))%float = true
         /\ exists front a b,
              pts = front ++ [a; b]
              /\ dl = {| d := (v b - v a)%float; fromMs := ms a; toMs := ms b;
                         first := v a; last := v b |})
        \/ (spikeHit m pts = false
            /\ (10 <= length pts)%nat
            /\ deltaFromWindow pts WIN_5M = Some dl
            /\ (slow5m (TH m) <=? abs (d dl))%float = true)
        \/ (spikeHit m pts = false /\ slow5Hit m pts = false
            /\ (10 <= length pts)%nat
            /\ deltaFromWindow pts WIN_10M = Some dl
            /\ (slow10m (TH m) <=? abs (d dl))%float = true)).
Proof.
  unfold active, dUse. intros Hact.
  assert (Hhit : forall x th, hit x th = true ->
                   exists dl, x = Some dl /\ (th <=? abs (d dl))%float = true).
  { intros [dl|] th H; [|discriminate]. exists dl. split; [reflexivity | exact H]. }
  assert (Hwin : forall w dl,
            (if (10 <=? length pts)%nat then deltaFromWindow pts w else None) = Some dl ->
            (10 <= length pts)%nat /\ deltaFromWindow pts w = Some dl).
  { intros w dl. destruct (Nat.leb_spec 10 (length pts)); [auto | discriminate]. }
  destruct (spikeHit m pts) eqn:Hs.
  - destruct (Hhit _ _ Hs) as (dl & Hd & Hle). exists dl. split; [exact Hd|]. left.
    split; [exact Hd|]. split; [exact Hle|]. apply lastStepDelta_inv. exact Hd.
  - destruct (slow5Hit m pts) eqn:H5.
    + destruct (Hhit _ _ H5) as (dl & Hd & Hle). exists dl. split; [exact Hd|].
      right; left. destruct (Hwin _ _ Hd) as [Hlen Hd5]. auto.
    + simpl in Hact. destruct (Hhit _ _ Hact) as (dl & Hd & Hle).
      exists dl. rewrite Hd. split; [reflexivity|]. right; right.
      destruct (Hwin _ _ Hd) as [Hlen Hd10]. auto.
Qed.

Lemma dUse_reaches_threshold_witness :
  exists dl,
    dUse Temperature
      (series [tempRow (T0 - 20000) 1.3; tempRow (T0 - 10000) 1.3; tempRow T0 4.3]
         Temperature) = Some dl
    /\ d dl = 3%float
    /\ (3 <=? abs (d dl))%float = true.
Proof.
  destruct (dUse_reaches_threshold Temperature
              (series [tempRow (T0 - 20000) 1.3; tempRow (T0 - 10000) 1.3; tempRow T0 4.3]
                 Temperature) eq_refl)
    as (dl & Hd & [(Hstep & H & _)|[(Hs & _)|(Hs & _)]]).
  - exists dl. split; [exact Hd|]. split; [|exact H].
    vm_compute in Hstep. injection Hstep as <-. reflexivity.
  - vm_compute in Hs. discriminate.
  - vm_compute in Hs. discriminate.
Defined.

(** ** Whole evaluations *)

Lemma markSeen_firstSeen_some t st : exists f, firstSeenMs (markSeen t st) = Some f.
Proof.
  rewrite markSeen_firstSeen. destruct (firstSeenMs st) as [f|]; simpl; [|eauto].
  destruct (f =? 0); simpl; eauto.
Qed.

Lemma offlineActiveAct_alert input dev age o c :
  alertMs input <= age ->
  c ∈ snd (offlineActiveAct input dev age 2 "modal" o) -> candidateOf input dev c.
Proof.
  intros Hage. unfold offlineActiveAct. simpl.
  destruct (negb _); intros Hc; [|apply elem_of_nil in Hc; destruct Hc].
  apply list_elem_of_singleton in Hc. subst c. unfold candidateOf, offlineCandidate.
  cbv zeta. simpl. split; [reflexivity|]. split; [apply markSeen_firstSeen_some|].
  left. split; [reflexivity|]. split; [reflexivity|]. left.
  split; [reflexivity|]. split; [reflexivity|].
  unfold buildOfflineEvent. destruct (Z.leb_spec (alertMs input) age); [|lia].
  simpl. eauto.
Qed.

Lemma offlineAct_candidate input dev o c :
  c ∈ snd (offlineAct input dev o) -> candidateOf input dev c.
Proof.
  unfold offlineAct. destruct (negb (truthy (lastDataMs dev))).
  { apply offlineActiveAct_alert. lia. }
  destruct (warnMs input <=? _).
  2:{ simpl. intros Hc. apply elem_of_nil in Hc. destruct Hc. }
  destruct (Z.leb_spec (alertMs input) (nowMs input - orElse (lastDataMs dev) 0))
    as [Hle|Hlt].
  { apply offlineActiveAct_alert. exact Hle. }
  unfold offlineActiveAct. simpl.
  destruct (negb _); intros Hc; [|apply elem_of_nil in Hc; destruct Hc].
  apply list_elem_of_singleton in Hc. subst c. unfold candidateOf, offlineCandidate.
  cbv zeta. simpl. split; [reflexivity|]. split; [apply markSeen_firstSeen_some|].
  left. split; [reflexivity|]. split; [reflexivity|]. right.
  split; [reflexivity|]. split; [reflexivity|].
  unfold buildOfflineEvent.
  destruct (Z.leb_spec (alertMs input) (nowMs input - orElse (lastDataMs dev) 0)); [lia|].
  simpl. eauto.
Qed.

Lemma dUse_some m pts : active m pts = true -> exists dl, dUse m pts = Some dl.
Proof.
  unfold active, dUse, spikeHit, slow5Hit, slow10Hit, hit. intros Hact.
  destruct (step pts) as [s|]; destruct (d5 pts) as [x5|]; destruct (d10 pts) as [x10|];
    simpl in *;
    repeat match goal with
           | |- context [if ?b then _ else _] => destruct b
           end; eauto; discriminate.
Qed.

Lemma anomalyAct_candidate input dev m o c :
  c ∈ snd (anomalyAct input dev m o) -> candidateOf input dev c.
Proof.
  unfold anomalyAct. destruct (length _ <? 3)%nat.
  { simpl. intros Hc. apply elem_of_nil in Hc. destruct Hc. }
  destruct (active m (series (rows dev) m)) eqn:Hact; simpl.
  2:{ destruct o; simpl; intros Hc; apply elem_of_nil in Hc; destruct Hc. }
  destruct (isSnoozed _ _ _); simpl; intros Hc; [apply elem_of_nil in Hc; destruct Hc|].
  apply list_elem_of_singleton in Hc. subst c. unfold candidateOf, anomalyCandidate.
  cbv zeta. simpl. split; [reflexivity|].
  split; [rewrite recordStage_firstSeen; apply markSeen_firstSeen_some|].
  right. exists m. split; [reflexivity|]. split; [reflexivity|].
  unfold stageOf, levelOf, seenFor. rewrite !recordStage_firstSeen.
  match goal with |- context [persistWindowMs input <=? ?s] =>
    destruct (persistWindowMs input <=? s) end; simpl.
  - right. split; [reflexivity|]. split; [reflexivity|]. eexists. split; [reflexivity|]. lia.
  - left. split; [reflexivity|]. split; [reflexivity|].
    destruct (dUse_some _ _ Hact) as [dl ->]. unfold makeSpikeText. eauto.
Qed.

(** X12.  Every candidate an evaluation collects belongs to a device of
    the input and has one of four shapes: offline at stage 2 ("modal",
    alert text) or stage 1 ("warn", warning text); anomaly at stage 2
    ("modal", delta text with a delta that is never null) or stage 3
    ("critical", "persisted" text naming at least 30 minutes).  Its
    [seenSinceMs] is never null. *)
Theorem candidates_shape (input : Input) (E : EventStore) (c : Candidate.t) :
  c ∈ candidates (collect input E) ->
  exists dev, dev ∈ devices input /\ candidateOf input dev c.
Proof.
  intros Hc. rewrite collect_runSteps in Hc.
  apply (runSteps_provenance (nowMs input) (modalSnoozeMs input)) in Hc;
    [|apply stepsOf_wellBehaved].
  destruct Hc as [Hc|(f & o & Hin & Hc & _)]; [apply elem_of_nil in Hc; destruct Hc|].
  apply stepsOf_inv in Hin as [(dev & Hdev & _ & ->)|(dev & m & Hdev & _ & _ & ->)];
    exists dev; (split; [exact Hdev|]).
  - apply (offlineAct_candidate _ _ _ _ Hc).
  - apply (anomalyAct_candidate _ _ _ _ _ Hc).
Qed.

Lemma candidates_shape_witness :
  exists c dev,
    c ∈ candidates (collect (cfg (spiking T0) T0 None) persistedStore)
    /\ dev ∈ spiking T0
    /\ candidateOf (cfg (spiking T0) T0 None) dev c.
Proof.
  destruct (head (candidates (collect (cfg (spiking T0) T0 None) persistedStore)))
    as [c|] eqn:Hc; [|vm_compute in Hc; discriminate].
  assert (Hin : c ∈ candidates (collect (cfg (spiking T0) T0 None) persistedStore)).
  { destruct (candidates _); [discriminate|]. injection Hc as ->. left. }
  destruct (candidates_shape _ _ _ Hin) as (dev & Hdev & Hshape).
  exists c, dev. split; [exact Hin|]. split; [exact Hdev | exact Hshape].
Defined.

(** An entry predicate that every step keeps is kept by a run. *)
Lemma runSteps_invariant (Q : string -> EventState -> Prop) l lp :
  (forall k f o st', (k, f) ∈ l ->
     (forall st, o = Some st -> Q k st) ->
     fst (f o) = Some st' -> Q k st') ->
  (forall k st, EVENTS lp !! k = Some st -> Q k st) ->
  forall k st, EVENTS (runSteps l lp) !! k = Some st -> Q k st.
Proof.
  revert lp; induction l as [|[k0 f0] l IH]; intros lp Hl Hs; [exact Hs|].
  rewrite runSteps_cons. apply IH.
  { intros k f o st' Hin. apply Hl. right; exact Hin. }
  intros k st. unfold applyAt.
  destruct (f0 (EVENTS lp !! k0)) as [[st0|] cs] eqn:Hf; simpl; [|apply Hs].
  destruct (decide (k0 = k)) as [->|Hne].
  - rewrite lookup_insert_eq. intros [= <-].
    apply (Hl k f0 (EVENTS lp !! k) st0); [left | | rewrite Hf; reflexivity].
    intros st1 H1. apply Hs. exact H1.
  - rewrite lookup_insert_ne by exact Hne. apply Hs.
Qed.

Lemma entrySane_mono t t' st : t <= t' -> entrySane t st -> entrySane t' st.
Proof.
  intros Ht (H1 & H2 & H3 & H4 & H5 & H6 & H7).
  repeat split; try assumption.
  - intros l Hl. specialize (H6 l Hl). lia.
  - intros a Ha. specialize (H7 a Ha). lia.
Qed.

Lemma entrySane_init t : entrySane t initEvent.
Proof. repeat split; try reflexivity; try discriminate. left; reflexivity. Qed.

Lemma entrySane_entryOf t o :
  (forall st, o = Some st -> entrySane t st) -> entrySane t (entryOf o).
Proof. destruct o; intros H; [apply H; reflexivity | apply entrySane_init]. Qed.

Lemma entrySane_markSeen t st : entrySane t st -> entrySane t (markSeen t st).
Proof.
  intros (H1 & H2 & H3 & H4 & H5 & H6 & H7).
  unfold entrySane. rewrite markSeen_lastSeen, markSeen_firstSeen, markSeen_stage, markSeen_ack.
  assert (Hother : lastToastMs (markSeen t st) = lastToastMs st
                   /\ lastModalMs (markSeen t st) = lastModalMs st
                   /\ lastCriticalMs (markSeen t st) = lastCriticalMs st).
  { unfold markSeen. destruct (negb _); repeat split. }
  destruct Hother as (-> & -> & ->).
  repeat split; try assumption.
  - intros f Hf. exists t. split; [reflexivity|].
    destruct (truthy (firstSeenMs st)); [|injection Hf as <-; lia].
    destruct (H5 f Hf) as (l & Hl & Hfl). specialize (H6 l Hl). lia.
  - intros l [= <-]. lia.
Qed.

Lemma entrySane_clearEvent t st : entrySane t st -> entrySane t (clearEvent st).
Proof.
  intros (H1 & H2 & H3 & H4 & H5 & H6 & H7).
  repeat split; try assumption; try discriminate. left; reflexivity.
Qed.

Lemma entrySane_recordStage input t st :
  entrySane t st -> entrySane t (recordStage (stageOf input st) st).
Proof.
  intros (H1 & H2 & H3 & H4 & H5 & H6 & H7).
  unfold recordStage. destruct (_ <? _); [|repeat split; assumption].
  repeat split; try assumption. simpl.
  destruct (stageOf_range input st) as [->| ->]; auto.
Qed.

Lemma entrySane_ack t st : entrySane t st -> entrySane t (set_lastAckMs (Some t) st).
Proof.
  intros (H1 & H2 & H3 & H4 & H5 & H6 & H7).
  repeat split; try assumption. simpl. intros a [= <-]. lia.
Qed.

Lemma step_sane input devs k f o st' :
  (k, f) ∈ stepsOf input devs ->
  (forall st, o = Some st -> k <> ""%string /\ entrySane (nowMs input) st) ->
  fst (f o) = Some st' ->
  k <> ""%string /\ entrySane (nowMs input) st'.
Proof.
  intros Hin Ho Hf. split.
  { apply stepsOf_inv in Hin as [(dev & _ & -> & _)|(dev & m & _ & _ & -> & _)];
      apply (ownedBy_nonempty (deviceId dev)); [left | right]; eauto. }
  assert (Hsane : forall st, o = Some st -> entrySane (nowMs input) st)
    by (intros st H; apply (Ho st H)).
  pose proof (entrySane_entryOf _ _ Hsane) as Hent.
  apply entrySane_markSeen in Hent.
  apply stepsOf_inv in Hin as [(dev & _ & _ & ->)|(dev & m & _ & _ & _ & ->)].
  - revert Hf. unfold offlineAct, offlineActiveAct.
    destruct (negb _); [simpl; intros [= <-]; exact Hent|].
    destruct (warnMs input <=? _);
      [destruct (alertMs input <=? _); simpl; intros [= <-]; exact Hent|].
    destruct o as [st|]; simpl; intros [= <-].
    apply entrySane_clearEvent. apply Hsane. reflexivity.
  - revert Hf. unfold anomalyAct.
    destruct (length _ <? 3)%nat; [simpl; intros ->; apply Hsane; reflexivity|].
    destruct (negb (active m _)).
    { destruct o as [st|]; simpl; intros [= <-].
      destruct (_ <? _); [apply entrySane_clearEvent|]; apply Hsane; reflexivity. }
    simpl. destruct (isSnoozed _ _ _); simpl; intros [= <-]; [exact Hent|].
    apply entrySane_recordStage. exact Hent.
Qed.

Lemma applyAck_sane input (E : EventStore) :
  (forall k st, E !! k = Some st -> k <> ""%string /\ entrySane (nowMs input) st) ->
  forall k st, applyAck input E !! k = Some st ->
    k <> ""%string /\ entrySane (nowMs input) st.
Proof.
  intros HE k st. unfold applyAck. destruct (ackEventKey input) as [k0|]; [|apply HE].
  destruct (decide (k0 = k)) as [->|Hne].
  2:{ rewrite lookup_acknowledgeEvent_ne by exact Hne. apply HE. }
  destruct (String.eqb_spec k "") as [->|Hk]; [apply HE|].
  rewrite lookup_acknowledgeEvent_eq by exact Hk. intros [= <-].
  split; [exact Hk|]. apply entrySane_ack, entrySane_entryOf.
  intros st0 H0. apply (HE k st0 H0).
Qed.

(** X13.  In every store a history of evaluations leaves behind (clock
    not going back), whatever the inputs were: no key is empty;
    [lastToastMs], [lastModalMs] and [lastCriticalMs] are null, for
    nothing ever writes them; [lastFiredStage] is 0, 2 or 3; an entry
    with a first-seen time has a last-seen time that is not earlier; and
    no last-seen or acknowledgement time lies after the last evaluation. *)
Theorem store_invariant (P t : Z) (E : EventStore) (k : string) (st : EventState) :
  reachable P t E ->
  E !! k = Some st ->
  k <> ""%string /\ entrySane t st.
Proof.
  intros Hreach. revert k st. induction Hreach as [P t|P t E input Hr IH HP Ht].
  - intros k st Hk. rewrite lookup_empty in Hk. discriminate.
  - unfold evaluateGlobal; simpl. rewrite collect_runSteps.
    apply (runSteps_invariant (fun k st => k <> ""%string /\ entrySane (nowMs input) st)).
    + intros k f o st' Hin. apply (step_sane input (devices input)). exact Hin.
    + simpl. apply applyAck_sane. intros k st Hk.
      destruct (IH k st Hk) as [Hne Hs]. split; [exact Hne|].
      apply (entrySane_mono t); assumption.
Qed.

Lemma store_invariant_witness :
  exists st, afterAck !! spikeKey = Some st /\ entrySane (T0 + 1000) st.
Proof.
  destruct (afterAck !! spikeKey) as [st|] eqn:Hst; [|vm_compute in Hst; discriminate].
  exists st. split; [reflexivity|].
  exact (proj2 (store_invariant 1800000 (T0 + 1000) afterAck spikeKey st
                  reachable_afterAck Hst)).
Defined.

Lemma applyAck_keeps input (E : EventStore) k :
  is_Some (E !! k) -> is_Some (applyAck input E !! k).
Proof.
  intros [st Hst]. destruct (applyAck_entry input E k st Hst) as [a Ha]. eauto.
Qed.

Lemma unowned_not_step input devs k :
  (forall dev, dev ∈ devs -> ~ ownedBy (deviceId dev) k) ->
  k ∉ keysOf (stepsOf input devs).
Proof.
  intros Hno Hk. apply stepsOf_owned in Hk as (dev & Hdev & Hown).
  exact (Hno dev Hdev Hown).
Qed.

(** X14.  An evaluation never removes an entry from the store, and it
    leaves alone every entry that belongs to none of the devices of its
    input and is not the key it acknowledges: the events of a device that
    drops out of the input are neither cleared nor updated. *)
Theorem store_frame (input : Input) (E : EventStore) (k : string) :
  (is_Some (E !! k) -> is_Some (snd (evaluateGlobal input E) !! k))
  /\ ((forall dev, dev ∈ devices input -> ~ ownedBy (deviceId dev) k) ->
      ackEventKey input <> Some k ->
      snd (evaluateGlobal input E) !! k = E !! k).
Proof.
  unfold evaluateGlobal; simpl. split.
  - intros Hk. rewrite collect_runSteps.
    apply (runSteps_keeps (nowMs input) (modalSnoozeMs input));
      [apply stepsOf_wellBehaved|].
    simpl. apply applyAck_keeps. exact Hk.
  - intros Hno Hack.
    rewrite collect_lookup_other by (apply unowned_not_step; exact Hno).
    apply applyAck_other. exact Hack.
Qed.

Lemma store_frame_witness :
  snd (evaluateGlobal (cfg lateDevice T0 None) afterFirst) !! spikeKey
  = afterFirst !! spikeKey.
Proof.
  apply (proj2 (store_frame (cfg lateDevice T0 None) afterFirst spikeKey)).
  - intros dev Hdev Hown.
    apply list_elem_of_singleton in Hdev; subst dev.
    (destruct Hown as [H|[m H]]; [|destruct m]); vm_compute in H; discriminate H.
  - discriminate.
Defined.

(** X15.  The anomaly event of a metric none of whose deltas, computed
    in binary64 as the engine computes them, reaches its threshold
    (device with data, at least three samples, distinct identifiers) is
    kept as it is while it was last seen no longer than [repeatWindowMs]
    ago, and is cleared once it was last seen longer ago than that; an
    entry that has no last-seen time is kept for any window that is not
    negative.  No candidate is produced for it either way. *)
Theorem anomaly_quiet_window
    (input : Input) (E : EventStore) (dev : Device) (m : Metric) (st : EventState) :
  NoDup (deviceId <$> devices input) ->
  dev ∈ devices input ->
  reachesAnomaly dev = true ->
  (3 <= length (series (rows dev) m))%nat ->
  active m (series (rows dev) m) = false ->
  let k := anomalyKey (deviceId dev) m in
  E !! k = Some st ->
  ackEventKey input <> Some k ->
  let E' := snd (evaluateGlobal input E) in
  (forall c, c ∈ candidates (collect input E) -> Candidate.eventKey c <> k)
  /\ (forall l, lastSeenMs st = Some l -> l <> 0 ->
        nowMs input - l <= repeatWindowMs input -> E' !! k = Some st)
  /\ (forall l, lastSeenMs st = Some l -> l <> 0 ->
        repeatWindowMs input < nowMs input - l -> E' !! k = Some (clearEvent st))
  /\ (lastSeenMs st = None -> 0 <= repeatWindowMs input -> E' !! k = Some st).
Proof.
  intros Hnd Hdev Hr Hlen Hact k Hk Hack E'.
  assert (Hf : forall o, anomalyAct input dev m o
                 = match o with
                   | Some st => (Some (if repeatWindowMs input <? quietFor input st
                                       then clearEvent st else st), [])
                   | None => (None, [])
                   end).
  { intros o. unfold anomalyAct.
    destruct (Nat.ltb_spec (length (series (rows dev) m)) 3); [lia|].
    rewrite Hact. reflexivity. }
  assert (HE' : E' !! k = Some (if repeatWindowMs input <? quietFor input st
                                then clearEvent st else st)).
  { subst E' k. unfold evaluateGlobal; simpl.
    rewrite (anomaly_key_lookup input E dev m Hnd Hdev), Hr, Hf.
    rewrite (applyAck_other _ _ _ Hack), Hk. reflexivity. }
  split; [|split; [|split]].
  - intros c Hc Hkc.
    destruct (anomaly_key_candidates input E dev m c Hnd Hdev Hc Hkc) as [_ [o Ho]].
    rewrite Hf in Ho. destruct o; apply elem_of_nil in Ho; destruct Ho.
  - intros l Hl Hl0 Hq. rewrite HE'. unfold quietFor. rewrite Hl. simpl.
    destruct (Z.eqb_spec l 0); [contradiction|]. simpl.
    destruct (Z.ltb_spec (repeatWindowMs input) (nowMs input - l)); [lia | reflexivity].
  - intros l Hl Hl0 Hq. rewrite HE'. unfold quietFor. rewrite Hl. simpl.
    destruct (Z.eqb_spec l 0); [contradiction|]. simpl.
    destruct (Z.ltb_spec (repeatWindowMs input) (nowMs input - l)); [reflexivity | lia].
  - intros Hl Hrep. rewrite HE'. unfold quietFor. rewrite Hl. simpl.
    destruct (Z.ltb_spec (repeatWindowMs input) 0); [lia | reflexivity].
Qed.

Lemma anomaly_quiet_window_witness :
  snd (evaluateGlobal (calm (T0 + 180000)) afterFirst) !! spikeKey
  = afterFirst !! spikeKey
  /\ exists st,
      afterFirst !! spikeKey = Some st
      /\ snd (evaluateGlobal (calm (T0 + 1200000)) afterFirst) !! spikeKey
         = Some (clearEvent st).
Proof.
  destruct (afterFirst !! spikeKey) as [st|] eqn:Hst; [|vm_compute in Hst; discriminate].
  assert (Hl : lastSeenMs st = Some T0).
  { vm_compute in Hst. injection Hst as <-. reflexivity. }
  split.
  - refine (proj1 (proj2 (anomaly_quiet_window (calm (T0 + 180000)) afterFirst
                            (device "B" flatRows (Some (T0 + 180000))) Temperature st
                            _ _ _ _ _ Hst _)) T0 Hl _ _).
    + apply NoDup_singleton.
    + left.
    + reflexivity.
    + vm_compute. lia.
    + reflexivity.
    + discriminate.
    + vm_compute; discriminate.
    + vm_compute; discriminate.
  - exists st. split; [reflexivity|].
    refine (proj1 (proj2 (proj2 (anomaly_quiet_window (calm (T0 + 1200000)) afterFirst
                            (device "B" flatRows (Some (T0 + 1200000))) Temperature st
                            _ _ _ _ _ Hst _))) T0 Hl _ _).
    + apply NoDup_singleton.
    + left.
    + reflexivity.
    + vm_compute. lia.
    + reflexivity.
    + discriminate.
    + vm_compute; discriminate.
    + vm_compute; reflexivity.
Defined.

(** X16.  While a device has no usable last-data time, or a metric has
    fewer than three samples, the anomaly event of that metric is frozen
    (distinct identifiers, key not acknowledged in the call): the entry is
    left exactly as it is, neither refreshed nor cleared however old it
    is, and no candidate is produced for it. *)
Theorem anomaly_frozen_without_data
    (input : Input) (E : EventStore) (dev : Device) (m : Metric) :
  NoDup (deviceId <$> devices input) ->
  dev ∈ devices input ->
  reachesAnomaly dev = false \/ (length (series (rows dev) m) < 3)%nat ->
  let k := anomalyKey (deviceId dev) m in
  ackEventKey input <> Some k ->
  snd (evaluateGlobal input E) !! k = E !! k
  /\ forall c, c ∈ candidates (collect input E) -> Candidate.eventKey c <> k.
Proof.
  intros Hnd Hdev Hcase k Hack.
  assert (Hf : reachesAnomaly dev = true ->
               forall o, anomalyAct input dev m o = (o, [])).
  { intros Hr o. destruct Hcase as [Hno|Hlen]; [congruence|].
    unfold anomalyAct. destruct (Nat.ltb_spec (length (series (rows dev) m)) 3); [|lia].
    reflexivity. }
  split.
  - subst k. unfold evaluateGlobal; simpl.
    rewrite (anomaly_key_lookup input E dev m Hnd Hdev).
    destruct (reachesAnomaly dev) eqn:Hr; [rewrite (Hf eq_refl); simpl|];
      apply applyAck_other; exact Hack.
  - intros c Hc Hkc.
    destruct (anomaly_key_candidates input E dev m c Hnd Hdev Hc Hkc) as [Hr [o Ho]].
    rewrite (Hf Hr) in Ho. apply elem_of_nil in Ho. destruct Ho.
Qed.

Lemma anomaly_frozen_without_data_witness :
  snd (evaluateGlobal sparse afterFirst) !! spikeKey = afterFirst !! spikeKey.
Proof.
  refine (proj1 (anomaly_frozen_without_data sparse afterFirst
                   (device "B" [tempRow (T0 - 10000) 20; tempRow T0 24] (Some T0))
                   Temperature _ _ _ _)).
  - apply NoDup_singleton.
  - left.
  - right. vm_compute. lia.
  - discriminate.
Defined.

(** X17.  An active, unsnoozed anomaly (distinct identifiers) produces
    one candidate whose [seenSinceMs] is the first-seen time the entry
    had, or now if it had none, and whose stage is 3 exactly when that
    time lies [persistWindowMs] or more back, and 2 otherwise; the entry
    afterwards records the larger of this stage and the stage it held.
    So a first detection is at stage 2 for a positive persist window, and
    at stage 3 at once for a window of 0 or less. *)
Theorem anomaly_staging
    (input : Input) (E : EventStore) (dev : Device) (m : Metric) :
  NoDup (deviceId <$> devices input) ->
  dev ∈ devices input ->
  anomalyCondition dev m = true ->
  let k := anomalyKey (deviceId dev) m in
  let before := entryOf (E !! k) in
  let since := if truthy (firstSeenMs before) then firstSeenMs before
               else Some (nowMs input) in
  snoozedAck (ackOf (applyAck input E !! k)) (nowMs input) (modalSnoozeMs input) = false ->
  exists c st',
    c ∈ candidates (collect input E)
    /\ Candidate.eventKey c = k
    /\ Candidate.seenSinceMs c = since
    /\ (persistWindowMs input <= nowMs input - orElse since (nowMs input) ->
        Candidate.stage c = 3)
    /\ (nowMs input - orElse since (nowMs input) < persistWindowMs input ->
        Candidate.stage c = 2)
    /\ snd (evaluateGlobal input E) !! k = Some st'
    /\ lastFiredStage st' = Z.max (Candidate.stage c) (lastFiredStage before)
    /\ firstSeenMs st' = since
    /\ lastSeenMs st' = Some (nowMs input).
Proof.
  intros Hnd Hdev Hcond k before since Hs.
  pose proof (anomalyAct_observing input dev m Hcond) as Hobs.
  assert (Hr : reachesAnomaly dev = true).
  { unfold anomalyCondition in Hcond. apply andb_prop in Hcond as [Hc _].
    apply andb_prop in Hc as [Hc _]. exact Hc. }
  pose proof (anomaly_step input _ dev m Hdev Hr) as Hin. fold k in Hin, Hobs.
  destruct (applyAck_entryOf input E k) as [a Ha].
  set (o := applyAck input E !! k) in *.
  destruct (Hobs o) as [_ Hns].
  set (st := markSeen (nowMs input) (entryOf o)) in *.
  assert (Hsn : isSnoozed st (nowMs input) (modalSnoozeMs input) = false).
  { subst st. rewrite isSnoozed_ack, markSeen_ack, ackOf_entryOf. exact Hs. }
  destruct (Hns Hsn) as (c & st' & Hf & Hkey & Hsince & Hshape).
  assert (Hfirst : firstSeenMs st = since).
  { subst st since before. rewrite markSeen_firstSeen, Ha. reflexivity. }
  destruct Hshape as [(_ & _ & id & Hoff)|(Hst' & Hstage & _)].
  { subst k. symmetry in Hoff. destruct (offlineKey_anomalyKey _ _ _ Hoff). }
  exists c, st'. split.
  { rewrite (collect_candidates input E Hnd).
    apply (elem_of_emitted _ _ k _ _ Hin). fold o. rewrite Hf. left. }
  split; [exact Hkey|]. split; [rewrite Hsince; exact Hfirst|].
  assert (Hseen : seenFor input st = nowMs input - orElse since (nowMs input)).
  { unfold seenFor. rewrite Hfirst. reflexivity. }
  split; [|split].
  - intros Hp. rewrite Hstage. unfold stageOf. rewrite Hseen.
    destruct (Z.leb_spec (persistWindowMs input)
                (nowMs input - orElse since (nowMs input))); [reflexivity | lia].
  - intros Hp. rewrite Hstage. unfold stageOf. rewrite Hseen.
    destruct (Z.leb_spec (persistWindowMs input)
                (nowMs input - orElse since (nowMs input))); [lia | reflexivity].
  - split.
    { unfold evaluateGlobal; simpl.
      rewrite (collect_lookup_step input E k _ Hnd Hin). fold o. rewrite Hf. reflexivity. }
    rewrite Hst', recordStage_stage, recordStage_firstSeen, recordStage_lastSeen, Hstage.
    split; [|split; [exact Hfirst | subst st; apply markSeen_lastSeen]].
    subst st. rewrite markSeen_stage, Ha. reflexivity.
Qed.

Lemma anomaly_staging_witness :
  exists c,
    c ∈ candidates (collect (cfg (spiking T0) T0 None) ∅)
    /\ Candidate.eventKey c = spikeKey
    /\ Candidate.seenSinceMs c = Some T0
    /\ Candidate.stage c = 2.
Proof.
  destruct (anomaly_staging (cfg (spiking T0) T0 None) ∅
              (device "B" [tempRow (T0 - 20000) 20; tempRow (T0 - 10000) 20; tempRow T0 24]
                 (Some T0)) Temperature)
    as (c & st' & Hc & Hk & Hsince & _ & H2 & _).
  - apply NoDup_singleton.
  - left.
  - reflexivity.
  - reflexivity.
  - exists c. split; [exact Hc|]. split; [exact Hk|]. split; [exact Hsince|].
    apply H2. vm_compute. reflexivity.
Defined.

(** ** The sort and the order of the devices *)

Lemma insertSorted_Permutation {A} (cmp : A -> A -> Z) a l :
  insertSorted cmp a l ≡ₚ a :: l.
Proof.
  induction l as [|b l IH]; simpl; [reflexivity|].
  destruct (cmp a b <=? 0); [reflexivity|].
  rewrite IH. apply Permutation_swap.
Qed.

Lemma insertSorted_sorted a l :
  Sorted.StronglySorted (fun x y => notAbove y x) l ->
  Sorted.StronglySorted (fun x y => notAbove y x) (insertSorted compareCandidates a l).
Proof.
  induction 1 as [|b l Hs IH Hb]; simpl.
  - constructor; constructor.
  - destruct (Z.leb_spec (compareCandidates a b) 0) as [Hab|Hab].
    + apply compareCandidates_le in Hab.
      constructor; [constructor; assumption|].
      constructor; [exact Hab|].
      eapply Forall_impl; [exact Hb|]. intros c Hc. simpl in Hc.
      apply (notAbove_trans _ b); assumption.
    + constructor; [exact IH|].
      assert (Hba : notAbove a b).
      { destruct (notAbove_total a b) as [H|H]; [exact H|].
        apply compareCandidates_le in H. lia. }
      apply List.Forall_forall. intros c Hc.
      rewrite <- list_elem_of_In in Hc.
      apply elem_of_insertSorted in Hc as [->|Hc]; [exact Hba|].
      rewrite List.Forall_forall in Hb. apply Hb. rewrite <- list_elem_of_In. exact Hc.
Qed.

(** X18.  The sort of the candidates loses and invents nothing and puts
    them in descending order: the result is a permutation of the array,
    and no element of it sorts in front of an element before it. *)
Theorem sort_sorted_permutation (l : list Candidate.t) :
  sort compareCandidates l ≡ₚ l
  /\ Sorted.StronglySorted (fun x y => notAbove y x) (sort compareCandidates l).
Proof.
  split.
  - induction l as [|a l IH]; simpl; [reflexivity|].
    rewrite insertSorted_Permutation, IH. reflexivity.
  - induction l as [|a l IH]; simpl; [constructor|].
    apply insertSorted_sorted. exact IH.
Qed.

(** X19.  Ties go to the candidate pushed first: the top candidate sits
    at a position of the array such that every candidate pushed before
    it is strictly below it, and none pushed after it is above it. *)
Theorem topCandidate_first_maximal (l : list Candidate.t) (top : Candidate.t) :
  topCandidate l = Some top ->
  exists front back,
    l = front ++ top :: back
    /\ (forall c, c ∈ front -> ~ notAbove top c)
    /\ (forall c, c ∈ back -> notAbove c top).
Proof.
  unfold topCandidate. revert top. induction l as [|a l IH]; intros top; [discriminate|].
  simpl. destruct (sort compareCandidates l) as [|b s] eqn:Hs; simpl.
  - intros [= <-]. destruct l as [|x l].
    + exists [], []. split; [reflexivity|]. split; intros c Hc; apply elem_of_nil in Hc;
        destruct Hc.
    + assert (Hx : x ∈ sort compareCandidates (x :: l)) by (apply elem_of_sort; left).
      rewrite Hs in Hx. apply elem_of_nil in Hx. destruct Hx.
  - destruct (IH b eq_refl) as (front & back & Hl & Hfront & Hback).
    destruct (Z.leb_spec (compareCandidates a b) 0) as [Hab|Hab]; simpl; intros [= <-].
    + apply compareCandidates_le in Hab. exists [], l. split; [reflexivity|].
      split; [intros c Hc; apply elem_of_nil in Hc; destruct Hc|].
      intros c Hc. apply (notAbove_trans _ b); [|exact Hab].
      rewrite Hl in Hc. apply elem_of_app in Hc as [Hc|Hc].
      * destruct (notAbove_total c b) as [H|H]; [exact H | destruct (Hfront c Hc H)].
      * apply elem_of_cons in Hc as [->|Hc]; [apply notAbove_refl | apply Hback; exact Hc].
    + exists (a :: front), back. split; [rewrite Hl; reflexivity|].
      split; [|exact Hback].
      intros c Hc. apply elem_of_cons in Hc as [->|Hc]; [|apply Hfront; exact Hc].
      intros H. apply compareCandidates_le in H. lia.
Qed.

Lemma topCandidate_first_maximal_witness :
  exists top front back,
    topCandidate (candidates (collect (cfg twoOffline T0 None) twoOfflineStore)) = Some top
    /\ candidates (collect (cfg twoOffline T0 None) twoOfflineStore)
       = front ++ top :: back
    /\ (forall c, c ∈ front -> ~ notAbove top c).
Proof.
  destruct (topCandidate (candidates (collect (cfg twoOffline T0 None) twoOfflineStore)))
    as [top|] eqn:Htop; [|vm_compute in Htop; discriminate].
  destruct (topCandidate_first_maximal _ _ Htop) as (front & back & Hl & Hfront & _).
  exists top, front, back. split; [reflexivity|]. split; assumption.
Defined.

Lemma stepsOf_withDevices input devs devs' :
  stepsOf (withDevices input devs') devs = stepsOf input devs.
Proof. reflexivity. Qed.

Lemma runSteps_Permutation l l' lp :
  NoDup (keysOf l) ->
  l ≡ₚ l' ->
  (forall k f, (k, f) ∈ l -> forall st, exists st', fst (f (Some st)) = Some st') ->
  EVENTS (runSteps l' lp) = EVENTS (runSteps l lp)
  /\ candidates (runSteps l' lp) ≡ₚ candidates (runSteps l lp).
Proof.
  intros Hnd Hperm Hkeep.
  assert (Hnd' : NoDup (keysOf l')).
  { unfold keysOf in *. rewrite <- Hperm. exact Hnd. }
  split.
  - apply map_eq. intros k.
    destruct (decide (k ∈ keysOf l)) as [Hin|Hout].
    + apply elem_of_keysOf in Hin as [f Hin].
      rewrite (runSteps_lookup_in l lp k f Hnd Hkeep Hin).
      apply runSteps_lookup_in; [exact Hnd'| |rewrite <- Hperm; exact Hin].
      intros k' f' H'. apply (Hkeep k' f'). rewrite Hperm. exact H'.
    + rewrite (runSteps_lookup_other l lp k Hout).
      apply runSteps_lookup_other. unfold keysOf in *. rewrite <- Hperm. exact Hout.
  - rewrite !runSteps_candidates by assumption.
    apply Permutation_app_head. unfold emitted. rewrite Hperm. reflexivity.
Qed.

(** X20.  With distinct identifiers the order of the devices in the input
    matters only for ties: evaluating the same devices in another order
    leaves the same store behind and collects the same candidates, in
    another order. *)
Theorem device_order_irrelevant (input : Input) (devs' : list Device) (E : EventStore) :
  NoDup (deviceId <$> devices input) ->
  devices input ≡ₚ devs' ->
  EVENTS (collect (withDevices input devs') E) = EVENTS (collect input E)
  /\ candidates (collect (withDevices input devs') E) ≡ₚ candidates (collect input E).
Proof.
  intros Hnd Hperm. rewrite !collect_runSteps.
  change (devices (withDevices input devs')) with devs'.
  rewrite stepsOf_withDevices.
  change (applyAck (withDevices input devs') E) with (applyAck input E).
  apply runSteps_Permutation.
  - apply stepsOf_NoDup. exact Hnd.
  - unfold stepsOf. rewrite Hperm. reflexivity.
  - intros k f Hin. apply (wb_keeps _ _ _ _ (stepsOf_wellBehaved _ _ _ _ Hin)).
Qed.

Lemma device_order_irrelevant_witness :
  EVENTS (collect (withDevices (cfg twoOffline T0 None) (List.rev twoOffline))
            twoOfflineStore)
  = EVENTS (collect (cfg twoOffline T0 None) twoOfflineStore).
Proof.
  apply (device_order_irrelevant (cfg twoOffline T0 None) (List.rev twoOffline)
           twoOfflineStore).
  - apply NoDup_cons. split; [|apply NoDup_singleton].
    intros H. apply list_elem_of_singleton in H. discriminate H.
  - apply Permutation_swap.
Defined.

(** ** Selected device feed *)

Lemma filter_inLiveWindow_idem now (rows : list Row) :
  List.filter (inLiveWindow now) (List.filter (inLiveWindow now) rows)
  = List.filter (inLiveWindow now) rows.
Proof.
  induction rows as [|r rows IH]; [reflexivity|]. simpl.
  destruct (inLiveWindow now r) eqn:Hr; [|exact IH].
  simpl. rewrite Hr, IH. reflexivity.
Qed.

(** X21.  [sliceLive10Min] returns either all the rows it was given, or
    at least eight of them that all carry a non-zero time within the ten
    minutes before [nowMs], in their order; and slicing its result again
    at the same time changes nothing. *)
Theorem sliceLive10Min_window (rows : list Row) (now : Z) :
  let out := sliceLive10Min rows now in
  (out = rows
   \/ (out = List.filter (inLiveWindow now) rows
       /\ (8 <= length out)%nat
       /\ forall r, r ∈ out ->
            exists t, tsToMs (timestamp r) = Some t /\ t <> 0
                      /\ now - 600000 <= t <= now))
  /\ sliceLive10Min out now = out.
Proof.
  unfold sliceLive10Min.
  destruct (8 <=? Z.of_nat (length (List.filter (inLiveWindow now) rows))) eqn:Hlen; simpl.
  - split.
    + right. split; [reflexivity|]. split; [apply Z.leb_le in Hlen; lia|].
      intros r Hr. apply list_elem_of_In, List.filter_In in Hr as [_ Hr].
      unfold inLiveWindow in Hr. destruct (tsToMs (timestamp r)) as [t|]; [|discriminate].
      exists t. apply andb_prop in Hr as [Hr H3]. apply andb_prop in Hr as [H1 H2].
      split; [reflexivity|]. split.
      * intros ->. discriminate H1.
      * apply Z.leb_le in H2, H3. lia.
    + rewrite filter_inLiveWindow_idem, Hlen. reflexivity.
  - split; [left; reflexivity|]. rewrite Hlen. reflexivity.
Qed.

(** ** dashboard.js: the callers of the global engine *)

Import Dashboard.

Lemma evaluateGlobal_toast input (E : EventStore) :
  toast (fst (evaluateGlobal input E)) = None.
Proof.
  unfold evaluateGlobal, arbitrate. simpl.
  destruct (topCandidate _) as [top|]; [destruct (Candidate.stage top =? 3)|]; reflexivity.
Qed.

Lemma evaluateGlobal_modal input (E : EventStore) m :
  modal (fst (evaluateGlobal input E)) = Some m ->
  exists top,
    top ∈ candidates (collect input E)
    /\ m = notify (if Candidate.stage top =? 3 then "critical" else "modal") top.
Proof.
  unfold evaluateGlobal, arbitrate. simpl.
  destruct (topCandidate _) as [top|] eqn:Htop; [|discriminate].
  apply topCandidate_elem in Htop. exists top. split; [exact Htop|].
  destruct (Candidate.stage top =? 3); simpl in H; congruence.
Qed.

Lemma evaluateGlobal_modal_nonempty input (E : EventStore) :
  candidates (collect input E) <> [] ->
  is_Some (modal (fst (evaluateGlobal input E))).
Proof.
  intros Hne. unfold evaluateGlobal, arbitrate. simpl.
  destruct (topCandidate_nonempty _ Hne) as [top ->].
  destruct (Candidate.stage top =? 3); simpl; eauto.
Qed.

Lemma collect_candidateOf input (E : EventStore) c :
  c ∈ candidates (collect input E) ->
  exists dev, dev ∈ devices input /\ candidateOf input dev c.
Proof.
  intros Hc. rewrite collect_runSteps in Hc.
  apply (runSteps_provenance (nowMs input) (modalSnoozeMs input)) in Hc;
    [|apply stepsOf_wellBehaved].
  destruct Hc as [Hc|(f & o & Hin & Hc & _)]; [apply elem_of_nil in Hc; destruct Hc|].
  apply stepsOf_inv in Hin as [(dev & Hdev & _ & ->)|(dev & m & Hdev & _ & _ & ->)];
    exists dev; (split; [exact Hdev|]).
  - apply (offlineAct_candidate _ _ _ _ Hc).
  - apply (anomalyAct_candidate _ _ _ _ _ Hc).
Qed.

(** What one run of [runGlobalAI] does to the page: the store becomes the
    one the evaluation leaves behind, the polled state, the language and
    the toast variables stay, and the modal either stays as it is or is
    set up for the modal of the result. *)
Lemma runGlobalAI_cases now now2 navLang ack pg :
  let res := fst (evaluateGlobal (globalInput now navLang ack pg) (AI_EVENTS pg)) in
  let pg' := runGlobalAI now now2 navLang ack pg in
  AI_EVENTS pg' = snd (evaluateGlobal (globalInput now navLang ack pg) (AI_EVENTS pg))
  /\ GLOBAL_STATE pg' = GLOBAL_STATE pg
  /\ LANG_MODE pg' = LANG_MODE pg
  /\ bigToast pg' = bigToast pg
  /\ LAST_GLOBAL_TOAST_EVENT pg' = LAST_GLOBAL_TOAST_EVENT pg
  /\ LAST_GLOBAL_TOAST_MS pg' = LAST_GLOBAL_TOAST_MS pg
  /\ ((MODAL pg' = MODAL pg
       /\ MODAL_VISIBLE pg' = MODAL_VISIBLE pg
       /\ MODAL_EVENT_KEY pg' = MODAL_EVENT_KEY pg
       /\ (MODAL_VISIBLE pg = false -> modal res = None))
      \/ exists m,
           modal res = Some m
           /\ (MODAL_VISIBLE pg = false
               \/ (Notification.level m = "critical"%string
                   /\ Some (Notification.eventKey m) <> MODAL_EVENT_KEY pg))
           /\ MODAL pg' = Some (viewOf m (lang res))
           /\ MODAL_VISIBLE pg' = true
           /\ MODAL_EVENT_KEY pg' = keyOrNull (Notification.eventKey m)).
Proof.
  intros res pg'. subst res pg'. unfold runGlobalAI.
  pose proof (evaluateGlobal_toast (globalInput now navLang ack pg) (AI_EVENTS pg)) as Ht.
  destruct (evaluateGlobal (globalInput now navLang ack pg) (AI_EVENTS pg)) as [res E].
  simpl in Ht |- *. rewrite Ht. clear Ht.
  destruct (modal res) as [m|]; simpl.
  2:{ repeat (split; [reflexivity|]). left. repeat split; reflexivity. }
  destruct (MODAL_VISIBLE pg) eqn:Hvis; simpl.
  - destruct (String.eqb_spec (Notification.level m) "critical") as [Hl|Hl]; simpl.
    + destruct (bool_decide_reflect (Some (Notification.eventKey m) = MODAL_EVENT_KEY pg))
        as [Hk|Hk]; simpl.
      * repeat (split; [reflexivity|]). left. repeat split; try reflexivity; try assumption.
        discriminate.
      * repeat (split; [reflexivity|]). right. exists m.
        split; [reflexivity|]. split; [right; split; assumption|]. repeat split.
    + repeat (split; [reflexivity|]). left. repeat split; try assumption. discriminate.
  - repeat (split; [reflexivity|]). right. exists m.
    split; [reflexivity|]. split; [left; reflexivity|]. repeat split.
Qed.

Lemma DEVICES_id_inj dev dev' :
  dev ∈ DEVICES -> dev' ∈ DEVICES -> id dev = id dev' -> dev = dev'.
Proof.
  unfold DEVICES. intros H H'.
  repeat (apply elem_of_cons in H as [->|H]);
    try (apply elem_of_nil in H; destruct H);
    repeat (apply elem_of_cons in H' as [->|H']);
    try (apply elem_of_nil in H'; destruct H');
    simpl; intros Heq; try reflexivity; discriminate Heq.
Qed.

Lemma storePoll_storedFor dev snap pg :
  dev ∈ DEVICES ->
  (forall k st, GLOBAL_STATE pg !! k = Some st -> storedFor k st) ->
  forall k st, GLOBAL_STATE (storePoll dev snap pg) !! k = Some st -> storedFor k st.
Proof.
  intros Hdev Hinv k st. unfold storePoll. simpl.
  destruct (decide (id dev = k)) as [<-|Hne].
  2:{ rewrite lookup_insert_ne by exact Hne. apply Hinv. }
  rewrite lookup_insert_eq. intros [= <-].
  assert (Hname : forall dev', dev' ∈ DEVICES -> id dev' = id dev -> name dev = name dev').
  { intros dev' H' Heq. rewrite (DEVICES_id_inj _ _ H' Hdev Heq). reflexivity. }
  destruct snap as [[|newest older]|]; (split; [reflexivity|]); (split; [exact Hname|]).
  - left. split; reflexivity.
  - right. exists (List.rev older), newest. split; reflexivity.
  - left. split; reflexivity.
Qed.

Lemma hideGlobalModal_GLOBAL_STATE ack now now2 navLang pg :
  GLOBAL_STATE (hideGlobalModal ack now now2 navLang pg) = GLOBAL_STATE pg.
Proof.
  unfold hideGlobalModal. destruct (MODAL pg); [|reflexivity]. simpl.
  destruct (MODAL_EVENT_KEY pg) as [k|]; [|reflexivity].
  destruct (ack && negb (String.eqb k "")); [|reflexivity].
  match goal with |- GLOBAL_STATE (runGlobalAI ?a ?b ?c ?d ?p) = _ =>
    destruct (runGlobalAI_cases a b c d p) as (_ & -> & _) end.
  reflexivity.
Qed.

Lemma reachablePage_storedFor pg :
  reachablePage pg ->
  forall k st, GLOBAL_STATE pg !! k = Some st -> storedFor k st.
Proof.
  induction 1 as [|dev snap pg _ IH Hdev|now now2 navLang pg _ IH
                  |now now2 navLang pg _ IH|v pg _ IH].
  - intros k st H. simpl in H. rewrite lookup_empty in H. discriminate H.
  - apply storePoll_storedFor; assumption.
  - destruct (runGlobalAI_cases now now2 navLang None pg) as (_ & -> & _). exact IH.
  - rewrite hideGlobalModal_GLOBAL_STATE. exact IH.
  - exact IH.
Qed.

Lemma orNull_nonzero x : orNull x <> Some 0.
Proof. unfold orNull. destruct x as [z|]; simpl; [|discriminate].
  destruct (Z.eqb_spec z 0); simpl; congruence. Qed.

Lemma payload_snapshotOf pg dev :
  dev ∈ DEVICES ->
  (forall k st, GLOBAL_STATE pg !! k = Some st -> storedFor k st) ->
  snapshotOf dev
    (let st := match GLOBAL_STATE pg !! id dev with
               | Some st => st
               | None => {| deviceId := id dev; deviceName := name dev;
                            rows := []; lastDataMs := None |}
               end in
     {| deviceId := deviceId st; deviceName := deviceName st;
        rows := rows st; lastDataMs := orNull (lastDataMs st) |}).
Proof.
  intros Hdev Hinv. cbv zeta.
  destruct (GLOBAL_STATE pg !! id dev) as [st|] eqn:Hst; unfold snapshotOf; simpl.
  - destruct (Hinv _ _ Hst) as (Hid & Hname & Hrows).
    split; [exact Hid|]. split; [apply Hname; [exact Hdev|reflexivity]|].
    split; [apply orNull_nonzero|].
    destruct Hrows as [[-> ->]|(init & r & -> & ->)]; [left; split; reflexivity|].
    right. exists init, r. split; reflexivity.
  - repeat split; try discriminate. left. split; reflexivity.
Qed.

Lemma payload_Forall2 pg :
  (forall k st, GLOBAL_STATE pg !! k = Some st -> storedFor k st) ->
  Forall2 snapshotOf DEVICES (getGlobalDevicesPayload pg).
Proof.
  intros Hinv. unfold getGlobalDevicesPayload.
  assert (Hall : forall dev, dev ∈ DEVICES -> dev ∈ DEVICES) by auto.
  revert Hall. generalize DEVICES at 1 3 4. intros l Hl.
  induction l as [|dev l IH]; simpl; constructor.
  - apply payload_snapshotOf; [apply Hl; left | exact Hinv].
  - apply IH. intros d Hd. apply Hl. right. exact Hd.
Qed.

Lemma Forall2_elem_of_right {A B} (P : A -> B -> Prop) l k y :
  Forall2 P l k -> y ∈ k -> exists x, x ∈ l /\ P x y.
Proof.
  induction 1 as [|x y' l k HP _ IH]; intros Hy; [apply elem_of_nil in Hy; destruct Hy|].
  apply elem_of_cons in Hy as [->|Hy].
  - exists x. split; [left | exact HP].
  - destruct (IH Hy) as (x' & Hx' & HP'). exists x'. split; [right; exact Hx' | exact HP'].
Qed.

Lemma payload_configured pg d :
  (forall k st, GLOBAL_STATE pg !! k = Some st -> storedFor k st) ->
  d ∈ getGlobalDevicesPayload pg ->
  exists dev, dev ∈ DEVICES /\ deviceId d = id dev.
Proof.
  intros Hinv Hd.
  destruct (Forall2_elem_of_right _ _ _ _ (payload_Forall2 pg Hinv) Hd) as (dev & Hdev & Hid & _).
  exists dev. split; assumption.
Qed.

(** X22.  On every page the script can reach, the array handed to the
    global engine holds one snapshot per configured device, in the order
    of [DEVICES]: it carries that device's identifier and name, so the
    identifiers are distinct; its last-data time is never 0, is null when
    there are no rows, and is otherwise the time of the last stored row
    (null when that time is 0). *)
Theorem payload_one_per_device (pg : Page) :
  reachablePage pg ->
  Forall2 snapshotOf DEVICES (getGlobalDevicesPayload pg)
  /\ NoDup (deviceId <$> getGlobalDevicesPayload pg).
Proof.
  intros Hreach. pose proof (reachablePage_storedFor pg Hreach) as Hinv.
  pose proof (payload_Forall2 pg Hinv) as HF.
  split; [exact HF|].
  assert (Hids : deviceId <$> getGlobalDevicesPayload pg = id <$> DEVICES).
  { clear -HF. induction HF as [|dev d l l' (Hid & _) _ IH]; [reflexivity|].
    simpl. rewrite Hid. f_equal. exact IH. }
  rewrite Hids. refine (bool_decide_unpack _ _). vm_compute. exact I.
Qed.

Lemma payload_one_per_device_witness :
  NoDup (deviceId <$> getGlobalDevicesPayload polledPage).
Proof.
  apply (payload_one_per_device polledPage).
  apply page_poll; [apply page_initial | left].
Defined.

Lemma hideGlobalModal_toast ack now now2 navLang pg :
  let pg' := hideGlobalModal ack now now2 navLang pg in
  bigToast pg' = bigToast pg
  /\ LAST_GLOBAL_TOAST_EVENT pg' = LAST_GLOBAL_TOAST_EVENT pg
  /\ LAST_GLOBAL_TOAST_MS pg' = LAST_GLOBAL_TOAST_MS pg.
Proof.
  unfold hideGlobalModal. destruct (MODAL pg); [|repeat split]. simpl.
  destruct (MODAL_EVENT_KEY pg) as [k|]; [|repeat split].
  destruct (ack && negb (String.eqb k "")); [|repeat split].
  match goal with |- context [runGlobalAI ?a ?b ?c ?d ?p] =>
    destruct (runGlobalAI_cases a b c d p) as (_ & _ & _ & -> & -> & -> & _) end.
  repeat split.
Qed.

(** X23.  With the threshold-based engine the toast branch of
    [runGlobalAI] is never taken: on every page the script can reach, no
    global toast was ever shown and the two variables that remember the
    last toast still have their initial values. *)
Theorem global_toast_never_shown (pg : Page) :
  reachablePage pg ->
  bigToast pg = None
  /\ LAST_GLOBAL_TOAST_EVENT pg = None
  /\ LAST_GLOBAL_TOAST_MS pg = 0.
Proof.
  induction 1 as [|dev snap pg _ IH Hdev|now now2 navLang pg _ IH
                  |now now2 navLang pg _ IH|v pg _ IH].
  - repeat split.
  - exact IH.
  - destruct (runGlobalAI_cases now now2 navLang None pg) as (_ & _ & _ & -> & -> & -> & _).
    exact IH.
  - destruct (hideGlobalModal_toast true now now2 navLang pg) as (-> & -> & ->). exact IH.
  - exact IH.
Qed.

Lemma global_toast_never_shown_witness : bigToast alarmPage = None.
Proof.
  apply (global_toast_never_shown alarmPage).
  apply page_run, page_initial.
Defined.

Lemma keyOrNull_some k k' : keyOrNull k = Some k' -> k' = k.
Proof. unfold keyOrNull. destruct (String.eqb k ""); congruence. Qed.

Lemma keyOrNull_nonempty k : k <> ""%string -> keyOrNull k = Some k.
Proof. unfold keyOrNull. intros Hk. destruct (String.eqb_spec k ""); congruence. Qed.

Lemma candidateOf_owned input dev c :
  candidateOf input dev c -> ownedBy (deviceId dev) (Candidate.eventKey c).
Proof.
  intros (_ & _ & [(Hk & _)|(m & Hk & _)]); [left; exact Hk | right; exists m; exact Hk].
Qed.

Lemma runGlobalAI_modalSane now now2 navLang ack pg :
  (forall k st, GLOBAL_STATE pg !! k = Some st -> storedFor k st) ->
  modalSane pg -> modalSane (runGlobalAI now now2 navLang ack pg).
Proof.
  intros Hinv (Hvis & Hlvl & Hkey).
  destruct (runGlobalAI_cases now now2 navLang ack pg)
    as (_ & _ & _ & _ & _ & _ & [(HM & HV & HK & _)|(m & Hm & _ & HM & HV & HK)]).
  - unfold modalSane. rewrite HM, HV, HK. split; [exact Hvis|]. split; [exact Hlvl | exact Hkey].
  - apply evaluateGlobal_modal in Hm as (top & Htop & ->).
    unfold modalSane. rewrite HM, HV, HK. split; [|split].
    + split; [|reflexivity]. intros _. eexists. split; reflexivity.
    + intros v [= <-]. simpl. destruct (Candidate.stage top =? 3); [right|left]; reflexivity.
    + intros k Hk. split; [reflexivity|]. simpl in Hk. apply keyOrNull_some in Hk. subst k.
      apply collect_candidateOf in Htop as (d & Hd & Hshape).
      destruct (payload_configured pg d Hinv Hd) as (dev & Hdev & Hid).
      exists dev. split; [exact Hdev|]. rewrite <- Hid. apply (candidateOf_owned _ _ _ Hshape).
Qed.

(** X24.  On every page the script can reach the three modal variables
    agree: [MODAL_VISIBLE] is true exactly when the overlay exists and is
    displayed; what the overlay shows is a notice or a critical alert;
    and a remembered event key belongs to a displayed modal and is the
    offline or an anomaly key of a configured device. *)
Theorem modal_variables_agree (pg : Page) :
  reachablePage pg -> modalSane pg.
Proof.
  induction 1 as [|dev snap pg Hreach IH Hdev|now now2 navLang pg Hreach IH
                  |now now2 navLang pg Hreach IH|v pg _ IH].
  - unfold modalSane. simpl. repeat split; try discriminate.
    intros (v & Hv & _). discriminate Hv.
  - exact IH.
  - apply runGlobalAI_modalSane; [apply reachablePage_storedFor; exact Hreach | exact IH].
  - unfold hideGlobalModal. destruct (MODAL pg) as [view|] eqn:HM; [|exact IH].
    set (mid := {| AI_EVENTS := AI_EVENTS pg; GLOBAL_STATE := GLOBAL_STATE pg;
                   LANG_MODE := LANG_MODE pg;
                   MODAL := Some {| viewLevel := viewLevel view; viewText := viewText view;
                                    viewLang := viewLang view; display := false |};
                   MODAL_VISIBLE := false; MODAL_EVENT_KEY := MODAL_EVENT_KEY pg;
                   LAST_GLOBAL_TOAST_EVENT := LAST_GLOBAL_TOAST_EVENT pg;
                   LAST_GLOBAL_TOAST_MS := LAST_GLOBAL_TOAST_MS pg;
                   bigToast := bigToast pg |}).
    assert (Hmid : (MODAL_VISIBLE mid = true <-> exists v, MODAL mid = Some v /\ display v = true)
                   /\ (forall v, MODAL mid = Some v ->
                         viewLevel v = "modal"%string \/ viewLevel v = "critical"%string)).
    { destruct IH as (_ & Hlvl & _). split.
      - simpl. split; [discriminate|]. intros (v & [= <-] & Hd). discriminate Hd.
      - simpl. intros v [= <-]. simpl. exact (Hlvl view HM). }
    assert (Hgoal : forall p,
              ((MODAL_VISIBLE p = true <-> exists v, MODAL p = Some v /\ display v = true)
               /\ (forall v, MODAL p = Some v ->
                     viewLevel v = "modal"%string \/ viewLevel v = "critical"%string)) ->
              modalSane {| AI_EVENTS := AI_EVENTS p; GLOBAL_STATE := GLOBAL_STATE p;
                           LANG_MODE := LANG_MODE p; MODAL := MODAL p;
                           MODAL_VISIBLE := MODAL_VISIBLE p; MODAL_EVENT_KEY := None;
                           LAST_GLOBAL_TOAST_EVENT := LAST_GLOBAL_TOAST_EVENT p;
                           LAST_GLOBAL_TOAST_MS := LAST_GLOBAL_TOAST_MS p;
                           bigToast := bigToast p |}).
    { intros p (H1 & H2). unfold modalSane. simpl. repeat split; try apply H1; try apply H2.
      all: discriminate. }
    apply Hgoal. simpl.
    destruct (MODAL_EVENT_KEY pg) as [k|] eqn:HK; [|exact Hmid].
    destruct (negb (String.eqb k "")); [|exact Hmid].
    destruct (runGlobalAI_cases now now2 navLang (Some k) mid)
      as (_ & _ & _ & _ & _ & _ & [(HM' & HV' & _)|(m & Hm & _ & HM' & HV' & _)]).
    + rewrite HM', HV'. exact Hmid.
    + rewrite HM', HV'. apply evaluateGlobal_modal in Hm as (top & _ & ->). split.
      * split; [|reflexivity]. intros _. eexists. split; reflexivity.
      * intros v [= <-]. simpl. destruct (Candidate.stage top =? 3); [right|left]; reflexivity.
  - exact IH.
Qed.

Lemma modal_variables_agree_witness : modalSane alarmPage.
Proof.
  apply (modal_variables_agree alarmPage).
  apply page_run, page_initial.
Defined.

Lemma evaluateGlobal_lang input (E : EventStore) :
  lang (fst (evaluateGlobal input E)) = resolvedLang input.
Proof.
  unfold evaluateGlobal, arbitrate. simpl.
  destruct (topCandidate _) as [top|]; [destruct (Candidate.stage top =? 3)|]; reflexivity.
Qed.

(** X25.  While a modal is displayed, a run of [runGlobalAI] never hides
    it and replaces it in one case only: by the critical alert of an
    anomaly of one of the devices that has persisted for at least 30
    minutes, whose key is not the one remembered for the displayed modal.
    In every other case the modal and its key stay as they are. *)
Theorem visible_modal_replaced_only_by_persisted
    (now now2 : Z) (navLang : string) (ack : option string) (pg : Page) :
  MODAL_VISIBLE pg = true ->
  let L := detectLang (LANG_MODE pg) navLang in
  let pg' := runGlobalAI now now2 navLang ack pg in
  MODAL_VISIBLE pg' = true
  /\ ((MODAL pg' = MODAL pg /\ MODAL_EVENT_KEY pg' = MODAL_EVENT_KEY pg)
      \/ exists d m mins,
           d ∈ getGlobalDevicesPayload pg
           /\ 30 <= mins
           /\ MODAL_EVENT_KEY pg <> Some (anomalyKey (deviceId d) m)
           /\ MODAL_EVENT_KEY pg' = Some (anomalyKey (deviceId d) m)
           /\ MODAL pg' = Some {| viewLevel := "critical";
                                  viewText := MODAL_PERSIST L (displayName d) m mins;
                                  viewLang := L; display := true |}).
Proof.
  intros Hvis L pg'. subst pg'.
  destruct (runGlobalAI_cases now now2 navLang ack pg)
    as (_ & _ & _ & _ & _ & _ & [(HM & HV & HK & _)|(m & Hm & Hwhy & HM & HV & HK)]).
  - split; [rewrite HV; exact Hvis|]. left. split; assumption.
  - split; [exact HV|]. right.
    destruct Hwhy as [Hno|(Hl & Hne)]; [congruence|].
    rewrite evaluateGlobal_lang in HM.
    apply evaluateGlobal_modal in Hm as (top & Htop & ->).
    simpl in Hl, Hne, HK.
    destruct (Candidate.stage top =? 3) eqn:Hst; [|discriminate Hl].
    apply Z.eqb_eq in Hst.
    apply collect_candidateOf in Htop as (d & Hd & _ & _ & Hshape).
    destruct Hshape as [(_ & _ & [(H2 & _)|(H1 & _)])|(mt & Hk & _ & [(H2 & _)|(_ & Hlv & mins & Htxt & Hmins)])];
      try lia.
    exists d, mt, mins. split; [exact Hd|]. split; [exact Hmins|].
    rewrite Hk in Hne, HK. split; [congruence|].
    split.
    + rewrite HK. apply keyOrNull_nonempty.
      apply (ownedBy_nonempty (deviceId d)). right. exists mt. reflexivity.
    + rewrite HM. unfold viewOf, notify. simpl. rewrite Htxt. reflexivity.
Qed.

Lemma visible_modal_replaced_only_by_persisted_witness :
  MODAL_VISIBLE (runGlobalAI (T0 + 5000) (T0 + 5000) "" None alarmPage) = true.
Proof.
  apply (visible_modal_replaced_only_by_persisted (T0 + 5000) (T0 + 5000) "" None alarmPage).
  vm_compute. reflexivity.
Defined.

(** X26.  A click on OK while the modal of event [k] is displayed
    acknowledges [k] at the time of the click and forgets the key.  The
    evaluation that records the acknowledgement never brings [k] back:
    either it returns no modal and the overlay stays hidden, or it returns
    the modal of another event, which is displayed at once, but without
    its key being remembered, so that a click on OK on that page only
    hides it and acknowledges nothing. *)
Theorem ok_click_acknowledges
    (pg : Page) (view : ModalView) (k : string) (now now2 : Z) (navLang : string) :
  MODAL pg = Some view ->
  MODAL_EVENT_KEY pg = Some k ->
  k <> ""%string ->
  now <> 0 ->
  let res := fst (evaluateGlobal (globalInput now navLang (Some k) pg) (AI_EVENTS pg)) in
  let pg' := hideGlobalModal true now now2 navLang pg in
  ackOf (AI_EVENTS pg' !! k) = Some now
  /\ MODAL_EVENT_KEY pg' = None
  /\ match modal res with
     | None => MODAL_VISIBLE pg' = false /\ MODAL pg' = Some (hidden view)
     | Some m =>
         Notification.eventKey m <> k
         /\ MODAL_VISIBLE pg' = true
         /\ MODAL pg' = Some (viewOf m (lang res))
     end
  /\ forall now' now2' navLang',
       let pg'' := hideGlobalModal true now' now2' navLang' pg' in
       AI_EVENTS pg'' = AI_EVENTS pg' /\ MODAL_VISIBLE pg'' = false.
Proof.
  intros HM HK Hk Hnow. cbv zeta.
  set (mid := {| AI_EVENTS := AI_EVENTS pg; GLOBAL_STATE := GLOBAL_STATE pg;
                 LANG_MODE := LANG_MODE pg;
                 MODAL := Some {| viewLevel := viewLevel view; viewText := viewText view;
                                  viewLang := viewLang view; display := false |};
                 MODAL_VISIBLE := false; MODAL_EVENT_KEY := MODAL_EVENT_KEY pg;
                 LAST_GLOBAL_TOAST_EVENT := LAST_GLOBAL_TOAST_EVENT pg;
                 LAST_GLOBAL_TOAST_MS := LAST_GLOBAL_TOAST_MS pg;
                 bigToast := bigToast pg |}).
  set (input := globalInput now navLang (Some k) pg).
  destruct (runGlobalAI_cases now now2 navLang (Some k) mid)
    as (HE & _ & _ & _ & _ & _ & Hcases).
  change (globalInput now navLang (Some k) mid) with input in HE, Hcases.
  change (AI_EVENTS mid) with (AI_EVENTS pg) in HE, Hcases.
  set (pg1 := runGlobalAI now now2 navLang (Some k) mid) in *.
  assert (Heq : hideGlobalModal true now now2 navLang pg
                = {| AI_EVENTS := AI_EVENTS pg1; GLOBAL_STATE := GLOBAL_STATE pg1;
                     LANG_MODE := LANG_MODE pg1; MODAL := MODAL pg1;
                     MODAL_VISIBLE := MODAL_VISIBLE pg1; MODAL_EVENT_KEY := None;
                     LAST_GLOBAL_TOAST_EVENT := LAST_GLOBAL_TOAST_EVENT pg1;
                     LAST_GLOBAL_TOAST_MS := LAST_GLOBAL_TOAST_MS pg1;
                     bigToast := bigToast pg1 |}).
  { unfold hideGlobalModal. rewrite HM. cbv zeta. fold mid.
    change (MODAL_EVENT_KEY mid) with (MODAL_EVENT_KEY pg). rewrite HK.
    destruct (String.eqb_spec k ""); [contradiction|]. reflexivity. }
  rewrite Heq. clear Heq.
  set (res := fst (evaluateGlobal input (AI_EVENTS pg))) in *.
  assert (Hack : ackOf (AI_EVENTS pg1 !! k) = Some now).
  { rewrite HE. unfold evaluateGlobal. simpl. rewrite collect_ack.
    apply applyAck_same_call; [reflexivity | exact Hk]. }
  assert (Hshow : match modal res with
                  | None => MODAL_VISIBLE pg1 = false /\ MODAL pg1 = Some (hidden view)
                  | Some m =>
                      Notification.eventKey m <> k
                      /\ MODAL_VISIBLE pg1 = true
                      /\ MODAL pg1 = Some (viewOf m (lang res))
                  end).
  { destruct Hcases as [(HM' & HV' & _ & Hnone)|(m & Hm & _ & HM' & HV' & _)].
    - rewrite (Hnone eq_refl). split; [exact HV' | exact HM'].
    - rewrite Hm. split; [|split; [exact HV' | exact HM']].
      apply evaluateGlobal_modal in Hm as (top & Htop & ->). simpl.
      apply (collect_snoozed input (AI_EVENTS pg) k top); [|exact Htop].
      rewrite applyAck_same_call by (reflexivity || exact Hk).
      apply snoozedAck_true; [exact Hnow | simpl; lia]. }
  clearbody pg1 res. clear HE Hcases.
  split; [exact Hack|]. split; [reflexivity|]. split.
  - destruct (modal res); simpl; exact Hshow.
  - intros now' now2' navLang'.
    assert (HM1 : exists v, MODAL pg1 = Some v).
    { destruct (modal res); [destruct Hshow as (_ & _ & ->)|destruct Hshow as (_ & ->)]; eauto. }
    destruct HM1 as [v HM1]. unfold hideGlobalModal. simpl. rewrite HM1. simpl.
    split; reflexivity.
Qed.

Lemma ok_click_acknowledges_witness :
  ackOf (AI_EVENTS (hideGlobalModal true (T0 + 5000) (T0 + 5000) "" alarmPage)
           !! "atom_s3_lite_01:offline"%string) = Some (T0 + 5000)
  /\ MODAL_EVENT_KEY (hideGlobalModal true (T0 + 5000) (T0 + 5000) "" alarmPage) = None
  /\ MODAL_VISIBLE (hideGlobalModal true (T0 + 5000) (T0 + 5000) "" alarmPage) = true.
Proof.
  destruct (MODAL alarmPage) as [view|] eqn:HM; [|vm_compute in HM; discriminate HM].
  pose proof (ok_click_acknowledges alarmPage view "atom_s3_lite_01:offline"
                (T0 + 5000) (T0 + 5000) "" HM) as H.
  cbv zeta in H. destruct H as (Hack & Hkey & _).
  - vm_compute. reflexivity.
  - discriminate.
  - vm_compute. discriminate.
  - split; [exact Hack|]. split; [exact Hkey|]. vm_compute. reflexivity.
Defined.

Lemma unknown_device_fires input (E : EventStore) dev :
  dev ∈ devices input ->
  lastDataMs dev = None ->
  snoozedAck (ackOf (applyAck input E !! offlineKey (deviceId dev)))
    (nowMs input) (modalSnoozeMs input) = false ->
  candidates (collect input E) <> [].
Proof.
  intros Hin Hnull Hs. rewrite collect_runSteps.
  pose proof (stepsOf_wellBehaved input (devices input)) as Hwb.
  pose proof (offline_step input _ _ Hin) as Hstep.
  assert (Hf : offlineAct input dev
               = offlineActiveAct input dev (alertMs input + 1) 2 "modal").
  { unfold offlineAct. rewrite Hnull. reflexivity. }
  destruct (runSteps_fires _ _ _ {| EVENTS := applyAck input E; candidates := [] |}
              _ _ Hwb Hstep) as (o & Hack & Hfire).
  simpl in Hack. rewrite Hf in Hfire. unfold offlineActiveAct in Hfire. simpl in Hfire.
  rewrite isSnoozed_ack, markSeen_ack, ackOf_entryOf, Hack, Hs in Hfire. simpl in Hfire.
  intros Hnil.
  match type of Hfire with forall c, c ∈ [?c0] -> _ =>
    specialize (Hfire c0 ltac:(left)) end.
  rewrite Hnil in Hfire. apply elem_of_nil in Hfire. exact Hfire.
Qed.

(** X27.  As long as one of the configured devices has no last-data time
    (it never delivered a row, or its poll failed) and its offline event
    is not snoozed, every run of [runGlobalAI] ends with a modal
    displayed: the one that was there, or, when none was, the modal the
    evaluation returns. *)
Theorem undelivered_device_raises_modal
    (pg : Page) (d : Device) (now now2 : Z) (navLang : string) :
  d ∈ getGlobalDevicesPayload pg ->
  lastDataMs d = None ->
  snoozedAck (ackOf (AI_EVENTS pg !! offlineKey (deviceId d))) now (5 * 60 * 1000) = false ->
  let res := fst (evaluateGlobal (globalInput now navLang None pg) (AI_EVENTS pg)) in
  let pg' := runGlobalAI now now2 navLang None pg in
  MODAL_VISIBLE pg' = true
  /\ (MODAL_VISIBLE pg = false ->
      exists m, modal res = Some m
                /\ MODAL pg' = Some (viewOf m (lang res))
                /\ MODAL_EVENT_KEY pg' = Some (Notification.eventKey m)).
Proof.
  intros Hd Hnull Hs res pg'. subst res pg'.
  set (input := globalInput now navLang None pg).
  assert (Hmodal : is_Some (modal (fst (evaluateGlobal input (AI_EVENTS pg))))).
  { apply evaluateGlobal_modal_nonempty.
    apply (unknown_device_fires input (AI_EVENTS pg) d Hd Hnull).
    rewrite applyAck_none by reflexivity. exact Hs. }
  destruct (runGlobalAI_cases now now2 navLang None pg)
    as (_ & _ & _ & _ & _ & _ & [(HM & HV & HK & Hnone)|(m & Hm & _ & HM & HV & HK)]);
    fold input in Hnone || fold input in Hm, HM.
  - destruct (MODAL_VISIBLE pg) eqn:Hvis.
    + split; [exact HV | discriminate].
    + rewrite (Hnone eq_refl) in Hmodal. destruct Hmodal as [? Hx]. discriminate Hx.
  - split; [exact HV|]. intros _. exists m. split; [exact Hm|]. split; [exact HM|].
    rewrite HK. apply keyOrNull_nonempty.
    apply evaluateGlobal_modal in Hm as (top & Htop & ->). simpl.
    apply collect_candidateOf in Htop as (d' & _ & Hshape).
    apply (ownedBy_nonempty (deviceId d')). apply (candidateOf_owned _ _ _ Hshape).
Qed.

Lemma undelivered_device_raises_modal_witness :
  MODAL_VISIBLE (runGlobalAI T0 T0 "" None polledPage) = true.
Proof.
  apply (undelivered_device_raises_modal polledPage
           {| deviceId := "atom_s3_lite_02"; deviceName := "学習支援室";
              rows := []; lastDataMs := None |} T0 T0 "").
  - right. left.
  - reflexivity.
  - vm_compute. reflexivity.
Defined.
